(** * Evonomics: a shallow embedding of the brain interpreter, the
    cellular-automaton rule and the double-auction market of
    [src/src/sim.rs] and [src/src/sim/brain.rs], with the grid arithmetic
    of [src/src/gridgen.rs]. *)

From Stdlib Require Import List Bool ZArith Lia Arith PeanoNat Permutation Sorted.
From Stdlib Require Import Floats.
Import ListNotations.
Open Scope Z_scope.

(** ** Panics and the outcome monad

    Rust code that can panic is modelled with an outcome type: [Ok] for a
    normal return, [Panic] with the reason for an aborting one. *)

Inductive PanicKind :=
| IndexOutOfBounds      (* slice or Vec indexing *)
| SubtractOverflow      (* usize arithmetic below zero *)
| RemainderByZero       (* [x % 0] *)
| BadConversion         (* the explicit panic of [From<Action> for Decision] *)
| ExpectFailed          (* [Option::expect] on [None] *)
| AssertionFailed       (* [assert_eq!] *)
| ArithmeticOverflow.   (* checked integer arithmetic of a debug build *)

Inductive Outcome (A : Type) :=
| Ok (a : A)
| Panic (p : PanicKind).
Arguments Ok {A} a.
Arguments Panic {A} p.

Definition obind {A B} (m : Outcome A) (f : A -> Outcome B) : Outcome B :=
  match m with Ok a => f a | Panic p => Panic p end.

Notation "x <- m ;; k" := (obind m (fun x => k))
  (at level 61, m at next level, right associativity).

(** Indexing [v[i]] of a Rust slice. *)
Definition index {A} (l : list A) (i : nat) : Outcome A :=
  match nth_error l i with Some a => Ok a | None => Panic IndexOutOfBounds end.

(** ** The random-number generator

    [rand]'s generator is modelled as an arbitrary stream of raw 64-bit
    draws with a cursor; every theorem quantifies over all streams. *)

Record Rng := mkRng { draws : nat -> Z; cursor : nat }.

Definition next_u64 (r : Rng) : Z * Rng :=
  (draws r (cursor r) mod 2 ^ 64, mkRng (draws r) (S (cursor r))).

(** [rng.gen_range(lo, hi)] on integers: a value in [lo, hi). *)
Definition gen_range (lo hi : Z) (r : Rng) : Z * Rng :=
  let (d, r') := next_u64 r in (lo + d mod (hi - lo), r').

Definition gen_range_nat (lo hi : nat) (r : Rng) : nat * Rng :=
  let (z, r') := gen_range (Z.of_nat lo) (Z.of_nat hi) r in (Z.to_nat z, r').

(** [rng.gen::<u32>()]. *)
Definition gen_u32 (r : Rng) : Z * Rng :=
  let (d, r') := next_u64 r in (d mod 2 ^ 32, r').

(** [Bernoulli::new(0.5)]: [gen::<u64>() < 2^63]. *)
Definition half_chance (r : Rng) : bool * Rng :=
  let (d, r') := next_u64 r in (d <? 2 ^ 63, r').

(** [rng.gen::<f64>()]: the top 53 bits of a draw, scaled by [2^-53]. *)
Definition gen_f64 (r : Rng) : float * Rng :=
  let (d, r') := next_u64 r in
  ((of_uint63 (Uint63.of_Z (d / 2 ^ 11)) * ldshiftexp 1 (Uint63.of_Z 2048))%float, r').

(** [SliceRandom::shuffle]: for [i] from [len-1] down to [1], swap [i]
    with [gen_range(0, i+1)]. *)
Definition swap {A} (d : A) (l : list A) (i j : nat) : list A :=
  map (fun k => nth (if Nat.eqb k i then j else if Nat.eqb k j then i else k) l d)
      (seq 0 (length l)).

Fixpoint shuffle_down {A} (d : A) (i : nat) (l : list A) (r : Rng) : list A * Rng :=
  match i with
  | O => (l, r)
  | S i' =>
      let (j, r1) := gen_range_nat 0 (S i) r in
      shuffle_down d i' (swap d l i j) r1
  end.

Definition shuffle {A} (l : list A) (r : Rng) : list A * Rng :=
  match l with
  | [] => (l, r)
  | d :: _ => shuffle_down d (pred (length l)) l r
  end.

(** ** gridsim's [MooreDirection]

    The four directions of the [gridsim] crate this repository uses, in its
    iteration order ([INPUTS = NEIGHBOR_INPUTS * 4 + SELF_INPUTS]);
    [turn_counterclockwise] turns a quarter to the next one. *)

Inductive MooreDirection := Right | Up | Left | Down.

Definition turn_counterclockwise (d : MooreDirection) : MooreDirection :=
  match d with Right => Up | Up => Left | Left => Down | Down => Right end.

Definition MooreDirection_eqb (a b : MooreDirection) : bool :=
  match a, b with
  | Right, Right | Up, Up | Left, Left | Down, Down => true
  | _, _ => false
  end.

(** ** [src/src/sim/brain.rs] *)

Module Brain.

Definition NUM_STATE : nat := 4.
Definition MAX_EXECUTE : nat := 128.

(** [enum Codon]; [u32] and [i32] operands are integers in range. *)
Inductive Codon :=
| Add | Sub | Mul | Div
| Literal (n : float)
| Less
| Copy (pos : Z)
| Read (pos : Z)
| Input (pos : Z)
| Write (pos : Z)
| Move (dir : MooreDirection)
| Divide (dir : MooreDirection)
| Trade
| SimpleTrade (a b : Z)
| RotateLeft
| RotateRight.

Inductive Action :=
| AWrite (pos : Z) (v : float)
| AMove (dir : MooreDirection)
| ADivide (dir : MooreDirection)
| ATrade (a b : Z)
| ARotateLeft
| ARotateRight
| ANothing.

Inductive Decision :=
| DMove (dir : MooreDirection)
| DDivide (dir : MooreDirection)
| DTrade (a b : Z)
| DNothing.

(** [impl From<Action> for Decision]. *)
Definition decision_of_action (a : Action) : Outcome Decision :=
  match a with
  | AMove d => Ok (DMove d)
  | ADivide d => Ok (DDivide d)
  | ATrade a b => Ok (DTrade a b)
  | ANothing => Ok DNothing
  | _ => Panic BadConversion
  end.

Record Dna := mkDna { sequence : list Codon; entries : list nat }.

(** [f64 as i32]: truncation toward zero, saturating, NaN to 0. *)
Definition i32_min : Z := - 2 ^ 31.
Definition i32_max : Z := 2 ^ 31 - 1.

Definition f64_as_i32 (x : float) : Z :=
  let t :=
    match Prim2SF x with
    | S754_zero _ => 0
    | S754_infinity false => i32_max
    | S754_infinity true => i32_min
    | S754_nan => 0
    | S754_finite s m e =>
        let q := if (0 <=? e) then Z.pos m * 2 ^ e else Z.pos m / 2 ^ (- e) in
        if s then - q else q
    end in
  Z.max i32_min (Z.min i32_max t).

(** The [clamp] closure of the [Trade] arm. *)
Definition clamp (n : float) : float :=
  if is_finite n then
    if (10000 <? n)%float then 10000%float
    else if (n <? -10000)%float then (-10000)%float
    else n
  else 0%float.

(** [Dna::execute]; the stack is a list whose head is the top of the
    Rust [Vec]. One unit of [fuel] is one turn of [for _ in 0..MAX_EXECUTE]. *)
Fixpoint exec_loop (sequence : list Codon) (inputs memory : list float)
    (fuel : nat) (stack : list float) (at_ : nat) : Outcome Action :=
  match fuel with
  | O => Ok ANothing
  | S fuel' =>
      let continue_with stack' :=
        exec_loop sequence inputs memory fuel' stack'
                  (Nat.modulo (S at_) (length sequence)) in
      c <- index sequence at_ ;;
      match c with
      | Add => match stack with b :: a :: s => continue_with ((a + b)%float :: s)
                               | _ => Ok ANothing end
      | Sub => match stack with b :: a :: s => continue_with ((a - b)%float :: s)
                               | _ => Ok ANothing end
      | Mul => match stack with b :: a :: s => continue_with ((a * b)%float :: s)
                               | _ => Ok ANothing end
      | Div => match stack with b :: a :: s => continue_with ((a / b)%float :: s)
                               | _ => Ok ANothing end
      | Literal n => continue_with (n :: stack)
      | Less => match stack with
                | b :: a :: s => if (a <? b)%float then continue_with s else Ok ANothing
                | _ => Ok ANothing
                end
      | Copy pos =>
          (* [if stack.is_empty() || pos > stack.len() { break }], then
             [stack[stack.len() - 1 - pos]] in [usize] arithmetic *)
          if (match stack with [] => true | _ => false end
              || (Z.of_nat (length stack) <? pos))%bool then Ok ANothing
          else if (Z.of_nat (length stack) - 1 - pos <? 0) then Panic SubtractOverflow
          else n <- index stack (Z.to_nat pos) ;; continue_with (n :: stack)
      | Read pos => n <- index memory (Z.to_nat pos) ;; continue_with (n :: stack)
      | Input pos =>
          if Nat.eqb (length inputs) 0 then Panic RemainderByZero
          else n <- index inputs (Nat.modulo (Z.to_nat pos) (length inputs)) ;;
               continue_with (n :: stack)
      | Write pos => match stack with n :: _ => Ok (AWrite pos n) | [] => Ok ANothing end
      | Move d => Ok (AMove d)
      | Divide d => Ok (ADivide d)
      | Trade => match stack with
                 | a :: b :: _ => Ok (ATrade (f64_as_i32 (clamp a)) (f64_as_i32 (clamp b)))
                 | _ => Ok ANothing
                 end
      | SimpleTrade a b => Ok (ATrade a b)
      | RotateLeft => Ok ARotateLeft
      | RotateRight => Ok ARotateRight
      end
  end.

Definition execute (dna : Dna) (inputs memory : list float) (at_ : nat) : Outcome Action :=
  exec_loop (sequence dna) inputs memory MAX_EXECUTE [] at_.

(** [struct Brain]: hue, counter-clockwise rotation, generation, the
    [NUM_STATE] registers and the (shared) genome. *)
Record Brain := mkBrain {
  color : float;
  rotation : nat;
  generation : nat;
  memory : list float;
  code : Dna
}.

(** [memory[i] = v] on an in-bounds index. *)
Fixpoint list_set {A} (l : list A) (i : nat) (v : A) : list A :=
  match l, i with
  | [], _ => []
  | _ :: t, O => v :: t
  | h :: t, S i' => h :: list_set t i' v
  end.

Definition with_memory (b : Brain) (m : list float) : Brain :=
  mkBrain (color b) (rotation b) (generation b) m (code b).

Definition with_rotation (b : Brain) (r : nat) : Brain :=
  mkBrain (color b) r (generation b) (memory b) (code b).

(** [Brain::rotate]. *)
Definition rot (r : nat) (d : MooreDirection) : MooreDirection :=
  Nat.iter r turn_counterclockwise d.

Definition rotate (b : Brain) (decision : Decision) : Decision :=
  match decision with
  | DDivide d => DDivide (rot (rotation b) d)
  | DMove d => DMove (rot (rotation b) d)
  | DNothing | DTrade _ _ => decision
  end.

(** One turn of the loop of [Brain::decide]: run the gene at [entry]. *)
Definition decide_gene (inputs : list float) (st : Brain * Decision) (entry : nat)
    : Outcome (Brain * Decision) :=
  let (b, decision) := st in
  a <- execute (code b) inputs (memory b) entry ;;
  match a with
  | AWrite pos v =>
      if Nat.eqb (length (memory b)) 0 then Panic RemainderByZero
      else Ok (with_memory b (list_set (memory b)
                 (Nat.modulo (Z.to_nat pos) (length (memory b))) v), decision)
  | ARotateLeft => Ok (with_rotation b (Nat.modulo (rotation b + 1) 4), decision)
  | ARotateRight => Ok (with_rotation b (Nat.modulo (rotation b + 3) 4), decision)
  | action => d <- decision_of_action action ;; Ok (b, d)
  end.

Fixpoint decide_loop (inputs : list float) (st : Brain * Decision) (es : list nat)
    : Outcome (Brain * Decision) :=
  match es with
  | [] => Ok st
  | e :: es' => st' <- decide_gene inputs st e ;; decide_loop inputs st' es'
  end.

(** [Brain::decide]: shuffle the entries, run every gene, rotate the
    decision by the final rotation. Returns the updated brain too. *)
Definition decide (b : Brain) (r : Rng) (inputs : list float)
    : Outcome (Brain * Decision) * Rng :=
  let (es, r') := shuffle (entries (code b)) r in
  (st <- decide_loop inputs (b, DNothing) es ;;
   let (b', d) := st in Ok (b', rotate b' d), r').

(** ** Sampling, mutation and crossover *)

(** [impl Distribution<Codon> for Standard]. *)
Definition gen_dir (r : Rng) : MooreDirection * Rng :=
  let (k, r') := gen_range 0 4 r in
  (match Z.to_nat k with 0%nat => Right | 1%nat => Up | 2%nat => Left | _ => Down end, r').

Definition gen_codon (r : Rng) : Codon * Rng :=
  let (k, r1) := gen_range 0 18 r in
  match Z.to_nat k with
  | 0%nat => (Add, r1)
  | 1%nat => (Sub, r1)
  | 2%nat => (Mul, r1)
  | 3%nat => (Div, r1)
  | 4%nat => let (f, r2) := gen_f64 r1 in (Literal (f * 4 - 2)%float, r2)
  | 5%nat => (Less, r1)
  | 6%nat => let (n, r2) := gen_u32 r1 in (Copy n, r2)
  | 7%nat => let (n, r2) := gen_u32 r1 in (Read (n mod Z.of_nat NUM_STATE), r2)
  | 8%nat => let (n, r2) := gen_u32 r1 in (Input n, r2)
  | 9%nat => let (n, r2) := gen_u32 r1 in (Write (n mod Z.of_nat NUM_STATE), r2)
  | 10%nat => let (d, r2) := gen_dir r1 in (Move d, r2)
  | 11%nat => let (d, r2) := gen_dir r1 in (Divide d, r2)
  | 12%nat => (Trade, r1)
  | 13%nat => (RotateLeft, r1)
  | 14%nat => (RotateRight, r1)
  | _ => let (a, r2) := gen_range 1 50 r1 in
         let (b, r3) := gen_range (-10) 10 r2 in (SimpleTrade a b, r3)
  end.

(** [Vec::insert] and [Vec::remove] at an in-bounds index. *)
Definition insert_at {A} (l : list A) (i : nat) (x : A) : list A :=
  firstn i l ++ x :: skipn i l.

Definition remove_at {A} (l : list A) (i : nat) : list A :=
  firstn i l ++ skipn (S i) l.

(** [sort_unstable] on offsets. *)
Fixpoint insert_sorted (x : nat) (l : list nat) : list nat :=
  match l with
  | [] => [x]
  | y :: t => if Nat.leb x y then x :: l else y :: insert_sorted x t
  end.

Fixpoint sort (l : list nat) : list nat :=
  match l with [] => [] | x :: t => insert_sorted x (sort t) end.

(** [Dna::mutate]. *)
Definition mutate_codons (dna : Dna) (r : Rng) : Dna * Rng :=
  let (add, r0) := half_chance r in
  if add then
    let (position, r1) := gen_range_nat 0 (length (sequence dna) + 1) r0 in
    let (c, r2) := gen_codon r1 in
    (mkDna (insert_at (sequence dna) position c)
           (map (fun e => if Nat.leb position e then S e else e) (entries dna)), r2)
  else if negb (Nat.eqb (length (sequence dna)) 0) then
    let (position, r1) := gen_range_nat 0 (length (sequence dna)) r0 in
    (mkDna (remove_at (sequence dna) position)
           (map (fun e => if Nat.ltb position e then pred e else e)
                (filter (fun e => negb (Nat.eqb e position)) (entries dna))), r1)
  else (dna, r0).

Definition mutate_entries (dna : Dna) (r : Rng) : Dna * Rng :=
  let (add, r0) :=
    if negb (Nat.eqb (length (sequence dna)) 0) then half_chance r else (false, r) in
  if add then
    let (position, r1) := gen_range_nat 0 (length (entries dna) + 1) r0 in
    if existsb (Nat.eqb position) (entries dna) then (dna, r1)
    else
      let (v, r2) := gen_range_nat 0 (length (sequence dna)) r1 in
      (mkDna (sequence dna) (sort (insert_at (entries dna) position v)), r2)
  else if negb (Nat.eqb (length (entries dna)) 0) then
    let (position, r1) := gen_range_nat 0 (length (entries dna)) r0 in
    (mkDna (sequence dna) (remove_at (entries dna) position), r1)
  else (dna, r0).

Definition mutate (dna : Dna) (r : Rng) : Dna * Rng :=
  let (dna1, r1) := mutate_codons dna r in mutate_entries dna1 r1.

(** The [position] of the codon the "Remove a codon" branch of
    [Dna::mutate] removes, when that branch runs. *)
Definition removed_codon (dna : Dna) (r : Rng) : option nat :=
  let (add, r0) := half_chance r in
  if add then None
  else if negb (Nat.eqb (length (sequence dna)) 0)
  then Some (fst (gen_range_nat 0 (length (sequence dna)) r0))
  else None.

(** The number of entries the codon removal drops with the codon. *)
Definition dropped_entries (dna : Dna) (r : Rng) : nat :=
  match removed_codon dna r with
  | Some p => count_occ Nat.eq_dec (entries dna) p
  | None => 0
  end.

(** [split_points]: the split offsets, an implicit [0] first unless the
    first entry is already [0] (or there is none), and the length last. *)
Definition split_bounds (points : list nat) (n : nat) : list nat :=
  match points with
  | p :: _ => if Nat.eqb p 0 then [] else [0%nat]
  | [] => []
  end ++ points ++ [n].

(** [tuple_windows] on pairs. *)
Fixpoint windows (l : list nat) : list (nat * nat) :=
  match l with
  | a :: ((b :: _) as t) => (a, b) :: windows t
  | _ => []
  end.

(** [&items[a..b]]. *)
Definition slice {A} (items : list A) (ab : nat * nat) : Outcome (list A) :=
  let (a, b) := ab in
  if (Nat.leb a b && Nat.leb b (length items))%bool
  then Ok (firstn (b - a) (skipn a items)) else Panic IndexOutOfBounds.

Fixpoint mapM {A B} (f : A -> Outcome B) (l : list A) : Outcome (list B) :=
  match l with
  | [] => Ok []
  | x :: t => y <- f x ;; ys <- mapM f t ;; Ok (y :: ys)
  end.

Definition split_points (points : list nat) (items : list Codon) : Outcome (list (list Codon)) :=
  mapM (slice items) (windows (split_bounds points (length items))).

Definition genes_of (dna : Dna) : Outcome (list (list Codon)) :=
  split_points (entries dna) (sequence dna).

(** The padding loop of [crossover] for one parent. *)
Fixpoint pad (off_by : nat) (genes : list (list Codon)) (r : Rng) : list (list Codon) * Rng :=
  match off_by with
  | O => (genes, r)
  | S k =>
      let (position, r1) := gen_range_nat 0 (length genes + 1) r in
      pad k (insert_at genes position []) r1
  end.

Fixpoint pad_all (highest : nat) (all : list (list (list Codon))) (r : Rng)
    : list (list (list Codon)) * Rng :=
  match all with
  | [] => ([], r)
  | genes :: rest =>
      let (g, r1) := pad (highest - length genes) genes r in
      let (gs, r2) := pad_all highest rest r1 in (g :: gs, r2)
  end.

(** The final loop of [crossover], for slots [i .. i + n). *)
Fixpoint assemble (all : list (list (list Codon))) (i n : nat) (dna : Dna) (r : Rng)
    : Outcome Dna * Rng :=
  match n with
  | O => (Ok dna, r)
  | S n' =>
      let (which, r1) := gen_range_nat 0 (length all) r in
      match (genes <- index all which ;; index genes i) with
      | Panic p => (Panic p, r1)
      | Ok gene =>
          let dna' :=
            if Nat.eqb (length gene) 0 then dna
            else mkDna (sequence dna ++ gene) (entries dna ++ [length (sequence dna)]) in
          assemble all (S i) n' dna' r1
      end
  end.

(** [crossover]. *)
Definition crossover (r : Rng) (dnas : list Dna) : Outcome Dna * Rng :=
  let (dnas1, r1) := shuffle dnas r in
  match mapM genes_of dnas1 with
  | Panic p => (Panic p, r1)
  | Ok [] => (Panic ExpectFailed, r1)
  | Ok genes =>
      let highest := list_max (map (@length _) genes) in
      let (padded, r2) := pad_all highest genes r1 in
      assemble padded 0 highest (mkDna [] []) r2
  end.

(** Offsets valid for the sequence, and sorted as [crossover] expects. *)
Definition entries_valid (dna : Dna) : Prop :=
  Forall (fun e => (e < length (sequence dna))%nat) (entries dna).

Definition entries_sorted (dna : Dna) : Prop :=
  StronglySorted le (entries dna).

(** The direction a decision moves or divides in, if any. *)
Definition decision_dir (o : Outcome (Brain * Decision)) : option MooreDirection :=
  match o with
  | Ok (_, DMove d) | Ok (_, DDivide d) => Some d
  | _ => None
  end.

Definition turn_clockwise (d : MooreDirection) : MooreDirection :=
  match d with Right => Down | Up => Right | Left => Up | Down => Left end.

(** The rotation [inputs[0..NEIGHBOR_INPUTS * 4].rotate_left(NEIGHBOR_INPUTS * k)]
    that [Evonomics::step] applies to the sensory vector. *)
Definition rotate_left {A} (n : nat) (l : list A) : list A :=
  let m := Nat.modulo n (length l) in skipn m l ++ firstn m l.

Definition rotate_neighbor_inputs (k : nat) (inputs : list float) : list float :=
  rotate_left (5 * k) (firstn 20 inputs) ++ skipn 20 inputs.

(** The claim that rotating both the orientation and the neighbour inputs by
    [k] leaves the decision's direction unchanged up to [k] turns. *)
Definition rotation_invariance_claim : Prop :=
  forall b r inputs k, (k < 4)%nat ->
    option_map (Nat.iter k turn_clockwise)
      (decision_dir (fst (decide (with_rotation b (Nat.modulo (rotation b + k) 4)) r
                                 (rotate_neighbor_inputs k inputs))))
    = decision_dir (fst (decide b r inputs)).

(** The per-call bound of the claim on sequence and entry counts. *)
Definition mutation_step_claim : Prop :=
  forall dna r, entries_valid dna ->
    let dna' := fst (mutate dna r) in
    (length (sequence dna') <= length (sequence dna) + 1)%nat /\
    (length (sequence dna) <= length (sequence dna') + 1)%nat /\
    (length (entries dna') <= length (entries dna) + 1)%nat /\
    (length (entries dna) <= length (entries dna') + 1)%nat /\
    entries_valid dna'.

(** Genes, gene counts and the shape of a padded gene list. *)
Definition nonempty_gene (g : list Codon) : bool := negb (Nat.eqb (length g) 0).

Definition gene_count (dna : Dna) : nat :=
  match genes_of dna with Ok g => length g | Panic _ => 0 end.

Fixpoint starts_from (o : nat) (gs : list (list Codon)) : list nat :=
  match gs with
  | [] => []
  | g :: gs' => o :: starts_from (o + length g) gs'
  end.

(** [padding_of genes padded]: [padded] is [genes] with empty genes
    inserted anywhere. *)
Inductive padding_of : list (list Codon) -> list (list Codon) -> Prop :=
| padding_nil : padding_of [] []
| padding_keep : forall g gs ps, padding_of gs ps -> padding_of (g :: gs) (g :: ps)
| padding_empty : forall gs ps, padding_of gs ps -> padding_of gs ([] :: ps).

(** The genome [Literal(1.0), Copy(1)] with one gene at offset [0]. *)
Definition copy_genome : Dna := mkDna [Literal 1%float; Copy 1] [0%nat].

(** ** Sampling a genome and combining brains *)

Definition INITIAL_GENOME_SCALE : float := 256%float.
Definition INITIAL_ENTRIES_SCALE : float := 64%float.

(** [f64 as u64] and [f64 as usize] (64 bits): truncation toward zero,
    saturating at [0] and [u64::MAX], NaN to 0. *)
Definition usize_max : Z := 2 ^ 64 - 1.

Definition f64_as_u64 (x : float) : Z :=
  let t :=
    match Prim2SF x with
    | S754_zero _ => 0
    | S754_infinity false => usize_max
    | S754_infinity true => 0
    | S754_nan => 0
    | S754_finite s m e =>
        let q := if (0 <=? e) then Z.pos m * 2 ^ e else Z.pos m / 2 ^ (- e) in
        if s then - q else q
    end in
  Z.max 0 (Z.min usize_max t).

Definition f64_as_usize (x : float) : nat := Z.to_nat (f64_as_u64 x).

(** [rng.sample_iter(Standard).take(n).collect()] on codons. *)
Fixpoint gen_codons (n : nat) (r : Rng) : list Codon * Rng :=
  match n with
  | O => ([], r)
  | S k => let (c, r1) := gen_codon r in
           let (cs, r2) := gen_codons k r1 in (c :: cs, r2)
  end.

(** [(0..n).map(|_| rng.gen_range(0, len))]. *)
Fixpoint gen_entries (n len : nat) (r : Rng) : list nat * Rng :=
  match n with
  | O => ([], r)
  | S k => let (e, r1) := gen_range_nat 0 len r in
           let (es, r2) := gen_entries k len r1 in (e :: es, r2)
  end.

(** [Itertools::unique]: the first occurrence of every value, in order. *)
Fixpoint unique_from (seen : list nat) (l : list nat) : list nat :=
  match l with
  | [] => []
  | x :: t => if existsb (Nat.eqb x) seen then unique_from seen t
              else x :: unique_from (x :: seen) t
  end.

Definition unique (l : list nat) : list nat := unique_from [] l.

(** [impl Distribution<Dna> for Standard]. [exp1] is [rng.sample(Exp1)],
    the exponential sampler of [rand_distr], kept abstract. *)
Definition sample_dna (exp1 : Rng -> float * Rng) (r : Rng) : Dna * Rng :=
  let (x, r1) := exp1 r in
  let sequence_len := f64_as_usize (x * INITIAL_GENOME_SCALE)%float in
  let (sq, r2) := gen_codons sequence_len r1 in
  if Nat.eqb sequence_len 0 then (mkDna sq [], r2)
  else
    let (y, r3) := exp1 r2 in
    let entries_len := f64_as_usize (y * INITIAL_ENTRIES_SCALE)%float in
    let (es, r4) := gen_entries entries_len sequence_len r3 in
    (mkDna sq (sort (unique es)), r4).


(** [impl Distribution<Brain> for Standard]. [random_color] is
    [rng.gen_range(0.0, 2.0 * PI)], kept abstract like [exp1]. *)
Definition sample_brain (exp1 random_color : Rng -> float * Rng) (r : Rng) : Brain * Rng :=
  let (rotation, r1) := gen_range_nat 0 4 r in
  let (code, r2) := sample_dna exp1 r1 in
  let (color, r3) := random_color r2 in
  (mkBrain color rotation 0 (repeat 0%float NUM_STATE) code, r3).

(** The operand ranges [Distribution<Codon>] draws: registers below
    [NUM_STATE], [u32] operands and the [SimpleTrade] ranges. *)
Definition codon_ok (c : Codon) : Prop :=
  match c with
  | Read p | Write p => 0 <= p < Z.of_nat NUM_STATE
  | Copy p | Input p => 0 <= p < 2 ^ 32
  | SimpleTrade a b => 1 <= a < 50 /\ -10 <= b < 10
  | _ => True
  end.

(** A genome [crossover] accepts, made of codons [Distribution<Codon>] can
    draw. *)
Definition dna_ok (dna : Dna) : Prop :=
  entries_sorted dna /\ entries_valid dna /\ Forall codon_ok (sequence dna).

End Brain.

(** * [gridgen]: wrapping grid positions *)

Module GridGen.

(** [as] casts between [usize] and [isize], and their checked additions. *)
Definition as_isize (z : Z) : Z :=
  let m := z mod 2 ^ 64 in if m <? 2 ^ 63 then m else m - 2 ^ 64.
Definition as_usize (z : Z) : Z := z mod 2 ^ 64.
Definition chk_isize (z : Z) : Outcome Z :=
  if (- 2 ^ 63 <=? z) && (z <? 2 ^ 63) then Ok z else Panic ArithmeticOverflow.
Definition chk_usize (z : Z) : Outcome Z :=
  if (0 <=? z) && (z <? 2 ^ 64) then Ok z else Panic ArithmeticOverflow.

(** [wrap(pos, shape, delt) = (pos + (shape as isize + delt) as usize) % shape]. *)
Definition wrap (pos shape delt : Z) : Outcome Z :=
  a <- chk_isize (as_isize shape + delt) ;;
  b <- chk_usize (pos + as_usize a) ;;
  if shape =? 0 then Panic RemainderByZero else Ok (b mod shape).

(** [dir(pos, shape, delta)], componentwise. *)
Definition dir (pos shape delta : Z * Z) : Outcome (Z * Z) :=
  a <- wrap (fst pos) (fst shape) (fst delta) ;;
  b <- wrap (snd pos) (snd shape) (snd delta) ;;
  Ok (a, b).

End GridGen.

(** * The simulation of [src/src/sim.rs]

    Integer arithmetic is that of a debug build: [+], [-] and [*] on [u32]
    and [i32] panic on overflow, while [as] casts wrap. The brains' choices
    and the draws of the thread-local generators (the grid is stepped in
    parallel, so which draws a cell sees is not fixed by the program) are
    inputs of [tick]: the decision of each cell, and per cell the results of
    [brain::combine], [Brain::mutate], the spawned brain and the Bernoulli
    draws of [update]. *)

Module Sim.
Import Brain.

Definition SPAWN_FOOD : Z := 16.
Definition MOVE_PENALTY : Z := 8.
Definition RESERVE_MULTIPLIER : Z := 64.
Definition REPO : bool := false.

(** ** Machine integers *)

Definition in_u32 (z : Z) : bool := (0 <=? z) && (z <? 2 ^ 32).
Definition in_i32 (z : Z) : bool := (- 2 ^ 31 <=? z) && (z <? 2 ^ 31).

Definition chk_u32 (z : Z) : Outcome Z := if in_u32 z then Ok z else Panic ArithmeticOverflow.
Definition chk_i32 (z : Z) : Outcome Z := if in_i32 z then Ok z else Panic ArithmeticOverflow.

(** [x as u32] for an [i32] and [x as i32] for a [u32]. *)
Definition as_u32 (z : Z) : Z := z mod 2 ^ 32.
Definition as_i32 (z : Z) : Z :=
  let m := z mod 2 ^ 32 in if m <? 2 ^ 31 then m else m - 2 ^ 32.

(** [i32::abs]: overflows on [i32::MIN]. *)
Definition i32_abs (z : Z) : Outcome Z :=
  if z =? - 2 ^ 31 then Panic ArithmeticOverflow else Ok (Z.abs z).

Definition saturating_sub (a b : Z) : Z := Z.max 0 (a - b).

(** [iter.sum::<u32>()]. *)
Fixpoint sum_u32_from (acc : Z) (l : list Z) : Outcome Z :=
  match l with
  | [] => Ok acc
  | x :: t => a <- chk_u32 (acc + x) ;; sum_u32_from a t
  end.

Definition sum_u32 (l : list Z) : Outcome Z := sum_u32_from 0 l.

(** ** Cells *)

Record Trade := mkTrade { t_rate : Z; t_food : Z }.

Inductive CellType := Wall | Source | Empty.

Definition CellType_eqb (a b : CellType) : bool :=
  match a, b with
  | Wall, Wall | Source, Source | Empty, Empty => true
  | _, _ => false
  end.

Record Cell := mkCell {
  food : Z;
  money : Z;
  ty : CellType;
  signal : float;
  brain : option Brain;
  trade : option Trade
}.

Definition default_cell : Cell := mkCell 0 0 Empty 0%float None None.

Definition with_money (c : Cell) (m : Z) : Cell :=
  mkCell (food c) m (ty c) (signal c) (brain c) (trade c).

Definition with_food_money (c : Cell) (f m : Z) : Cell :=
  mkCell f m (ty c) (signal c) (brain c) (trade c).

Definition with_trade (c : Cell) (t : option Trade) : Cell :=
  mkCell (food c) (money c) (ty c) (signal c) (brain c) t.

Record Move := mkMove { m_food : Z; m_money : Z; m_brain : option Brain }.

Record Diff := mkDiff { consume : Z; spend : Z; moved : bool; d_trade : option Trade }.

(** The iteration order of [MooreNeighbors], and the direction a move
    sent towards [d] arrives from. *)
Definition all_dirs : list MooreDirection := [Right; Up; Left; Down].

Definition flip (d : MooreDirection) : MooreDirection :=
  Nat.iter 2 turn_counterclockwise d.

Definition no_move : Move := mkMove 0 0 None.

Definition is_none {A} (o : option A) : bool :=
  match o with None => true | Some _ => false end.

Definition option_list {A} (o : option A) : list A :=
  match o with None => [] | Some a => [a] end.

(** [Brain::signal]: [self.memory[0]]. *)
Definition brain_signal (b : Brain) : Outcome float := index (memory b) 0.

(** [<Evonomics as gridsim::Sim>::step], given the cell's decision. *)
Definition step (cell : Cell) (decision : Decision) : Outcome (Diff * (MooreDirection -> Move)) :=
  if is_none (brain cell) || (food cell =? 0) then
    Ok (mkDiff 0 0 true None, fun _ => no_move)
  else
    let just_exist t := Ok (mkDiff 1 0 false t, fun _ : MooreDirection => no_move) in
    match decision with
    | DMove dir =>
        if MOVE_PENALTY <? food cell then
          f1 <- chk_u32 (food cell - 1) ;;
          f2 <- chk_u32 (f1 - MOVE_PENALTY) ;;
          Ok (mkDiff (food cell) (money cell) true None,
              fun nd => if MooreDirection_eqb nd dir
                        then mkMove f2 (money cell) (brain cell) else no_move)
        else just_exist None
    | DDivide dir =>
        if 2 + MOVE_PENALTY <=? food cell then
          c1 <- chk_u32 (food cell / 2 + 1) ;;
          c2 <- chk_u32 (c1 + MOVE_PENALTY / 2) ;;
          f <- chk_u32 (food cell / 2 - MOVE_PENALTY / 2) ;;
          let child := option_map (fun t => mkBrain (color t) (rotation t) (S (generation t))
                                                      (memory t) (code t)) (brain cell) in
          Ok (mkDiff c2 (money cell / 2) false None,
              fun nd => if MooreDirection_eqb nd dir
                        then mkMove f (money cell / 2) child else no_move)
        else just_exist None
    | DTrade rate fd =>
        neg <- chk_i32 (- rate) ;;
        cost <- chk_i32 (neg * fd) ;;
        if (fd <? as_i32 (food cell)) && (cost <=? as_i32 (money cell))
        then just_exist (Some (mkTrade rate fd))
        else just_exist None
    | DNothing => just_exist None
    end.

(** The generator draws [update] consumes. *)
Record UpdateDraws := mkUpdateDraws {
  u_combine : list Brain -> Brain;   (* [brain::combine] *)
  u_mutate : bool;
  u_mutated : Brain -> Brain;        (* [Brain::mutate] *)
  u_spawn : bool;
  u_spawned : Brain;                 (* [rng.gen::<Brain>()] *)
  u_food : bool;
  u_bounty : Z                       (* [CORNACOPIA_FOOD_SPAWN] *)
}.

(** [<Evonomics as gridsim::Sim>::update]. *)
Definition update (cell : Cell) (diff : Diff) (moves : MooreDirection -> Move) (u : UpdateDraws)
    : Outcome Cell :=
  inc <- sum_u32 (map (fun d => m_money (moves d)) all_dirs) ;;
  m1 <- chk_u32 (money cell + inc) ;;
  if CellType_eqb (ty cell) Wall then Ok (with_money cell m1) else
  let food1 := saturating_sub (food cell) (consume diff) in
  let money2 := saturating_sub m1 (spend diff) in
  let brain1 := if moved diff then None else brain cell in
  let brain_moves := flat_map (fun d => option_list (m_brain (moves d))) all_dirs in
  let brain2 :=
    if Nat.ltb 1 (length brain_moves + (if is_none brain1 then 0 else 1))
    then Some (u_combine u (option_list brain1 ++ brain_moves))
    else match brain_moves with [m] => Some m | _ => brain1 end in
  finc <- sum_u32 (map (fun d => m_food (moves d)) all_dirs) ;;
  food2 <- chk_u32 (food1 + finc) ;;
  let brain3 := option_map (fun b => if u_mutate u then u_mutated u b else b) brain2 in
  bf <- (if is_none brain3 && u_spawn u
         then f <- chk_u32 (food2 + SPAWN_FOOD) ;; Ok (Some (u_spawned u), f)
         else Ok (brain3, food2)) ;;
  let (brain4, food3) := bf in
  food4 <- (if CellType_eqb (ty cell) Source
            then (if u_food u then chk_u32 (food3 + u_bounty u) else Ok food3)
            else (if u_food u then chk_u32 (food3 + 1) else Ok food3)) ;;
  sig <- match brain4 with Some b => brain_signal b | None => Ok 0%float end ;;
  Ok (mkCell food4 money2 (ty cell) sig brain4 (d_trade diff)).

(** [SquareGrid::cycle]: every cell is stepped on the old grid, then every
    cell is updated with the moves its neighbours sent towards it; [nb i d]
    is the neighbour of cell [i] in direction [d]. *)
Definition default_step : Diff * (MooreDirection -> Move) :=
  (mkDiff 0 0 true None, fun _ => no_move).

Definition cycle (nb : nat -> MooreDirection -> nat) (cells : list Cell)
    (dec : nat -> Decision) (ud : nat -> UpdateDraws) : Outcome (list Cell) :=
  steps <- mapM (fun i => step (nth i cells default_cell) (dec i)) (seq 0 (length cells)) ;;
  mapM (fun i => update (nth i cells default_cell) (fst (nth i steps default_step))
                        (fun d => snd (nth (nb i d) steps default_step) (flip d)) (ud i))
       (seq 0 (length cells)).

(** ** The market *)

Record Order := mkOrder { o_index : nat; rate : Z; o_food : Z }.

Inductive Intent := IBid | IAsk | INothing.

Definition intent (o : Order) : Intent :=
  if o_food o <? 0 then IBid else if 0 <? o_food o then IAsk else INothing.

Definition with_food (o : Order) (f : Z) : Order := mkOrder (o_index o) (rate o) f.

(** [MinMaxHeap] as a list; [pop_best better] removes an element no
    other element is [better] than. *)
Fixpoint pop_best (better : Order -> Order -> bool) (h : list Order) : option (Order * list Order) :=
  match h with
  | [] => None
  | o :: t =>
      match pop_best better t with
      | None => Some (o, [])
      | Some (b, rest) => if better b o then Some (b, o :: rest) else Some (o, t)
      end
  end.

Definition pop_min : list Order -> option (Order * list Order) :=
  pop_best (fun x y => rate x <? rate y).
Definition pop_max : list Order -> option (Order * list Order) :=
  pop_best (fun x y => rate y <? rate x).

(** The part of [Sim] the market pass changes, with the two heaps local to
    [Sim::tick]. *)
Record Market := mkMarket {
  m_cells : list Cell;
  m_reserve : Z;
  m_buy : Z;
  m_sell : Z;
  bids : list Order;
  asks : list Order
}.

Definition set_cells (st : Market) (cs : list Cell) : Market :=
  mkMarket cs (m_reserve st) (m_buy st) (m_sell st) (bids st) (asks st).
Definition set_bids (st : Market) (h : list Order) : Market :=
  mkMarket (m_cells st) (m_reserve st) (m_buy st) (m_sell st) h (asks st).
Definition set_asks (st : Market) (h : list Order) : Market :=
  mkMarket (m_cells st) (m_reserve st) (m_buy st) (m_sell st) (bids st) h.

(** One side of a fill: [cell.money = (cell.money as i32 + rate * num *
    signum) as u32; cell.food = (cell.food as i32 - num * signum) as u32;
    order.food -= signum * num]. *)
Definition settle (cells : list Cell) (o : Order) (r num : Z) : Outcome (list Cell * Order) :=
  let sg := Z.sgn (o_food o) in
  c <- index cells (o_index o) ;;
  p1 <- chk_i32 (r * num) ;;
  p <- chk_i32 (p1 * sg) ;;
  m <- chk_i32 (as_i32 (money c) + p) ;;
  q <- chk_i32 (num * sg) ;;
  f <- chk_i32 (as_i32 (food c) - q) ;;
  d <- chk_i32 (sg * num) ;;
  nf <- chk_i32 (o_food o - d) ;;
  Ok (list_set cells (o_index o) (with_food_money c (as_u32 f) (as_u32 m)), with_food o nf).

(** The [fulfill] closure: both sides trade [num] units at the resting
    order's rate. *)
Definition fulfill (st : Market) (nw ex : Order) : Outcome (Market * Order * Order) :=
  let r := rate ex in
  na <- i32_abs (o_food nw) ;;
  ea <- i32_abs (o_food ex) ;;
  let num := Z.min na ea in
  p1 <- settle (m_cells st) nw r num ;;
  let (cells1, nw') := p1 in
  p2 <- settle cells1 ex r num ;;
  let (cells2, ex') := p2 in
  bv <- chk_u32 (m_buy st + as_u32 num) ;;
  sv <- chk_u32 (m_sell st + as_u32 num) ;;
  Ok (mkMarket cells2 (m_reserve st) bv sv (bids st) (asks st), nw', ex').

(** The [fulfill_reserve] closure: an ask sells to the reserve at one money
    per food. *)
Definition fulfill_reserve (st : Market) (o : Order) : Outcome (Market * Order) :=
  let num := Z.min (o_food o) (as_i32 (m_reserve st)) in
  let sg := Z.sgn (o_food o) in
  c <- index (m_cells st) (o_index o) ;;
  a <- chk_i32 (num * sg) ;;
  m <- chk_i32 (as_i32 (money c) + a) ;;
  f <- chk_i32 (as_i32 (food c) - a) ;;
  d <- chk_i32 (sg * num) ;;
  nf <- chk_i32 (o_food o - d) ;;
  let cells := list_set (m_cells st) (o_index o) (with_food_money c (as_u32 f) (as_u32 m)) in
  rs <- chk_u32 (m_reserve st - as_u32 num) ;;
  sv <- chk_u32 (m_sell st + as_u32 num) ;;
  Ok (mkMarket cells rs (m_buy st) sv (bids st) (asks st), with_food o nf).

(** The [food_reserve] closure (reached only when [REPO] is set). *)
Definition food_reserve (st : Market) (o : Order) : Outcome (Market * Order) :=
  num <- chk_i32 (- o_food o) ;;
  let sg := Z.sgn (o_food o) in
  c <- index (m_cells st) (o_index o) ;;
  a <- chk_i32 (num * sg) ;;
  m <- chk_i32 (as_i32 (money c) + a) ;;
  f <- chk_i32 (as_i32 (food c) - a) ;;
  d <- chk_i32 (sg * num) ;;
  nf <- chk_i32 (o_food o - d) ;;
  let cells := list_set (m_cells st) (o_index o) (with_food_money c (as_u32 f) (as_u32 m)) in
  rs <- chk_u32 (m_reserve st + as_u32 num) ;;
  bv <- chk_u32 (m_buy st + as_u32 num) ;;
  Ok (mkMarket cells rs bv (m_sell st) (bids st) (asks st), with_food o nf).

Definition push_if_open (h : list Order) (o : Order) : list Order :=
  if o_food o =? 0 then h else o :: h.

(** The [loop] of the [Intent::Bid] arm. Every pass that does not leave the
    loop removes one ask for good, so [S (length (asks st))] passes suffice. *)
Fixpoint bid_loop (fuel : nat) (st : Market) (o : Order) : Outcome Market :=
  match fuel with
  | O => Ok st
  | S fuel' =>
      match pop_min (asks st) with
      | Some (ask, rest) =>
          let st1 := set_asks st rest in
          if rate o <? rate ask then Ok (set_bids st1 (push_if_open (bids st1) o))
          else
            t <- fulfill st1 o ask ;;
            let '(st2, o', ask') := t in
            let st3 := set_asks st2 (push_if_open (asks st2) ask') in
            if o_food o' =? 0 then Ok st3 else bid_loop fuel' st3 o'
      | None =>
          p <- (if REPO && (1 <=? rate o) then food_reserve st o else Ok (st, o)) ;;
          let (st1, o1) := p in
          Ok (set_bids st1 (push_if_open (bids st1) o1))
      end
  end.

(** The [loop] of the [Intent::Ask] arm. *)
Fixpoint ask_loop (fuel : nat) (st : Market) (o : Order) : Outcome Market :=
  match fuel with
  | O => Ok st
  | S fuel' =>
      match pop_max (bids st) with
      | Some (bid, rest) =>
          let st1 := set_bids st rest in
          if rate bid <? rate o then
            p <- (if rate o <=? 1 then fulfill_reserve st1 o else Ok (st1, o)) ;;
            let (st2, o2) := p in
            Ok (set_asks st2 (push_if_open (asks st2) o2))
          else
            p <- (if rate bid <? 1 then fulfill_reserve st1 o else Ok (st1, o)) ;;
            let (st2, o2) := p in
            t <- fulfill st2 o2 bid ;;
            let '(st3, o', bid') := t in
            let st4 := set_bids st3 (push_if_open (bids st3) bid') in
            if o_food o' =? 0 then Ok st4 else ask_loop fuel' st4 o'
      | None =>
          p <- (if rate o <=? 1 then fulfill_reserve st o else Ok (st, o)) ;;
          let (st1, o1) := p in
          Ok (set_asks st1 (push_if_open (asks st1) o1))
      end
  end.

(** [for mut order in orders { ... }]. *)
Fixpoint market (st : Market) (orders : list Order) : Outcome Market :=
  match orders with
  | [] => Ok st
  | o :: os =>
      st' <- match intent o with
             | IBid => bid_loop (S (length (asks st))) st o
             | IAsk => ask_loop (S (length (bids st))) st o
             | INothing => Ok st
             end ;;
      market st' os
  end.

(** The orders taken out of the grid: [filter_map] over the enumerated
    cells, [cell.trade.take()]. *)
Fixpoint extract_orders (i : nat) (cells : list Cell) : list Order :=
  match cells with
  | [] => []
  | c :: cs =>
      match trade c with
      | Some t => mkOrder i (t_rate t) (t_food t) :: extract_orders (S i) cs
      | None => extract_orders (S i) cs
      end
  end.

Definition take_trades (cells : list Cell) : list Cell :=
  map (fun c => with_trade c None) cells.

(** The pass that returns the money on walls to the reserve. *)
Fixpoint sweep (cells : list Cell) (reserve : Z) : Outcome (list Cell * Z) :=
  match cells with
  | [] => Ok ([], reserve)
  | c :: cs =>
      p <- (if CellType_eqb (ty c) Wall
            then r <- chk_u32 (reserve + money c) ;; Ok (with_money c 0, r)
            else Ok (c, reserve)) ;;
      let (c', r1) := p in
      q <- sweep cs r1 ;;
      let (cs', r2) := q in
      Ok (c' :: cs', r2)
  end.

(** ** [Sim] and [Sim::tick] *)

Record Sim := mkSim {
  grid : list Cell;
  width : nat;
  height : nat;
  reserve : Z;
  last_bid : option Z;
  last_ask : option Z;
  buy_volume : Z;
  sell_volume : Z
}.

(** [width as u32 * height as u32 * RESERVE_MULTIPLIER]. *)
Definition reserve_total (w h : nat) : Outcome Z :=
  a <- chk_u32 (as_u32 (Z.of_nat w) * as_u32 (Z.of_nat h)) ;;
  chk_u32 (a * RESERVE_MULTIPLIER).

Definition sum_money (cells : list Cell) : Z := fold_right Z.add 0 (map money cells).

(** [Sim::new], given the cell types the wall generator and the source
    draws produced. *)
Definition new_sim (w h : nat) (tys : list CellType) : Outcome Sim :=
  r <- reserve_total w h ;;
  Ok (mkSim (map (fun t => mkCell 0 0 t 0%float None None) tys) w h r None None 0 0).

(** [openness + 1] on [usize]. *)
Definition chk_usize_nat (n : nat) : Outcome nat :=
  if Z.of_nat n <? 2 ^ 64 then Ok n else Panic ArithmeticOverflow.

(** [Bernoulli::new(p)] of [rand] 0.7: [p_int = (p * 2^64) as u64], or
    [ALWAYS_TRUE] for [p = 1]; the [unwrap] of [Sim::new] panics outside
    [0, 1]. *)
Definition ALWAYS_TRUE : Z := 2 ^ 64 - 1.
Definition BERNOULLI_SCALE : float := (2 * 9223372036854775808)%float.

Definition bernoulli_new (p : float) : Outcome Z :=
  if negb ((0 <=? p)%float && (p <? 1)%float) then
    if (p =? 1)%float then Ok ALWAYS_TRUE else Panic ExpectFailed
  else Ok (f64_as_u64 (p * BERNOULLI_SCALE)%float).

(** [Bernoulli::sample]: no draw for [ALWAYS_TRUE], else [gen::<u64>() < p_int]. *)
Definition bernoulli_sample (p_int : Z) (r : Rng) : bool * Rng :=
  if p_int =? ALWAYS_TRUE then (true, r)
  else let (d, r') := next_u64 r in (d <? p_int, r').

(** The body of the cell loop of [Sim::new] for cell [ix]. [walls] is the
    [Array2] of shape [(oh, ow)] that [gridgen::generate_walls] returns. *)
Definition cell_type_at (width open_scale ow oh : nat) (walls : nat -> nat -> bool)
    (p_int : Z) (ix : nat) (r : Rng) : Outcome CellType * Rng :=
  let (src, r1) := bernoulli_sample p_int r in
  let ty0 := if src then Source else Empty in
  (if Nat.eqb width 0 then Panic RemainderByZero else
   let x := (ix mod width)%nat in
   let y := (ix / width)%nat in
   let ox := (x / open_scale)%nat in
   let oy := (y / open_scale)%nat in
   if (ow <=? ox)%nat || (oh <=? oy)%nat then Ok ty0 else
   op <- GridGen.dir (Z.of_nat oy, Z.of_nat ox) (Z.of_nat oh, Z.of_nat ow) (0, 0) ;;
   let (a, b) := op in
   if (a <? Z.of_nat oh) && (b <? Z.of_nat ow)
   then Ok (if walls (Z.to_nat a) (Z.to_nat b) then Wall else ty0)
   else Panic IndexOutOfBounds, r1).

Fixpoint cell_types (width open_scale ow oh : nat) (walls : nat -> nat -> bool)
    (p_int : Z) (ix n : nat) (r : Rng) : Outcome (list CellType) * Rng :=
  match n with
  | O => (Ok [], r)
  | S k =>
      let (t, r1) := cell_type_at width open_scale ow oh walls p_int ix r in
      match t with
      | Panic e => (Panic e, r1)
      | Ok t =>
          let (ts, r2) := cell_types width open_scale ow oh walls p_int (S ix) k r1 in
          (x <- ts ;; Ok (t :: x), r2)
      end
  end.

(** [Sim::new(width, height, openness, p)] from the generator state after
    [generate_walls(rng, (oh, ow))] drew [walls]. *)
Definition sim_new (w h openness : nat) (p : float) (walls : nat -> nat -> bool) (r : Rng)
    : Outcome Sim :=
  open_scale <- chk_usize_nat (openness + 1) ;;
  let ow := (w / open_scale)%nat in
  let oh := (h / open_scale)%nat in
  p_int <- bernoulli_new p ;;
  tys <- fst (cell_types w open_scale ow oh walls p_int 0 (w * h) r) ;;
  new_sim w h tys.

(** The market pass of a tick, from the grid after [cycle]: the orders are
    shuffled and matched against heaps that start empty. *)
Definition market_start (cells : list Cell) (reserve : Z) : Market :=
  mkMarket cells reserve 0 0 [] [].

Definition tick (nb : nat -> MooreDirection -> nat) (dec : nat -> Decision)
    (ud : nat -> UpdateDraws) (r : Rng) (s : Sim) : Outcome Sim :=
  cells1 <- cycle nb (grid s) dec ud ;;
  let orders := fst (shuffle (extract_orders 0 cells1) r) in
  st <- market (market_start (take_trades cells1) (reserve s)) orders ;;
  let lb := option_map (fun p => rate (fst p)) (pop_max (bids st)) in
  let la := option_map (fun p => rate (fst p)) (pop_min (asks st)) in
  p <- sweep (m_cells st) (m_reserve st) ;;
  let (cells2, reserve2) := p in
  total <- sum_u32 (map money cells2) ;;
  lhs <- chk_u32 (total + reserve2) ;;
  rhs <- reserve_total (width s) (height s) ;;
  if lhs =? rhs
  then Ok (mkSim cells2 (width s) (height s) reserve2 lb la (m_buy st) (m_sell st))
  else Panic AssertionFailed.

(** The states [Sim::new] and [Sim::tick] reach on a grid whose neighbour
    map is [nb]. *)
Inductive reachable (nb : nat -> MooreDirection -> nat) (w h : nat) : Sim -> Prop :=
| reach_new : forall tys s, length tys = (w * h)%nat -> new_sim w h tys = Ok s ->
    reachable nb w h s
| reach_tick : forall s dec ud r s', reachable nb w h s -> tick nb dec ud r s = Ok s' ->
    reachable nb w h s'.

(** ** Statements taken from the specification *)

(** Matching as the specification states it: a bid of rate 5 for 3 units
    followed by an ask of rate 3 for 4 units fills 3 units at rate 3. *)
Definition matching_claim : Prop :=
  forall cells reserve i j, i <> j -> (i < length cells)%nat -> (j < length cells)%nat ->
    let ci := nth i cells default_cell in
    let cj := nth j cells default_cell in
    15 <= money ci < 2 ^ 31 -> 0 <= money cj < 2 ^ 31 - 15 ->
    0 <= food ci < 2 ^ 31 - 3 -> 3 <= food cj < 2 ^ 31 ->
    exists st, market (market_start cells reserve) [mkOrder i 5 (-3); mkOrder j 3 4] = Ok st /\
      money (nth i (m_cells st) default_cell) = money ci - 9 /\
      food (nth i (m_cells st) default_cell) = food ci + 3 /\
      money (nth j (m_cells st) default_cell) = money cj + 9 /\
      food (nth j (m_cells st) default_cell) = food cj - 3 /\
      asks st = [mkOrder j 3 1] /\ m_buy st = 3 /\ m_sell st = 3.

(** A persistent order book: a bid still resting at the end of one market
    pass is matched by a crossing ask of another cell in the next pass
    (every pass of [tick] starts from [market_start]). *)
Definition order_book_persistence_claim : Prop :=
  forall cells reserve orders st o cells2 reserve2 a st2,
    market (market_start cells reserve) orders = Ok st -> In o (bids st) ->
    intent a = IAsk -> rate a <= rate o -> o_index a <> o_index o ->
    (o_index a < length cells2)%nat -> (o_index o < length cells2)%nat ->
    market (market_start cells2 reserve2) [a] = Ok st2 -> 0 < m_sell st2.

End Sim.

(** * Invariants of the simulation

    The relations and invariants the proofs about [Sim::tick] are stated
    with. *)

Module SimInv.
Import Sim.

(** A cell keeps its type, its brain and its trade. *)
Definition frame (c c' : Cell) : Prop := ty c' = ty c /\ brain c' = brain c /\ trade c' = trade c.

(** Two grids of the same size whose cells are related by [frame]. *)
Definition cells_rel (l l' : list Cell) : Prop :=
  length l' = length l /\ forall k, frame (nth k l default_cell) (nth k l' default_cell).

(** What a CA cycle keeps: the types of all cells, and the brain and trade
    of the walls. *)
Definition wall_rel (l l' : list Cell) : Prop :=
  length l' = length l /\ forall k,
    ty (nth k l' default_cell) = ty (nth k l default_cell) /\
    (ty (nth k l default_cell) = Wall ->
     brain (nth k l' default_cell) = brain (nth k l default_cell) /\
     trade (nth k l' default_cell) = trade (nth k l default_cell)).

(** Walls hold no money and no brain. *)
Definition winv (cells : list Cell) : Prop :=
  forall k, ty (nth k cells default_cell) = Wall ->
    money (nth k cells default_cell) = 0 /\ brain (nth k cells default_cell) = None.

(** The exact sum of a list of integers. *)
Definition zsum (l : list Z) : Z := fold_right Z.add 0 l.

(** The money a cell sends to its neighbours. *)
Definition outflow (mv : MooreDirection -> Move) : Z :=
  zsum (map (fun x => m_money (mv x)) all_dirs).

(** The money an order can still cost its cell: a bid of [-food] units at
    [rate]. *)
Definition liab (o : Order) : Z := Z.max 0 (- rate o * o_food o).

(** The orders of a market pass: the ones still to be placed, then the
    resting bids and asks. *)
Definition book (st : Market) (live : list Order) : list Order := live ++ bids st ++ asks st.

(** The invariant of a market pass on [N] cells holding [T] money in all:
    money is conserved and nonnegative, bids buy and asks sell, every cell
    has at most one order, and every order's cell can pay for it. *)
Definition minv (N : nat) (T : Z) (st : Market) (live : list Order) : Prop :=
  length (m_cells st) = N /\
  sum_money (m_cells st) + m_reserve st = T /\ T < 2 ^ 31 /\ 0 <= m_reserve st /\
  (forall k, 0 <= money (nth k (m_cells st) default_cell)) /\
  Forall (fun o => o_food o < 0) (bids st) /\
  Forall (fun o => 0 < o_food o) (asks st) /\
  NoDup (map o_index (book st live)) /\
  Forall (fun o => (o_index o < N)%nat /\
                   liab o <= money (nth (o_index o) (m_cells st) default_cell)) (book st live).

(** A partly filled order: same cell and rate, food moved towards 0. *)
Definition shrinks (o o' : Order) : Prop :=
  o_index o' = o_index o /\ rate o' = rate o /\
  (o_food o <= 0 -> o_food o <= o_food o' <= 0) /\ (0 <= o_food o -> 0 <= o_food o' <= o_food o).

(** The invariant of a simulation of [w * h] cells holding [T] money in
    all, between ticks. *)
Definition sinv (w h : nat) (T : Z) (s : Sim) : Prop :=
  width s = w /\ height s = h /\ length (grid s) = (w * h)%nat /\
  sum_money (grid s) + reserve s = T /\ 0 <= reserve s /\
  (forall k, 0 <= money (nth k (grid s) default_cell)) /\
  (forall k, trade (nth k (grid s) default_cell) = None) /\
  winv (grid s).

End SimInv.

Module TickInv.
Import Sim SimInv.

(** No resting bid has a rate at or above a resting ask's rate. *)
Definition uncrossed (st : Market) : Prop :=
  forall b a, In b (bids st) -> In a (asks st) -> rate b < rate a.

(** The money held by the walls of a grid. *)
Definition wall_money (cells : list Cell) : Z :=
  fold_right Z.add 0 (map (fun c => if CellType_eqb (ty c) Wall then money c else 0) cells).

(** The reserve plus what the reserve took in, less what it paid out. *)
Definition flow (st : Market) : Z := m_reserve st + m_sell st - m_buy st.

(** The food a cell sends to its neighbours. *)
Definition food_outflow (mv : MooreDirection -> Move) : Z :=
  zsum (map (fun x => m_food (mv x)) all_dirs).

End TickInv.

(** * Properties of the brain interpreter *)

Module BrainFacts.
Import Brain.

Lemma exec_loop_no_bad_conversion : forall sq inputs mem fuel st at_,
  exec_loop sq inputs mem fuel st at_ <> Panic BadConversion.
Proof.
  intros sq inputs mem fuel; induction fuel as [|fuel IH]; intros st at_; simpl.
  - discriminate.
  - unfold index; destruct (nth_error sq at_) as [c|]; simpl; [|discriminate].
    destruct c; repeat match goal with
      | |- context [match ?x with _ => _ end] => destruct x
      | |- context [if ?x then _ else _] => destruct x
      end; simpl; try discriminate; try apply IH.
Qed.

Lemma decide_gene_no_bad_conversion : forall inputs st e,
  decide_gene inputs st e <> Panic BadConversion.
Proof.
  intros inputs [b d] e; unfold decide_gene.
  pose proof (exec_loop_no_bad_conversion (sequence (code b)) inputs (memory b)
                MAX_EXECUTE [] e) as H.
  unfold execute; destruct (exec_loop _ _ _ _ _ _) as [a|p]; simpl.
  - destruct a; try destruct (Nat.eqb _ _); discriminate.
  - intro E; inversion E; subst; auto.
Qed.

Lemma decide_loop_no_bad_conversion : forall inputs es st,
  decide_loop inputs st es <> Panic BadConversion.
Proof.
  intros inputs es; induction es as [|e es IH]; intros st; simpl.
  - discriminate.
  - pose proof (decide_gene_no_bad_conversion inputs st e) as H.
    destruct (decide_gene inputs st e) as [st'|p]; simpl; auto.
Qed.

Lemma decide_gene_rotate_left : forall inputs b d e,
  execute (code b) inputs (memory b) e = Ok ARotateLeft ->
  decide_gene inputs (b, d) e = Ok (with_rotation b (Nat.modulo (rotation b + 1) 4), d).
Proof. intros inputs b d e H; unfold decide_gene; rewrite H; reflexivity. Qed.

Lemma decide_gene_rotate_right : forall inputs b d e,
  execute (code b) inputs (memory b) e = Ok ARotateRight ->
  decide_gene inputs (b, d) e = Ok (with_rotation b (Nat.modulo (rotation b + 3) 4), d).
Proof. intros inputs b d e H; unfold decide_gene; rewrite H; reflexivity. Qed.

Definition omap {A B} (f : A -> B) (m : Outcome A) : Outcome B :=
  match m with Ok a => Ok (f a) | Panic p => Panic p end.

Definition turned (k : nat) (st : Brain * Decision) : Brain * Decision :=
  (with_rotation (fst st) (Nat.modulo (rotation (fst st) + k) 4), snd st).

Lemma mod4_succ : forall r k j,
  Nat.modulo (Nat.modulo (r + k) 4 + j) 4 = Nat.modulo (Nat.modulo (r + j) 4 + k) 4.
Proof.
  intros r k j.
  rewrite !Nat.Div0.add_mod_idemp_l. f_equal. lia.
Qed.

Lemma decide_gene_turned : forall inputs k st e,
  decide_gene inputs (turned k st) e = omap (turned k) (decide_gene inputs st e).
Proof.
  intros inputs k [b d] e; unfold decide_gene, turned; cbn -[Nat.modulo execute].
  destruct (execute (code b) inputs (memory b) e) as [a|p]; cbn -[Nat.modulo execute];
    [|reflexivity].
  destruct a; cbn -[Nat.modulo execute]; try reflexivity.
  - destruct (Nat.eqb (length (memory b)) 0); reflexivity.
  - unfold with_rotation; cbn -[Nat.modulo execute]; rewrite (mod4_succ (rotation b) k 1); reflexivity.
  - unfold with_rotation; cbn -[Nat.modulo execute]; rewrite (mod4_succ (rotation b) k 3); reflexivity.
Qed.

Lemma decide_loop_turned : forall inputs k es st,
  decide_loop inputs (turned k st) es = omap (turned k) (decide_loop inputs st es).
Proof.
  intros inputs k es; induction es as [|e es IH]; intros st; cbn [decide_loop].
  - reflexivity.
  - rewrite decide_gene_turned.
    destruct (decide_gene inputs st e) as [st'|p]; simpl; [apply IH|reflexivity].
Qed.

(** ** C2 *)

(** C2 (code bug): the [Copy] guard [pos > stack.len()] lets
    [pos = stack.len()] through, and [stack.len() - 1 - pos] then
    underflows: a brain whose genome is [Literal(1.0), Copy(1)] panics in
    [Brain::decide] for every input vector, register file and generator. *)
Theorem decide_copy_genome_panics : forall c g memory r inputs,
  fst (decide (mkBrain c 0 g memory copy_genome) r inputs) = Panic SubtractOverflow.
Proof. intros; reflexivity. Qed.

(** ** C6 *)

(** C6 (counterexample): [Dna::execute] on an empty sequence does not
    return [Action::Nothing]: it indexes out of bounds. *)
Lemma empty_genome_execute_counterexample :
  execute (mkDna [] []) [] [] 0 <> Ok ANothing.
Proof. discriminate. Qed.

(** C6 (amended): [Dna::execute] on an empty sequence panics (index out of
    bounds) for every entry, input slice and memory slice; an empty genome
    with valid entries has no entry, so [Brain::decide] never runs it and
    returns [Decision::Nothing], leaving the brain and generator as they are. *)
Theorem empty_genome_never_executed :
  (forall es inputs memory at_,
     execute (mkDna [] es) inputs memory at_ = Panic IndexOutOfBounds) /\
  (forall b r inputs, sequence (code b) = [] -> entries_valid (code b) ->
     decide b r inputs = (Ok (b, DNothing), r)).
Proof.
  split.
  - intros es inputs memory [|at_]; reflexivity.
  - intros b r inputs Hs Hv; unfold entries_valid in Hv; rewrite Hs in Hv; simpl in Hv.
    destruct (entries (code b)) as [|e es] eqn:E.
    + unfold decide; rewrite E; reflexivity.
    + inversion Hv; lia.
Qed.

Lemma empty_genome_never_executed_witness :
  let b := mkBrain 0%float 0 0 [] (mkDna [] []) in
  sequence (code b) = [] /\ entries_valid (code b) /\
  decide b (mkRng (fun _ => 0) 0) [] = (Ok (b, DNothing), mkRng (fun _ => 0) 0).
Proof.
  intros b; split; [reflexivity|split; [constructor|]].
  apply (proj2 empty_genome_never_executed); [reflexivity|constructor].
Defined.

(** ** C8 *)

(** C8 (counterexample): a gene reading input 0 moves right on the baseline
    inputs but, once the neighbour inputs are rotated by one neighbour and
    the orientation by one, reads a different value, breaks, and decides
    [Nothing]. *)
Definition rot_brain : Brain :=
  mkBrain 0%float 0 0 [0%float; 0%float; 0%float; 0%float]
          (mkDna [Input 0; Literal 0.5%float; Less; Move Right] [0%nat]).

Definition rot_inputs : list float :=
  map (fun i => if Nat.eqb i 5 then 1%float else 0%float) (seq 0 22).

Lemma rotation_invariance_counterexample : ~ rotation_invariance_claim.
Proof.
  intro H.
  specialize (H rot_brain (mkRng (fun _ => 0) 0) rot_inputs 1%nat ltac:(lia)).
  vm_compute in H; discriminate.
Qed.

(** C8 (amended): orientation does not affect gene execution. With the same
    inputs and generator state, a brain whose orientation is increased by
    [k] (mod 4) ends [decide] with the same registers, orientation
    increased by [k] (mod 4), the same generator state and the same
    unrotated decision, each run turning that decision counter-clockwise by
    its own final orientation; a panic is the same panic. *)
Theorem decide_orientation_equivariant : forall b r inputs k,
  snd (decide (with_rotation b (Nat.modulo (rotation b + k) 4)) r inputs)
    = snd (decide b r inputs) /\
  match fst (decide b r inputs),
        fst (decide (with_rotation b (Nat.modulo (rotation b + k) 4)) r inputs) with
  | Ok (b1, d1), Ok (b2, d2) =>
      b2 = with_rotation b1 (Nat.modulo (rotation b1 + k) 4) /\
      exists raw, d1 = rotate b1 raw /\ d2 = rotate b2 raw
  | Panic p1, Panic p2 => p1 = p2
  | _, _ => False
  end.
Proof.
  intros b r inputs k; unfold decide; simpl.
  destruct (shuffle (entries (code b)) r) as [es r'].
  split; [reflexivity|].
  pose proof (decide_loop_turned inputs k es (b, DNothing)) as H.
  unfold turned in H; simpl in H; rewrite H.
  destruct (decide_loop inputs (b, DNothing) es) as [[b1 d1]|p]; simpl.
  - split; [reflexivity|]. exists d1; split; reflexivity.
  - reflexivity.
Qed.

(** ** C10 *)

(** C10: [Brain::decide] never reaches the panicking arm of
    [From<Action> for Decision]: write and rotate actions are consumed in
    the loop, [RotateLeft] as orientation [+1 mod 4] and [RotateRight] as
    [+3 mod 4], and only move, divide, trade and nothing actions are
    converted. *)
Theorem decide_never_leaks_rotations : forall b r inputs,
  fst (decide b r inputs) <> Panic BadConversion /\
  (forall d e, execute (code b) inputs (memory b) e = Ok ARotateLeft ->
     decide_gene inputs (b, d) e = Ok (with_rotation b (Nat.modulo (rotation b + 1) 4), d)) /\
  (forall d e, execute (code b) inputs (memory b) e = Ok ARotateRight ->
     decide_gene inputs (b, d) e = Ok (with_rotation b (Nat.modulo (rotation b + 3) 4), d)).
Proof.
  intros b r inputs; split; [|split].
  - unfold decide; destruct (shuffle (entries (code b)) r) as [es r'].
    pose proof (decide_loop_no_bad_conversion inputs es (b, DNothing)) as H.
    simpl; destruct (decide_loop inputs (b, DNothing) es) as [[b' d]|p]; simpl.
    + discriminate.
    + exact H.
  - apply decide_gene_rotate_left.
  - apply decide_gene_rotate_right.
Qed.

Lemma decide_never_leaks_rotations_witness :
  let b := mkBrain 0%float 2 0 [0%float] (mkDna [RotateLeft; RotateRight] [0; 1]%nat) in
  execute (code b) [] (memory b) 0 = Ok ARotateLeft /\
  decide_gene [] (b, DNothing) 0 = Ok (with_rotation b 3, DNothing) /\
  execute (code b) [] (memory b) 1 = Ok ARotateRight /\
  decide_gene [] (b, DNothing) 1 = Ok (with_rotation b 1, DNothing).
Proof.
  intros b; split; [reflexivity|split; [|split; [reflexivity|]]].
  - apply (proj1 (proj2 (decide_never_leaks_rotations b (mkRng (fun _ => 0) 0) [])));
      reflexivity.
  - apply (proj2 (proj2 (decide_never_leaks_rotations b (mkRng (fun _ => 0) 0) [])));
      reflexivity.
Defined.

(** ** C4 *)

Lemma gen_range_nat_lt : forall hi r, (0 < hi)%nat -> (fst (gen_range_nat 0 hi r) < hi)%nat.
Proof.
  intros hi r H; unfold gen_range_nat, gen_range, next_u64; simpl.
  pose proof (Z.mod_pos_bound (draws r (cursor r) mod 2 ^ 64) (Z.of_nat hi)) as B.
  rewrite Z.sub_0_r; lia.
Qed.

Lemma length_insert_at : forall {A} (l : list A) i x,
  length (insert_at l i x) = S (length l).
Proof.
  intros A l i x; unfold insert_at.
  rewrite length_app; simpl; rewrite <- (firstn_skipn i l) at 3.
  rewrite length_app; lia.
Qed.

Lemma insert_at_perm : forall {A} (l : list A) i x, Permutation (insert_at l i x) (x :: l).
Proof.
  intros A l i x; unfold insert_at.
  rewrite <- Permutation_middle, firstn_skipn; reflexivity.
Qed.

Lemma length_remove_at : forall {A} (l : list A) i, (i < length l)%nat ->
  length (remove_at l i) = pred (length l).
Proof.
  intros A l i H; unfold remove_at.
  rewrite length_app, length_firstn, length_skipn; lia.
Qed.

Lemma in_firstn : forall {A} n (l : list A) x, In x (firstn n l) -> In x l.
Proof.
  intros A n l x H; rewrite <- (firstn_skipn n l); apply in_or_app; left; exact H.
Qed.

Lemma in_skipn : forall {A} n (l : list A) x, In x (skipn n l) -> In x l.
Proof.
  intros A n l x H; rewrite <- (firstn_skipn n l); apply in_or_app; right; exact H.
Qed.

Lemma remove_at_incl : forall {A} (l : list A) i x, In x (remove_at l i) -> In x l.
Proof.
  intros A l i x H; unfold remove_at in H.
  apply in_app_or in H; destruct H as [H|H].
  - eapply in_firstn; eauto.
  - eapply in_skipn; eauto.
Qed.

Lemma insert_sorted_perm : forall x l, Permutation (insert_sorted x l) (x :: l).
Proof.
  intros x l; induction l as [|y t IH]; simpl; [reflexivity|].
  destruct (Nat.leb x y); [reflexivity|].
  rewrite IH; apply perm_swap.
Qed.

Lemma sort_perm : forall l, Permutation (sort l) l.
Proof.
  induction l as [|x t IH]; simpl; [reflexivity|].
  rewrite insert_sorted_perm, IH; reflexivity.
Qed.

Lemma length_filter_count : forall p l,
  (length (filter (fun e => negb (Nat.eqb e p)) l) + count_occ Nat.eq_dec l p = length l)%nat.
Proof.
  intros p l; induction l as [|e t IH]; simpl; [reflexivity|].
  destruct (Nat.eq_dec e p) as [E|E].
  - subst; rewrite Nat.eqb_refl; simpl; lia.
  - apply Nat.eqb_neq in E; rewrite E; simpl; lia.
Qed.

Lemma mutate_codons_spec : forall dna r, entries_valid dna ->
  let dna1 := fst (mutate_codons dna r) in
  (length (sequence dna1) <= length (sequence dna) + 1)%nat /\
  (length (sequence dna) <= length (sequence dna1) + 1)%nat /\
  (length (entries dna1) <= length (entries dna))%nat /\
  (length (entries dna) <= length (entries dna1) + dropped_entries dna r)%nat /\
  entries_valid dna1.
Proof.
  intros [sq es] r Hv; unfold entries_valid in *; simpl in *.
  unfold mutate_codons, dropped_entries, removed_codon; cbn [sequence entries].
  destruct (half_chance r) as [add r0].
  destruct add.
  - pose proof (gen_range_nat_lt (length sq + 1) r0 ltac:(lia)) as Hp.
    destruct (gen_range_nat 0 (length sq + 1) r0) as [position r1]; simpl in Hp.
    destruct (gen_codon r1) as [c r2]; simpl.
    rewrite length_insert_at, length_map.
    repeat split; try lia.
    + rewrite Forall_map; eapply Forall_impl; [|exact Hv]; intros e He; cbv beta in He |- *.
      destruct (Nat.leb position e); lia.
  - destruct (negb (Nat.eqb (length sq) 0)) eqn:Hne.
    + apply negb_true_iff, Nat.eqb_neq in Hne.
      pose proof (gen_range_nat_lt (length sq) r0 ltac:(lia)) as Hp.
      destruct (gen_range_nat 0 (length sq) r0) as [position r1]; simpl in Hp; simpl.
      rewrite length_remove_at by lia. rewrite length_map.
      pose proof (length_filter_count position es) as Hc.
      repeat split; try lia.
      * rewrite Forall_map, Forall_forall; intros e He.
        apply filter_In in He; destruct He as [He Hne'].
        apply negb_true_iff, Nat.eqb_neq in Hne'.
        rewrite Forall_forall in Hv; specialize (Hv e He).
        destruct (Nat.ltb position e) eqn:L; [apply Nat.ltb_lt in L|apply Nat.ltb_ge in L]; lia.
    + simpl; repeat split; try lia; exact Hv.
Qed.

Lemma mutate_entries_spec : forall dna r, entries_valid dna ->
  let dna2 := fst (mutate_entries dna r) in
  sequence dna2 = sequence dna /\
  (length (entries dna2) <= length (entries dna) + 1)%nat /\
  (length (entries dna) <= length (entries dna2) + 1)%nat /\
  entries_valid dna2.
Proof.
  intros [sq es] r Hv; unfold entries_valid in *; simpl in *.
  unfold mutate_entries; cbn [sequence entries].
  destruct (negb (Nat.eqb (length sq) 0)) eqn:Hne.
  - apply negb_true_iff, Nat.eqb_neq in Hne.
    destruct (half_chance r) as [add r0].
    destruct add.
    + destruct (gen_range_nat 0 (length es + 1) r0) as [position r1].
      destruct (existsb (Nat.eqb position) es).
      * simpl; repeat split; try lia; exact Hv.
      * pose proof (gen_range_nat_lt (length sq) r1 ltac:(lia)) as Hp.
        destruct (gen_range_nat 0 (length sq) r1) as [v r2]; simpl in *.
        rewrite (Permutation_length (sort_perm _)), length_insert_at.
        repeat split; try lia.
        eapply Permutation_Forall; [symmetry; apply sort_perm|].
        eapply Permutation_Forall; [symmetry; apply insert_at_perm|].
        constructor; assumption.
    + destruct (negb (Nat.eqb (length es) 0)) eqn:He.
      * apply negb_true_iff, Nat.eqb_neq in He.
        pose proof (gen_range_nat_lt (length es) r0 ltac:(lia)) as Hp.
        destruct (gen_range_nat 0 (length es) r0) as [position r1]; simpl in *.
        rewrite length_remove_at by lia.
        repeat split; try lia.
        rewrite Forall_forall in *; intros x Hx; apply Hv; eapply remove_at_incl; eauto.
      * simpl; repeat split; try lia; exact Hv.
  - destruct (negb (Nat.eqb (length es) 0)) eqn:He.
    + apply negb_true_iff, Nat.eqb_neq in He.
      pose proof (gen_range_nat_lt (length es) r ltac:(lia)) as Hp.
      destruct (gen_range_nat 0 (length es) r) as [position r1]; simpl in *.
      rewrite length_remove_at by lia.
      repeat split; try lia.
      rewrite Forall_forall in *; intros x Hx; apply Hv; eapply remove_at_incl; eauto.
    + simpl; repeat split; try lia; exact Hv.
Qed.

(** C4 (counterexample): removing codon 0 of [[Add, Add]] drops the entry
    [0], and the independent entry edit then removes the remaining entry:
    the entry count falls from 2 to 0 in one call. *)
Definition two_entry_genome : Dna := mkDna [Add; Add] [0%nat; 1%nat].

Definition remove_remove_rng : Rng :=
  mkRng (fun k => match k with 0%nat | 2%nat => 2 ^ 63 | _ => 0 end) 0.

Lemma mutation_step_counterexample : ~ mutation_step_claim.
Proof.
  intro H.
  destruct (H two_entry_genome remove_remove_rng) as (_ & _ & _ & Hle & _).
  - unfold entries_valid; simpl; repeat constructor; simpl; lia.
  - vm_compute in Hle; lia.
Qed.

(** C4 (amended): one [Dna::mutate] call changes the sequence length by at
    most 1; the entry count grows by at most 1 and shrinks by at most 1
    plus the number of entries equal to the offset of the removed codon
    ([dropped_entries], 0 when no codon is removed), so by at most 2 when
    entries are duplicate-free; every entry of the result is a valid
    offset into the resulting sequence. *)
Theorem mutate_step_bound : forall dna r, entries_valid dna ->
  let dna' := fst (mutate dna r) in
  (length (sequence dna') <= length (sequence dna) + 1)%nat /\
  (length (sequence dna) <= length (sequence dna') + 1)%nat /\
  (length (entries dna') <= length (entries dna) + 1)%nat /\
  (length (entries dna) <= length (entries dna') + 1 + dropped_entries dna r)%nat /\
  (NoDup (entries dna) -> length (entries dna) <= length (entries dna') + 2)%nat /\
  entries_valid dna'.
Proof.
  intros dna r Hv dna'; subst dna'; unfold mutate.
  pose proof (mutate_codons_spec dna r Hv) as (S1 & S2 & E1 & E2 & V1).
  assert (C : NoDup (entries dna) -> (dropped_entries dna r <= 1)%nat).
  { intros N; unfold dropped_entries; destruct (removed_codon dna r) as [p|]; [|lia].
    apply (proj1 (NoDup_count_occ Nat.eq_dec _)) with (x := p) in N; exact N. }
  destruct (mutate_codons dna r) as [dna1 r1]; simpl in *.
  pose proof (mutate_entries_spec dna1 r1 V1) as (Q & F1 & F2 & V2).
  rewrite Q.
  repeat split; try lia.
  - intros N; specialize (C N); lia.
  - exact V2.
Qed.

Lemma mutate_step_bound_witness :
  entries_valid two_entry_genome /\
  dropped_entries two_entry_genome remove_remove_rng = 1%nat /\
  length (entries (fst (mutate two_entry_genome remove_remove_rng))) = 0%nat /\
  (length (entries two_entry_genome)
     <= length (entries (fst (mutate two_entry_genome remove_remove_rng))) + 1
        + dropped_entries two_entry_genome remove_remove_rng)%nat.
Proof.
  assert (V : entries_valid two_entry_genome)
    by (unfold entries_valid; simpl; repeat constructor; simpl; lia).
  split; [exact V|split; [vm_compute; reflexivity|split; [vm_compute; reflexivity|]]].
  exact (proj1 (proj2 (proj2 (proj2 (mutate_step_bound two_entry_genome remove_remove_rng V))))).
Defined.

(** ** C7 *)

Lemma map_nth_seq_id : forall {A} (d : A) l,
  map (fun k => nth k l d) (seq 0 (length l)) = l.
Proof.
  intros A d l; apply nth_ext with (d := d) (d' := d).
  - rewrite length_map, length_seq; reflexivity.
  - intros n Hn; rewrite length_map, length_seq in Hn.
    rewrite (nth_indep _ d (nth 0 l d)) by (rewrite length_map, length_seq; exact Hn).
    rewrite (map_nth (fun k => nth k l d) (seq 0 (length l)) 0%nat n).
    rewrite seq_nth by exact Hn; reflexivity.
Qed.

Lemma swap_perm : forall {A} (d : A) l i j, (i < length l)%nat -> (j < length l)%nat ->
  Permutation (swap d l i j) l.
Proof.
  intros A d l i j Hi Hj; unfold swap.
  set (t := fun k => if Nat.eqb k i then j else if Nat.eqb k j then i else k).
  transitivity (map (fun k => nth k l d) (map t (seq 0 (length l)))).
  { rewrite map_map; reflexivity. }
  rewrite <- (map_nth_seq_id d l) at 2.
  apply Permutation_map, nat_bijection_Permutation.
  - intros x Hx; unfold t.
    destruct (Nat.eqb x i) eqn:Xi; [lia|destruct (Nat.eqb x j) eqn:Xj; [lia|]].
    rewrite Nat.eqb_neq in *; lia.
  - intros x y; unfold t.
    destruct (Nat.eqb x i) eqn:Xi, (Nat.eqb x j) eqn:Xj,
             (Nat.eqb y i) eqn:Yi, (Nat.eqb y j) eqn:Yj;
      rewrite ?Nat.eqb_eq, ?Nat.eqb_neq in *; lia.
Qed.

Lemma length_swap : forall {A} (d : A) l i j, length (swap d l i j) = length l.
Proof. intros; unfold swap; rewrite length_map, length_seq; reflexivity. Qed.

Lemma shuffle_down_perm : forall {A} (d : A) i l r, (i < length l)%nat ->
  Permutation (fst (shuffle_down d i l r)) l.
Proof.
  intros A d i; induction i as [|i IH]; intros l r Hi; cbn [shuffle_down]; [reflexivity|].
  pose proof (gen_range_nat_lt (S (S i)) r ltac:(lia)) as Hj.
  destruct (gen_range_nat 0 (S (S i)) r) as [j r1]; cbn [fst] in Hj.
  rewrite IH by (rewrite length_swap; lia).
  apply swap_perm; lia.
Qed.

Lemma shuffle_perm : forall {A} (l : list A) r, Permutation (fst (shuffle l r)) l.
Proof.
  intros A [|x t] r; simpl; [reflexivity|].
  apply shuffle_down_perm; simpl; lia.
Qed.

Lemma windows_cons : forall a b l, windows (a :: b :: l) = (a, b) :: windows (b :: l).
Proof. reflexivity. Qed.

Lemma mapM_slice_sorted : forall {A} (items : list A) l,
  StronglySorted le l -> Forall (fun x => x <= length items)%nat l ->
  exists gs, mapM (slice items) (windows l) = Ok gs.
Proof.
  intros A items l; induction l as [|a [|b t] IH]; intros Hs Hf.
  - exists []; reflexivity.
  - exists []; reflexivity.
  - inversion Hs as [|? ? Hs' Ha]; subst. inversion Hf as [|? ? Hfa Hf']; subst.
    destruct (IH Hs' Hf') as [gs Hgs].
    inversion Ha as [|? ? Hab _]; subst. inversion Hf' as [|? ? Hfb _]; subst.
    rewrite windows_cons; cbn [mapM]; unfold slice at 1.
    replace (Nat.leb a b && Nat.leb b (length items))%bool with true
      by (symmetry; apply andb_true_iff; split; apply Nat.leb_le; lia).
    cbn [obind]; rewrite Hgs; cbn [obind]; eexists; reflexivity.
Qed.

Lemma sorted_app_last : forall es n,
  StronglySorted le es -> Forall (fun e => e < n)%nat es ->
  StronglySorted le (es ++ [n]).
Proof.
  induction es as [|e es IH]; intros n Hs Hf; simpl.
  - repeat constructor.
  - inversion Hs; inversion Hf; subst.
    constructor; [apply IH; assumption|].
    apply Forall_app; split; [assumption|].
    constructor; [lia|constructor].
Qed.

Lemma genes_of_ok : forall dna, entries_sorted dna -> entries_valid dna ->
  exists gs, genes_of dna = Ok gs.
Proof.
  intros [sq es] Hs Hv; unfold entries_sorted, entries_valid, genes_of, split_points in *.
  simpl in *. apply mapM_slice_sorted.
  - unfold split_bounds.
    assert (S1 : StronglySorted le (es ++ [length sq])) by (apply sorted_app_last; assumption).
    destruct es as [|e es'].
    + simpl; exact S1.
    + destruct (Nat.eqb e 0); simpl; [exact S1|].
      constructor; [exact S1|].
      apply Forall_forall; intros; lia.
  - unfold split_bounds.
    assert (F1 : Forall (fun x => x <= length sq)%nat (es ++ [length sq])).
    { apply Forall_app; split; [|constructor; [lia|constructor]].
      eapply Forall_impl; [|exact Hv]; intros a Ha; cbv beta in Ha |- *; lia. }
    destruct es as [|e es'].
    + exact F1.
    + destruct (Nat.eqb e 0); simpl; [exact F1|].
      constructor; [lia|exact F1].
Qed.

Lemma padding_insert_empty : forall ps i gs,
  padding_of gs ps -> padding_of gs (insert_at ps i []).
Proof.
  induction ps as [|p ps IH]; intros i gs H.
  - destruct i; simpl; apply padding_empty; exact H.
  - destruct i as [|i].
    + simpl; apply padding_empty; exact H.
    + change (insert_at (p :: ps) (S i) []) with (p :: insert_at ps i []).
      inversion H; subst.
      * apply padding_keep, IH; assumption.
      * apply padding_empty, IH; assumption.
Qed.

Lemma padding_refl : forall gs, padding_of gs gs.
Proof. induction gs; constructor; assumption. Qed.

Lemma padding_trans : forall bs cs, padding_of bs cs ->
  forall as_, padding_of as_ bs -> padding_of as_ cs.
Proof.
  intros bs cs H; induction H as [|g gs ps H IH|gs ps H IH]; intros as_ Ha.
  - exact Ha.
  - inversion Ha; subst.
    + apply padding_keep, IH; assumption.
    + apply padding_empty, IH; assumption.
  - apply padding_empty, IH, Ha.
Qed.

Lemma pad_spec : forall k gs r,
  padding_of gs (fst (pad k gs r)) /\ length (fst (pad k gs r)) = (length gs + k)%nat.
Proof.
  induction k as [|k IH]; intros gs r; cbn [pad].
  - split; [apply padding_refl|cbn [fst]; lia].
  - destruct (gen_range_nat 0 (length gs + 1) r) as [position r1].
    destruct (IH (insert_at gs position []) r1) as [P L].
    split.
    + eapply padding_trans; [exact P|].
      apply padding_insert_empty, padding_refl.
    + rewrite L, length_insert_at; lia.
Qed.

Lemma pad_all_spec : forall highest all r,
  Forall (fun g => (length g <= highest)%nat) all ->
  Forall2 (fun g p => padding_of g p /\ length p = highest) all (fst (pad_all highest all r)).
Proof.
  intros highest all; induction all as [|g all IH]; intros r Hf; cbn [pad_all].
  - constructor.
  - inversion Hf as [|? ? Hg Hf']; subst.
    pose proof (pad_spec (highest - length g) g r) as [P L].
    destruct (pad (highest - length g) g r) as [g' r1]; cbn [fst] in P, L.
    pose proof (IH r1 Hf') as H2.
    destruct (pad_all highest all r1) as [gs r2]; cbn [fst] in H2 |- *.
    constructor; [split; [exact P|lia]|exact H2].
Qed.

Lemma filter_nonempty_cons : forall g gs,
  filter nonempty_gene (g :: gs) =
  if Nat.eqb (length g) 0 then filter nonempty_gene gs else g :: filter nonempty_gene gs.
Proof. intros g gs; simpl; unfold nonempty_gene; destruct (Nat.eqb (length g) 0); reflexivity. Qed.

Lemma assemble_spec : forall all n i dna r, (0 < length all)%nat ->
  Forall (fun g => (i + n <= length g)%nat) all ->
  exists slots, length slots = n /\
    (forall k, (k < n)%nat -> exists w, (w < length all)%nat /\
       nth k slots [] = nth (i + k) (nth w all []) []) /\
    fst (assemble all i n dna r) =
      Ok (mkDna (sequence dna ++ concat (filter nonempty_gene slots))
                (entries dna ++ starts_from (length (sequence dna)) (filter nonempty_gene slots))).
Proof.
  intros all n; induction n as [|n IH]; intros i dna r Hl Hf.
  - exists []; split; [reflexivity|split; [intros; lia|]].
    cbn; rewrite !app_nil_r; destruct dna; reflexivity.
  - cbn [assemble].
    pose proof (gen_range_nat_lt (length all) r Hl) as Hw.
    destruct (gen_range_nat 0 (length all) r) as [w r1]; cbn [fst] in Hw.
    assert (Hg : (i < length (nth w all []))%nat).
    { rewrite Forall_forall in Hf; specialize (Hf _ (nth_In all [] Hw)); lia. }
    unfold index at 1; rewrite (nth_error_nth' all [] Hw); cbn [obind].
    unfold index; rewrite (nth_error_nth' _ [] Hg).
    set (gene := nth i (nth w all []) []).
    assert (Hf' : Forall (fun g => (S i + n <= length g)%nat) all).
    { eapply Forall_impl; [|exact Hf]; intros a Ha; cbv beta in *; lia. }
    assert (Hslot : forall slots, (forall k, (k < n)%nat -> exists w', (w' < length all)%nat /\
                 nth k slots [] = nth (S i + k) (nth w' all []) []) ->
              forall k, (k < S n)%nat -> exists w', (w' < length all)%nat /\
                 nth k (gene :: slots) [] = nth (i + k) (nth w' all []) []).
    { intros slots Hs [|k] Hk.
      - exists w; split; [exact Hw|]; rewrite Nat.add_0_r; reflexivity.
      - destruct (Hs k ltac:(lia)) as [w' [Hw' E]]; exists w'; split; [exact Hw'|].
        cbn [nth]; rewrite E, Nat.add_succ_r; reflexivity. }
    destruct (Nat.eqb (length gene) 0) eqn:E.
    + destruct (IH (S i) dna r1 Hl Hf') as [slots [L [Hs R]]].
      exists (gene :: slots); split; [cbn; lia|split; [apply Hslot, Hs|]].
      rewrite R, filter_nonempty_cons, E; reflexivity.
    + destruct (IH (S i) (mkDna (sequence dna ++ gene) (entries dna ++ [length (sequence dna)]))
                   r1 Hl Hf') as [slots [L [Hs R]]].
      exists (gene :: slots); split; [cbn; lia|split; [apply Hslot, Hs|]].
      rewrite R, filter_nonempty_cons, E; cbn [sequence entries concat starts_from].
      rewrite <- !app_assoc, length_app; reflexivity.
Qed.

Lemma starts_from_app_head : forall o gs, exists t,
  starts_from o gs ++ [(o + length (concat gs))%nat] = o :: t.
Proof.
  intros o [|g gs].
  - exists []; cbn; rewrite Nat.add_0_r; reflexivity.
  - eexists; reflexivity.
Qed.

Lemma slice_rebuild : forall gs pre,
  mapM (slice (pre ++ concat gs))
       (windows (starts_from (length pre) gs ++ [(length pre + length (concat gs))%nat])) = Ok gs.
Proof.
  induction gs as [|g gs IH]; intros pre.
  - reflexivity.
  - cbn [starts_from concat app].
    destruct (starts_from_app_head (length pre + length g) gs) as [t Ht].
    rewrite length_app, Nat.add_assoc, Ht, windows_cons.
    rewrite <- Ht.
    cbn [mapM]; unfold slice at 1.
    replace (Nat.leb (length pre) (length pre + length g) &&
             Nat.leb (length pre + length g) (length (pre ++ g ++ concat gs)))%bool with true
      by (symmetry; rewrite !length_app; apply andb_true_iff; split; apply Nat.leb_le; lia).
    cbn [obind].
    specialize (IH (pre ++ g)).
    rewrite length_app, <- app_assoc in IH; rewrite IH; cbn [obind].
    rewrite skipn_app, skipn_all, Nat.sub_diag, skipn_O; cbn [app].
    replace (length pre + length g - length pre)%nat with (length g) by lia.
    rewrite firstn_app, firstn_all, Nat.sub_diag, firstn_O, app_nil_r; reflexivity.
Qed.

Lemma genes_of_rebuild : forall gs,
  genes_of (mkDna (concat gs) (starts_from 0 gs)) = Ok gs.
Proof.
  intros gs; unfold genes_of, split_points; cbn [sequence entries].
  replace (split_bounds (starts_from 0 gs) (length (concat gs)))
    with (starts_from (length (@nil Codon)) gs ++ [(length (@nil Codon) + length (concat gs))%nat])
    by (destruct gs; reflexivity).
  exact (slice_rebuild gs []).
Qed.

Lemma mapM_ok : forall {A B} (f : A -> Outcome B) l,
  (forall x, In x l -> exists y, f x = Ok y) ->
  exists ys, mapM f l = Ok ys /\ Forall2 (fun x y => f x = Ok y) l ys.
Proof.
  intros A B f l; induction l as [|x l IH]; intros H.
  - exists []; split; constructor.
  - destruct (H x (or_introl eq_refl)) as [y Hy].
    destruct IH as [ys [E F]]; [intros; apply H; right; assumption|].
    exists (y :: ys); split; [cbn; rewrite Hy, E; reflexivity|constructor; assumption].
Qed.

Lemma Forall2_nth' : forall {A B} (R : A -> B -> Prop) l1 l2 n d1 d2,
  Forall2 R l1 l2 -> (n < length l1)%nat -> R (nth n l1 d1) (nth n l2 d2).
Proof.
  intros A B R l1 l2 n d1 d2 H; revert n; induction H as [|x y l1 l2 Hxy H IH]; intros n Hn.
  - cbn in Hn; lia.
  - destruct n; cbn; [exact Hxy|apply IH; cbn in Hn; lia].
Qed.

Lemma Forall2_map_eq : forall {A B C} (f : A -> C) (g : B -> C) l1 l2,
  Forall2 (fun x y => f x = g y) l1 l2 -> map f l1 = map g l2.
Proof. intros A B C f g l1 l2 H; induction H; cbn; congruence. Qed.

(** C7: for a non-empty list of parents whose entries are sorted offsets
    into their sequences, [crossover] returns a child assembled from exactly
    [max(g1..gn)] gene slots (gi the gene count of parent i); slot [i] is the
    gene at index [i] of one parent's gene list after empty genes are
    inserted into it; the child's genes are exactly its non-empty slots,
    uncut and in order, and the child has an entry offset exactly at the
    start of each of them. *)
Theorem crossover_gene_conservation : forall r dnas, dnas <> [] ->
  Forall (fun d => entries_sorted d /\ entries_valid d) dnas ->
  exists child slots, fst (crossover r dnas) = Ok child /\
    length slots = list_max (map gene_count dnas) /\
    sequence child = concat (filter nonempty_gene slots) /\
    entries child = starts_from 0 (filter nonempty_gene slots) /\
    genes_of child = Ok (filter nonempty_gene slots) /\
    forall i, (i < length slots)%nat -> exists d genes padded,
      In d dnas /\ genes_of d = Ok genes /\ padding_of genes padded /\
      length padded = length slots /\ nth i slots [] = nth i padded [].
Proof.
  intros r dnas Hne Hf; unfold crossover.
  pose proof (shuffle_perm dnas r) as HP.
  destruct (shuffle dnas r) as [dnas1 r1]; cbn [fst] in HP.
  destruct (mapM_ok genes_of dnas1) as [genes [Hm Hg]].
  { intros d Hd; apply genes_of_ok;
      rewrite Forall_forall in Hf; apply Hf, (Permutation_in _ HP Hd). }
  rewrite Hm.
  assert (Hlen : length genes = length dnas1) by (symmetry; eapply Forall2_length; exact Hg).
  assert (Hcount : map gene_count dnas1 = map (@length _) genes).
  { apply Forall2_map_eq; eapply Forall2_impl; [|exact Hg].
    intros d g E; unfold gene_count; rewrite E; reflexivity. }
  assert (Hmax : list_max (map (@length _) genes) = list_max (map gene_count dnas)).
  { rewrite <- Hcount; apply Permutation_list_max, Permutation_map, HP. }
  assert (Hpos : (0 < length genes)%nat).
  { rewrite Hlen, (Permutation_length HP); destruct dnas; [congruence|cbn; lia]. }
  destruct genes as [|g0 gs0] eqn:Eg; [cbn in Hpos; lia|].
  rewrite <- Eg in *.
  set (highest := list_max (map (@length _) genes)).
  assert (Hle : Forall (fun g => (length g <= highest)%nat) genes).
  { apply Forall_map with (f := @length _) (P := fun k => (k <= highest)%nat).
    apply list_max_le; reflexivity. }
  pose proof (pad_all_spec highest genes r1 Hle) as Hpad.
  destruct (pad_all highest genes r1) as [padded r2]; cbn [fst] in Hpad.
  assert (Hplen : length padded = length genes) by (symmetry; eapply Forall2_length; exact Hpad).
  destruct (assemble_spec padded highest 0 (mkDna [] []) r2) as [slots [Hsl [Hs Ha]]].
  { lia. }
  { apply Forall_forall; intros p Hp.
    apply In_nth with (d := []) in Hp; destruct Hp as [w [Hw <-]].
    destruct (Forall2_nth' _ _ _ w [] [] Hpad ltac:(lia)) as [_ L]; lia. }
  cbn [sequence entries app length] in Ha.
  exists (mkDna (concat (filter nonempty_gene slots)) (starts_from 0 (filter nonempty_gene slots))),
    slots.
  split; [exact Ha|].
  split; [rewrite Hsl; exact Hmax|].
  split; [reflexivity|split; [reflexivity|split; [apply genes_of_rebuild|]]].
  intros i Hi; rewrite Hsl in Hi.
  destruct (Hs i Hi) as [w [Hw E]].
  exists (nth w dnas1 (mkDna [] [])), (nth w genes []), (nth w padded []).
  destruct (Forall2_nth' _ _ _ w [] [] Hpad ltac:(lia)) as [P L].
  split; [apply (Permutation_in _ HP), nth_In; lia|].
  split; [apply (Forall2_nth' _ _ _ w (mkDna [] []) [] Hg); lia|].
  split; [exact P|].
  split; [rewrite L, Hsl; reflexivity|exact E].
Qed.

(** A witness: two parents, one with genes [[Add]; [Sub; Mul]] and one with
    the single gene [[Div]]. *)
Lemma crossover_gene_conservation_witness :
  exists (child : Dna) (slots : list (list Codon)),
    fst (crossover (mkRng (fun _ => 0) 0)
           [mkDna [Add; Sub; Mul] [0; 1]; mkDna [Div] [0]]%nat) = Ok child /\
    length slots = 2%nat.
Proof.
  destruct (crossover_gene_conservation (mkRng (fun _ => 0) 0)
              [mkDna [Add; Sub; Mul] [0; 1]; mkDna [Div] [0]]%nat)
    as [child [slots [H1 [H2 _]]]].
  - discriminate.
  - repeat constructor; cbn; lia.
  - exists child, slots; split; [exact H1|rewrite H2; reflexivity].
Defined.

End BrainFacts.

(** * Properties of the simulation *)

Module SimFacts.
Import Brain Sim BrainFacts SimInv.

(** ** Machine integers and lists *)

Lemma chk_i32_ok : forall z, - 2 ^ 31 <= z < 2 ^ 31 -> chk_i32 z = Ok z.
Proof.
  intros z H; unfold chk_i32, in_i32.
  replace ((- 2 ^ 31 <=? z) && (z <? 2 ^ 31))%bool with true by
    (symmetry; apply andb_true_iff; split; [apply Z.leb_le|apply Z.ltb_lt]; lia).
  reflexivity.
Qed.

Lemma chk_u32_ok : forall z, 0 <= z < 2 ^ 32 -> chk_u32 z = Ok z.
Proof.
  intros z H; unfold chk_u32, in_u32.
  replace ((0 <=? z) && (z <? 2 ^ 32))%bool with true by
    (symmetry; apply andb_true_iff; split; [apply Z.leb_le|apply Z.ltb_lt]; lia).
  reflexivity.
Qed.

Lemma chk_i32_inv : forall z a, chk_i32 z = Ok a -> a = z /\ - 2 ^ 31 <= z < 2 ^ 31.
Proof.
  intros z a; unfold chk_i32, in_i32.
  destruct (- 2 ^ 31 <=? z) eqn:E1, (z <? 2 ^ 31) eqn:E2; cbn; intro H; inversion H.
  apply Z.leb_le in E1; apply Z.ltb_lt in E2; split; [reflexivity|lia].
Qed.

Lemma chk_u32_inv : forall z a, chk_u32 z = Ok a -> a = z /\ 0 <= z < 2 ^ 32.
Proof.
  intros z a; unfold chk_u32, in_u32.
  destruct (0 <=? z) eqn:E1, (z <? 2 ^ 32) eqn:E2; cbn; intro H; inversion H.
  apply Z.leb_le in E1; apply Z.ltb_lt in E2; split; [reflexivity|lia].
Qed.

Lemma as_i32_small : forall z, 0 <= z < 2 ^ 31 -> as_i32 z = z.
Proof.
  intros z H; unfold as_i32.
  rewrite Z.mod_small by lia.
  replace (z <? 2 ^ 31) with true by (symmetry; apply Z.ltb_lt; lia); reflexivity.
Qed.

Lemma as_u32_small : forall z, 0 <= z < 2 ^ 32 -> as_u32 z = z.
Proof. intros z H; unfold as_u32; apply Z.mod_small; lia. Qed.

Lemma index_nth : forall {A} (l : list A) i d, (i < length l)%nat -> index l i = Ok (nth i l d).
Proof. intros A l i d H; unfold index; rewrite (nth_error_nth' l d H); reflexivity. Qed.

Lemma length_list_set : forall {A} (l : list A) i v, length (list_set l i v) = length l.
Proof. intros A l; induction l as [|x l IH]; intros [|i] v; cbn; auto. Qed.

Lemma nth_list_set_eq : forall {A} (l : list A) i v d, (i < length l)%nat ->
  nth i (list_set l i v) d = v.
Proof.
  intros A l; induction l as [|x l IH]; intros [|i] v d H; cbn in *; try lia; auto.
  apply IH; lia.
Qed.

Lemma nth_list_set_neq : forall {A} (l : list A) i k v d, k <> i ->
  nth k (list_set l i v) d = nth k l d.
Proof.
  intros A l; induction l as [|x l IH]; intros [|i] [|k] v d H; cbn; auto; try lia.
Qed.

(** ** C3 *)

Ltac run_checks :=
  cbn -[chk_i32 chk_u32 as_i32 as_u32 list_set nth index];
  repeat (first [ rewrite chk_i32_ok by lia | rewrite chk_u32_ok by lia ];
          cbn -[chk_i32 chk_u32 as_i32 as_u32 list_set nth index]).

(** C3 (counterexample): the fill of a bid of rate 5 against a later ask
    of rate 3 is not at rate 3: with 100 money in both cells, the bidding
    cell keeps 85, not 91. *)
Lemma matching_counterexample : ~ matching_claim.
Proof.
  intro H.
  specialize (H [mkCell 10 100 Empty 0%float None None; mkCell 10 100 Empty 0%float None None]
                1000 0%nat 1%nat ltac:(lia) ltac:(cbn; lia) ltac:(cbn; lia)).
  cbn zeta in H.
  destruct H as [st [E [M _]]]; try (cbn; lia).
  vm_compute in E; injection E as <-.
  vm_compute in M; discriminate.
Qed.

(** C3 (amended): a bid of rate 5 for 3 units (food [-3]) followed by an
    ask of rate 3 for 4 units, against empty heaps, fills 3 units at the
    resting bid's rate 5: the bidding cell pays 15 money and gains 3 food,
    the asking cell gains 15 money and gives 3 food, no other cell changes,
    the rest of the ask (1 unit at rate 3) is left as the only order in the
    heaps, the reserve is untouched and both volume counters are 3. *)
Theorem market_fills_at_resting_rate : forall cells reserve i j,
  i <> j -> (i < length cells)%nat -> (j < length cells)%nat ->
  let ci := nth i cells default_cell in
  let cj := nth j cells default_cell in
  15 <= money ci < 2 ^ 31 -> 0 <= money cj < 2 ^ 31 - 15 ->
  0 <= food ci < 2 ^ 31 - 3 -> 3 <= food cj < 2 ^ 31 ->
  exists st, market (market_start cells reserve) [mkOrder i 5 (-3); mkOrder j 3 4] = Ok st /\
    money (nth i (m_cells st) default_cell) = money ci - 15 /\
    food (nth i (m_cells st) default_cell) = food ci + 3 /\
    money (nth j (m_cells st) default_cell) = money cj + 15 /\
    food (nth j (m_cells st) default_cell) = food cj - 3 /\
    (forall k, k <> i -> k <> j -> nth k (m_cells st) default_cell = nth k cells default_cell) /\
    bids st = [] /\ asks st = [mkOrder j 3 1] /\
    m_buy st = 3 /\ m_sell st = 3 /\ m_reserve st = reserve.
Proof.
  intros cells reserve i j Hij Hi Hj ci cj Hmi Hmj Hfi Hfj; subst ci cj.
  eexists; split.
  - cbn -[chk_i32 chk_u32 as_i32 as_u32 list_set nth index].
    unfold settle.
    cbn -[chk_i32 chk_u32 as_i32 as_u32 list_set nth index].
    rewrite (index_nth cells j default_cell Hj).
    run_checks.
    rewrite (as_i32_small (money _)) by lia.
    rewrite (as_i32_small (food _)) by lia.
    run_checks.
    rewrite (index_nth _ i default_cell) by (rewrite length_list_set; exact Hi).
    rewrite nth_list_set_neq by exact Hij.
    run_checks.
    rewrite (as_i32_small (money _)) by lia.
    rewrite (as_i32_small (food _)) by lia.
    run_checks.
    reflexivity.
  - unfold set_asks, set_bids; cbn -[list_set nth as_u32].
    assert (Li : (i < length (list_set cells j
                   (with_food_money (nth j cells default_cell)
                      (as_u32 (food (nth j cells default_cell) - 3))
                      (as_u32 (money (nth j cells default_cell) + 15)))))%nat)
      by (rewrite length_list_set; exact Hi).
    split; [rewrite nth_list_set_eq by exact Li; cbn; rewrite as_u32_small by lia; lia|].
    split; [rewrite nth_list_set_eq by exact Li; cbn; rewrite as_u32_small by lia; lia|].
    split; [rewrite nth_list_set_neq, nth_list_set_eq by (auto; lia);
            cbn; rewrite as_u32_small by lia; lia|].
    split; [rewrite nth_list_set_neq, nth_list_set_eq by (auto; lia);
            cbn; rewrite as_u32_small by lia; lia|].
    split; [intros k Hki Hkj; rewrite !nth_list_set_neq by assumption; reflexivity|].
    repeat split; reflexivity.
Qed.

Lemma market_fills_at_resting_rate_witness :
  exists st, market (market_start [mkCell 10 100 Empty 0%float None None;
                                   mkCell 10 100 Empty 0%float None None] 1000)
                    [mkOrder 0 5 (-3); mkOrder 1 3 4] = Ok st /\
    asks st = [mkOrder 1 3 1].
Proof.
  destruct (market_fills_at_resting_rate
              [mkCell 10 100 Empty 0%float None None; mkCell 10 100 Empty 0%float None None]
              1000 0 1 ltac:(lia) ltac:(cbn; lia) ltac:(cbn; lia)
              ltac:(cbn; lia) ltac:(cbn; lia) ltac:(cbn; lia) ltac:(cbn; lia))
    as [st [E [_ [_ [_ [_ [_ [_ [A _]]]]]]]]].
  exists st; split; [exact E|exact A].
Defined.

(** ** C5 *)

Definition two_cells : list Cell :=
  [mkCell 10 100 Empty 0%float None None; mkCell 10 100 Empty 0%float None None].

(** C5 (counterexample): a bid of cell 0 (rate 5) rests at the end of one
    pass, but in the next pass an ask of cell 1 at rate 3 meets empty heaps
    and nothing is sold. *)
Lemma order_book_persistence_counterexample : ~ order_book_persistence_claim.
Proof.
  intro H.
  assert (E1 : market (market_start two_cells 1000) [mkOrder 0 5 (-3)] =
               Ok (mkMarket two_cells 1000 0 0 [mkOrder 0 5 (-3)] [])) by reflexivity.
  assert (E2 : market (market_start two_cells 1000) [mkOrder 1 3 4] =
               Ok (mkMarket two_cells 1000 0 0 [] [mkOrder 1 3 4])) by reflexivity.
  specialize (H _ _ _ _ (mkOrder 0 5 (-3)) two_cells 1000 (mkOrder 1 3 4) _ E1 (or_introl eq_refl) eq_refl
                ltac:(cbn; lia) ltac:(cbn; lia) ltac:(cbn; lia) ltac:(cbn; lia) E2).
  cbn in H; lia.
Qed.

(** C5 (amended): the heaps of the market are local to [Sim::tick]: a tick
    starts its market pass from empty heaps and keeps only the best
    remaining bid and ask rates, so its outcome depends on the previous
    state only through the grid, the reserve and the dimensions, never on
    orders left over by earlier ticks. *)
Theorem tick_keeps_no_order_book : forall nb dec ud r s1 s2,
  grid s1 = grid s2 -> reserve s1 = reserve s2 ->
  width s1 = width s2 -> height s1 = height s2 ->
  tick nb dec ud r s1 = tick nb dec ud r s2.
Proof.
  intros nb dec ud r s1 s2 G R W H; unfold tick; rewrite G, R, W, H; reflexivity.
Qed.

Definition idle_draws : UpdateDraws :=
  mkUpdateDraws (fun _ => mkBrain 0%float 0 0 [0%float] (mkDna [] [])) false (fun b => b)
                false (mkBrain 0%float 0 0 [0%float] (mkDna [] [])) false 0.

Lemma tick_keeps_no_order_book_witness :
  tick (fun _ _ => 0%nat) (fun _ => DNothing) (fun _ => idle_draws) (mkRng (fun _ => 0) 0)
       (mkSim two_cells 1 2 1000 (Some 5) (Some 7) 3 3) =
  tick (fun _ _ => 0%nat) (fun _ => DNothing) (fun _ => idle_draws) (mkRng (fun _ => 0) 0)
       (mkSim two_cells 1 2 1000 None None 0 0).
Proof. apply tick_keeps_no_order_book; reflexivity. Defined.

(** ** Conservation of money and walls *)

Ltac obind_inv :=
  repeat match goal with
  | H : obind ?m _ = Ok _ |- _ =>
      let E := fresh "E" in destruct m eqn:E; cbn [obind] in H; [|discriminate H]
  | H : Ok _ = Ok _ |- _ => injection H; clear H; intros; subst
  | p : (_ * _)%type |- _ => destruct p; cbv beta iota in *
  end.

Lemma index_inv : forall {A} (l : list A) i a d, index l i = Ok a ->
  (i < length l)%nat /\ a = nth i l d.
Proof.
  intros A l i a d; unfold index; destruct (nth_error l i) eqn:E; intro H; inversion H; subst.
  split; [apply nth_error_Some; congruence|].
  symmetry; apply nth_error_nth; exact E.
Qed.

Lemma cells_rel_refl : forall l, cells_rel l l.
Proof. intro l; split; [reflexivity|]; intro k; repeat split. Qed.

Lemma cells_rel_trans : forall a b c, cells_rel a b -> cells_rel b c -> cells_rel a c.
Proof.
  intros a b c [L1 F1] [L2 F2]; split; [congruence|].
  intro k; destruct (F1 k) as (T1 & B1 & R1); destruct (F2 k) as (T2 & B2 & R2).
  repeat split; congruence.
Qed.

Lemma cells_rel_set : forall l i v, frame (nth i l default_cell) v -> cells_rel l (list_set l i v).
Proof.
  intros l i v F; split; [apply length_list_set|]; intro k.
  destruct (Nat.eq_dec k i) as [->|Hne].
  - destruct (Nat.lt_ge_cases i (length l)) as [Hl|Hl].
    + rewrite nth_list_set_eq by exact Hl; exact F.
    + assert (list_set l i v = l) as ->.
      { clear F; revert i Hl; induction l as [|x l IH]; intros [|i] Hl; cbn in *; try lia; auto.
        rewrite IH by lia; reflexivity. }
      repeat split.
  - rewrite nth_list_set_neq by exact Hne; repeat split.
Qed.

Lemma frame_with_food_money : forall c f m, frame c (with_food_money c f m).
Proof. intros; repeat split. Qed.

Lemma settle_frame : forall cells o r num cells' o',
  settle cells o r num = Ok (cells', o') ->
  cells_rel cells cells' /\ o_index o' = o_index o /\ rate o' = rate o.
Proof.
  intros cells o r num cells' o' H; unfold settle in H; obind_inv.
  destruct (index_inv _ _ _ default_cell E) as [_ ->].
  split; [apply cells_rel_set, frame_with_food_money|]; split; reflexivity.
Qed.

Lemma fulfill_frame : forall st nw ex st' nw' ex',
  fulfill st nw ex = Ok (st', nw', ex') ->
  cells_rel (m_cells st) (m_cells st') /\ bids st' = bids st /\ asks st' = asks st /\
  o_index nw' = o_index nw /\ rate nw' = rate nw /\ o_index ex' = o_index ex /\ rate ex' = rate ex.
Proof.
  intros st nw ex st' nw' ex' H; unfold fulfill in H; obind_inv.
  destruct (settle_frame _ _ _ _ _ _ E1) as (R1 & I1 & Q1).
  destruct (settle_frame _ _ _ _ _ _ E2) as (R2 & I2 & Q2).
  cbn; repeat split; auto; eapply cells_rel_trans; eauto.
Qed.

Lemma fulfill_reserve_frame : forall st o st' o',
  fulfill_reserve st o = Ok (st', o') ->
  cells_rel (m_cells st) (m_cells st') /\ bids st' = bids st /\ asks st' = asks st /\
  o_index o' = o_index o /\ rate o' = rate o.
Proof.
  intros st o st' o' H; unfold fulfill_reserve in H; obind_inv.
  destruct (index_inv _ _ _ default_cell E) as [_ ->].
  cbn; repeat split; auto; apply cells_rel_set, frame_with_food_money.
Qed.

Lemma food_reserve_frame : forall st o st' o',
  food_reserve st o = Ok (st', o') ->
  cells_rel (m_cells st) (m_cells st') /\ bids st' = bids st /\ asks st' = asks st /\
  o_index o' = o_index o /\ rate o' = rate o.
Proof.
  intros st o st' o' H; unfold food_reserve in H; obind_inv.
  destruct (index_inv _ _ _ default_cell E0) as [_ ->].
  cbn; repeat split; auto; apply cells_rel_set, frame_with_food_money.
Qed.

Lemma bid_loop_frame : forall fuel st o st', bid_loop fuel st o = Ok st' ->
  cells_rel (m_cells st) (m_cells st').
Proof.
  induction fuel as [|fuel IH]; intros st o st' H; cbn in H.
  - injection H as <-; apply cells_rel_refl.
  - destruct (pop_min (asks st)) as [[ask rest]|].
    + destruct (rate o <? rate ask).
      * injection H as <-; apply cells_rel_refl.
      * obind_inv.
        destruct (fulfill_frame _ _ _ _ _ _ E) as (R & _).
        match goal with H : context [if o_food ?x =? 0 then _ else _] |- _ =>
          destruct (o_food x =? 0) end.
        -- injection H as <-; exact R.
        -- eapply cells_rel_trans; [exact R|]; exact (IH _ _ _ H).
    + cbn in H; injection H as <-; apply cells_rel_refl.
Qed.

Lemma reserve_step_frame : forall (b : bool) st o st1 o1,
  (if b then fulfill_reserve st o else Ok (st, o)) = Ok (st1, o1) ->
  cells_rel (m_cells st) (m_cells st1) /\ bids st1 = bids st /\ asks st1 = asks st /\
  o_index o1 = o_index o /\ rate o1 = rate o.
Proof.
  intros [|] st o st1 o1 H.
  - exact (fulfill_reserve_frame _ _ _ _ H).
  - injection H as <- <-; repeat split; auto; apply cells_rel_refl.
Qed.

Lemma ask_loop_frame : forall fuel st o st', ask_loop fuel st o = Ok st' ->
  cells_rel (m_cells st) (m_cells st').
Proof.
  induction fuel as [|fuel IH]; intros st o st' H; cbn in H.
  - injection H as <-; apply cells_rel_refl.
  - destruct (pop_max (bids st)) as [[bid rest]|].
    + destruct (rate bid <? rate o).
      * obind_inv. destruct (reserve_step_frame _ _ _ _ _ E) as (R & _); exact R.
      * obind_inv.
        destruct (reserve_step_frame _ _ _ _ _ E) as (R1 & _).
        destruct (fulfill_frame _ _ _ _ _ _ E0) as (R2 & _).
        match goal with H : context [if o_food ?x =? 0 then _ else _] |- _ =>
          destruct (o_food x =? 0) end.
        -- injection H as <-; eapply cells_rel_trans; eauto.
        -- eapply cells_rel_trans; [exact R1|]; eapply cells_rel_trans; [exact R2|].
           exact (IH _ _ _ H).
    + obind_inv. destruct (reserve_step_frame _ _ _ _ _ E) as (R & _); exact R.
Qed.

Lemma market_frame : forall orders st st', market st orders = Ok st' ->
  cells_rel (m_cells st) (m_cells st').
Proof.
  induction orders as [|o os IH]; intros st st' H; cbn [market] in H.
  - injection H as <-; apply cells_rel_refl.
  - destruct (intent o); obind_inv.
    + eapply cells_rel_trans; [exact (bid_loop_frame _ _ _ _ E)|exact (IH _ _ H)].
    + eapply cells_rel_trans; [exact (ask_loop_frame _ _ _ _ E)|exact (IH _ _ H)].
    + exact (IH _ _ H).
Qed.

Lemma mapM_inv : forall {A B} (f : A -> Outcome B) l ys, mapM f l = Ok ys ->
  Forall2 (fun x y => f x = Ok y) l ys.
Proof.
  intros A B f l; induction l as [|x l IH]; intros ys H; cbn in H.
  - injection H as <-; constructor.
  - obind_inv; constructor; auto.
Qed.

Lemma Forall2_seq : forall {B} (P : nat -> B -> Prop) n ys d, Forall2 P (seq 0 n) ys ->
  length ys = n /\ forall k, (k < n)%nat -> P k (nth k ys d).
Proof.
  intros B P n ys d F; split.
  - rewrite <- (Forall2_length F), length_seq; reflexivity.
  - intros k Hk; pose proof (Forall2_nth' P _ _ k 0%nat d F) as G.
    rewrite length_seq, seq_nth in G by exact Hk; exact (G Hk).
Qed.

Lemma CellType_eqb_spec : forall a b, CellType_eqb a b = true <-> a = b.
Proof. intros [] []; cbn; split; congruence. Qed.

Lemma update_frame : forall c d mv u c', update c d mv u = Ok c' ->
  ty c' = ty c /\ (ty c = Wall -> brain c' = brain c /\ trade c' = trade c).
Proof.
  intros c d mv u c' H; unfold update in H; obind_inv.
  destruct (CellType_eqb (ty c) Wall) eqn:W.
  - injection H as <-; cbn; auto.
  - obind_inv; cbn; split; [reflexivity|].
    intro HW; rewrite HW in W; discriminate W.
Qed.

Lemma cycle_frame : forall nb cells dec ud cells', cycle nb cells dec ud = Ok cells' ->
  wall_rel cells cells'.
Proof.
  intros nb cells dec ud cells' H; unfold cycle in H; obind_inv.
  destruct (Forall2_seq _ _ _ default_cell (mapM_inv _ _ _ H)) as [L F].
  split; [exact L|]; intro k.
  destruct (Nat.lt_ge_cases k (length cells)) as [Hk|Hk].
  - exact (update_frame _ _ _ _ _ (F k Hk)).
  - rewrite !nth_overflow by lia; cbn; split; [reflexivity|discriminate].
Qed.

Lemma nth_take_trades : forall l k,
  nth k (take_trades l) default_cell = with_trade (nth k l default_cell) None.
Proof.
  unfold take_trades; induction l as [|c l IH]; intros [|k]; cbn; auto.
Qed.

Lemma length_take_trades : forall l, length (take_trades l) = length l.
Proof. intro l; apply length_map. Qed.

Lemma sweep_frame : forall cells r cells' r', sweep cells r = Ok (cells', r') ->
  cells_rel cells cells' /\
  forall k, ty (nth k cells default_cell) = Wall -> money (nth k cells' default_cell) = 0.
Proof.
  induction cells as [|c cs IH]; intros r cells' r' H; cbn [sweep] in H.
  - injection H as <- <-; split; [apply cells_rel_refl|]; intros [|k]; cbn; discriminate.
  - obind_inv.
    destruct (IH _ _ _ E0) as [[L R] M].
    assert (frame c c0 /\ (ty c = Wall -> money c0 = 0)) as [Fc Mc].
    { destruct (CellType_eqb (ty c) Wall) eqn:W; obind_inv.
      - split; [repeat split|reflexivity].
      - split; [repeat split|]. intro HW; rewrite HW in W; discriminate W. }
    split; [split; [cbn; congruence|]|]; intros [|k]; cbn; auto.
Qed.

Lemma tick_winv : forall nb dec ud r s s', tick nb dec ud r s = Ok s' ->
  winv (grid s) -> winv (grid s').
Proof.
  intros nb dec ud r s s' H W; unfold tick in H; obind_inv.
  destruct (Z.eqb _ _) in H; [|discriminate H]; injection H as <-; cbn.
  destruct (cycle_frame _ _ _ _ _ E) as [_ C].
  destruct (market_frame _ _ _ E0) as [_ M]; cbn in M.
  destruct (sweep_frame _ _ _ _ E1) as [[_ S] Z0].
  intros k Hk.
  destruct (S k) as (T1 & B1 & _); destruct (M k) as (T2 & B2 & _).
  rewrite nth_take_trades in T2, B2; cbn in T2, B2.
  destruct (C k) as [T3 C3].
  assert (HW : ty (nth k (grid s) default_cell) = Wall) by congruence.
  destruct (C3 HW) as [B3 _]; destruct (W k HW) as [_ B4].
  split; [apply Z0; congruence|congruence].
Qed.

Lemma reachable_winv : forall nb w h s, reachable nb w h s -> winv (grid s).
Proof.
  intros nb w h s H; induction H as [tys s L E|s dec ud r s' Hr IH E].
  - unfold new_sim in E; obind_inv; cbn.
    intros k _; destruct (Nat.lt_ge_cases k (length tys)) as [Hk|Hk].
    + assert (Hin : In (nth k (map (fun t => mkCell 0 0 t 0%float None None) tys) default_cell)
                         (map (fun t => mkCell 0 0 t 0%float None None) tys))
        by (apply nth_In; rewrite length_map; exact Hk).
      apply in_map_iff in Hin; destruct Hin as (t & <- & _); cbn; auto.
    + rewrite nth_overflow by (rewrite length_map; lia); cbn; auto.
  - exact (tick_winv _ _ _ _ _ _ E IH).
Qed.

(** ** No assertion failure before the final check *)

Lemma obind_na : forall {A B} (m : Outcome A) (f : A -> Outcome B),
  m <> Panic AssertionFailed -> (forall a, f a <> Panic AssertionFailed) ->
  obind m f <> Panic AssertionFailed.
Proof.
  intros A B [a|p] f H1 H2; cbn; [apply H2|].
  intro E; injection E as ->; apply H1; reflexivity.
Qed.

Lemma chk_u32_na : forall z, chk_u32 z <> Panic AssertionFailed.
Proof. intro z; unfold chk_u32; destruct (in_u32 z); discriminate. Qed.

Lemma chk_i32_na : forall z, chk_i32 z <> Panic AssertionFailed.
Proof. intro z; unfold chk_i32; destruct (in_i32 z); discriminate. Qed.

Lemma index_na : forall {A} (l : list A) i, index l i <> Panic AssertionFailed.
Proof. intros A l i; unfold index; destruct (nth_error l i); discriminate. Qed.

Lemma i32_abs_na : forall z, i32_abs z <> Panic AssertionFailed.
Proof. intro z; unfold i32_abs; destruct (z =? _); discriminate. Qed.

Lemma mapM_na : forall {A B} (f : A -> Outcome B) l,
  (forall x, f x <> Panic AssertionFailed) -> mapM f l <> Panic AssertionFailed.
Proof.
  intros A B f l H; induction l as [|x l IH]; cbn; [discriminate|].
  apply obind_na; [apply H|]; intro y; apply obind_na; [exact IH|]; discriminate.
Qed.

Create HintDb na.
#[local] Hint Resolve chk_u32_na chk_i32_na index_na i32_abs_na : na.

Ltac na :=
  repeat first
  [ discriminate
  | apply obind_na; [ | intro ]
  | apply mapM_na; intro
  | match goal with
    | |- (if ?b then _ else _) <> _ => destruct b
    | |- (match ?x with _ => _ end) <> _ => destruct x
    end
  | solve [eauto with na] ].

Lemma sum_u32_from_na : forall l acc, sum_u32_from acc l <> Panic AssertionFailed.
Proof. induction l as [|x l IH]; intro acc; cbn; na. Qed.
#[local] Hint Resolve sum_u32_from_na : na.

Lemma cycle_na : forall nb cells dec ud, cycle nb cells dec ud <> Panic AssertionFailed.
Proof.
  intros; unfold cycle, step, update, sum_u32, brain_signal; na.
Qed.

Lemma fulfill_na : forall st nw ex, fulfill st nw ex <> Panic AssertionFailed.
Proof. intros; unfold fulfill, settle; na. Qed.

Lemma fulfill_reserve_na : forall st o, fulfill_reserve st o <> Panic AssertionFailed.
Proof. intros; unfold fulfill_reserve; na. Qed.

Lemma food_reserve_na : forall st o, food_reserve st o <> Panic AssertionFailed.
Proof. intros; unfold food_reserve; na. Qed.
#[local] Hint Resolve fulfill_na fulfill_reserve_na food_reserve_na : na.

Lemma bid_loop_na : forall fuel st o, bid_loop fuel st o <> Panic AssertionFailed.
Proof. induction fuel; intros; cbn [bid_loop]; na. Qed.

Lemma ask_loop_na : forall fuel st o, ask_loop fuel st o <> Panic AssertionFailed.
Proof. induction fuel; intros; cbn [ask_loop]; na. Qed.
#[local] Hint Resolve bid_loop_na ask_loop_na : na.

Lemma market_na : forall orders st, market st orders <> Panic AssertionFailed.
Proof. induction orders; intros; cbn [market]; na. Qed.

Lemma sweep_na : forall cells r, sweep cells r <> Panic AssertionFailed.
Proof. induction cells; intros; cbn [sweep]; na. Qed.

Lemma reserve_total_na : forall w h, reserve_total w h <> Panic AssertionFailed.
Proof. intros; unfold reserve_total; na. Qed.
#[local] Hint Resolve cycle_na market_na sweep_na reserve_total_na sum_u32_from_na : na.

Lemma obind_assert : forall {A B} (m : Outcome A) (f : A -> Outcome B),
  obind m f = Panic AssertionFailed -> m <> Panic AssertionFailed ->
  exists a, m = Ok a /\ f a = Panic AssertionFailed.
Proof.
  intros A B [a|p] f H1 H2; cbn in H1; [eauto|].
  exfalso; apply H2; injection H1 as ->; reflexivity.
Qed.

(** ** Sums *)

Lemma zsum_cons : forall x l, zsum (x :: l) = x + zsum l.
Proof. reflexivity. Qed.

Lemma zsum_app : forall l1 l2, zsum (l1 ++ l2) = zsum l1 + zsum l2.
Proof. unfold zsum; induction l1; intros; cbn; [|rewrite IHl1]; lia. Qed.

Lemma zsum_perm : forall l1 l2, Permutation l1 l2 -> zsum l1 = zsum l2.
Proof. intros l1 l2 P; unfold zsum; induction P; cbn; lia. Qed.

Lemma zsum_map_add : forall {A} (f g : A -> Z) l,
  zsum (map (fun x => f x + g x) l) = zsum (map f l) + zsum (map g l).
Proof. intros; unfold zsum; induction l; cbn; lia. Qed.

Lemma zsum_map_sub : forall {A} (f g : A -> Z) l,
  zsum (map (fun x => f x - g x) l) = zsum (map f l) - zsum (map g l).
Proof. intros; unfold zsum; induction l; cbn; lia. Qed.

Lemma zsum_map_ext : forall {A} (f g : A -> Z) l, (forall x, In x l -> f x = g x) ->
  zsum (map f l) = zsum (map g l).
Proof. intros A f g l H; f_equal; apply map_ext_in; exact H. Qed.

Lemma zsum_map_zero : forall {A} (l : list A), zsum (map (fun _ => 0) l) = 0.
Proof. intros; unfold zsum; induction l; cbn; lia. Qed.

Lemma zsum_nonneg : forall {A} (f : A -> Z) l, (forall x, In x l -> 0 <= f x) ->
  0 <= zsum (map f l).
Proof.
  intros A f l; unfold zsum; induction l as [|x l IH]; intro H; cbn; [lia|].
  specialize (H x (or_introl eq_refl)) as Hx; specialize (IH (fun y Hy => H y (or_intror Hy))); lia.
Qed.

Lemma zsum_swap : forall {A B} (F : A -> B -> Z) la lb,
  zsum (map (fun a => zsum (map (fun b => F a b) lb)) la) =
  zsum (map (fun b => zsum (map (fun a => F a b) la)) lb).
Proof.
  intros A B F la lb; induction la as [|a la IH]; cbn [map].
  - symmetry; apply zsum_map_zero.
  - rewrite zsum_cons, IH, <- zsum_map_add; reflexivity.
Qed.

Lemma zsum_le : forall {A} (f g : A -> Z) l, (forall x, In x l -> f x <= g x) ->
  zsum (map f l) <= zsum (map g l).
Proof.
  intros A f g l; unfold zsum; induction l as [|x l IH]; intro H; cbn; [lia|].
  specialize (H x (or_introl eq_refl)) as Hx; specialize (IH (fun y Hy => H y (or_intror Hy))); lia.
Qed.

Lemma sum_money_seq : forall l,
  sum_money l = zsum (map (fun k => money (nth k l default_cell)) (seq 0 (length l))).
Proof.
  intro l; unfold sum_money; fold zsum.
  rewrite <- (map_nth_seq_id default_cell l) at 1; rewrite map_map; reflexivity.
Qed.

Lemma sum_u32_from_ok : forall l acc t, sum_u32_from acc l = Ok t -> t = acc + zsum l.
Proof.
  induction l as [|x l IH]; intros acc t H; cbn in H.
  - injection H as <-; cbn; lia.
  - obind_inv; apply chk_u32_inv in E as [-> _]; apply IH in H; rewrite zsum_cons; lia.
Qed.

Lemma sum_u32_ok : forall l t, sum_u32 l = Ok t -> t = zsum l.
Proof. intros l t H; apply sum_u32_from_ok in H; lia. Qed.

Lemma NoDup_map_on : forall {A B} (f : A -> B) l,
  (forall a b, In a l -> In b l -> f a = f b -> a = b) -> NoDup l -> NoDup (map f l).
Proof.
  intros A B f l; induction l as [|x l IH]; intros Inj ND; cbn; constructor.
  - intro Hin; apply in_map_iff in Hin as (y & Ey & Hy).
    inversion ND; subst.
    assert (y = x) as -> by (apply Inj; cbn; auto).
    contradiction.
  - inversion ND; subst; apply IH; auto.
    intros a b Ha Hb; apply Inj; cbn; auto.
Qed.

Lemma reindex_perm : forall (g : nat -> nat) N,
  (forall i, (i < N)%nat -> (g i < N)%nat) ->
  (forall i j, (i < N)%nat -> (j < N)%nat -> g i = g j -> i = j) ->
  Permutation (map g (seq 0 N)) (seq 0 N).
Proof.
  intros g N Hlt Hinj; apply NoDup_Permutation_bis.
  - apply NoDup_map_on; [|apply seq_NoDup].
    intros a b Ha Hb; apply in_seq in Ha, Hb; apply Hinj; lia.
  - rewrite length_map; lia.
  - intros x Hx; apply in_map_iff in Hx as (i & <- & Hi); apply in_seq in Hi; apply in_seq.
    specialize (Hlt i); lia.
Qed.

Lemma flip_perm : Permutation (map flip all_dirs) all_dirs.
Proof.
  change (Permutation ([Left; Down] ++ [Right; Up]) ([Right; Up] ++ [Left; Down])).
  apply Permutation_app_comm.
Qed.

(** ** One cell: [step] and [update] *)

Lemma zsum_one_dir : forall dir v,
  zsum (map (fun x => if MooreDirection_eqb x dir then v else 0) all_dirs) = v.
Proof. intros [] v; cbn; lia. Qed.

Lemma m_money_if : forall (b : bool) f m br, m_money (if b then mkMove f m br else no_move) =
  if b then m else 0.
Proof. intros [] f m br; reflexivity. Qed.

Lemma step_spec : forall c dec dif mv, step c dec = Ok (dif, mv) -> 0 <= money c ->
  0 <= spend dif <= money c /\ outflow mv = spend dif /\
  (forall x, 0 <= m_money (mv x)) /\
  (brain c = None -> spend dif = 0) /\
  (forall t, d_trade dif = Some t -> spend dif = 0 /\ - t_rate t * t_food t <= as_i32 (money c)).
Proof.
  intros c dec dif mv H Hm; unfold step, outflow in *.
  destruct (is_none (brain c) || (food c =? 0))%bool eqn:B.
  { injection H as <- <-; cbn -[zsum]; repeat split; try lia; discriminate. }
  assert (Hb : brain c <> None) by (intro E; rewrite E in B; discriminate B).
  destruct dec as [dir|dir|rt fd|].
  - destruct (MOVE_PENALTY <? food c).
    + obind_inv.
      destruct dir; cbn; repeat split; try lia; try contradiction; try discriminate;
        intros []; cbn; lia.
    + injection H as <- <-; cbn -[zsum]; repeat split; try lia; try discriminate.
  - destruct (2 + MOVE_PENALTY <=? food c).
    + obind_inv.
      assert (0 <= money c / 2 <= money c) by (split; [apply Z.div_pos|apply Z.div_le_upper_bound]; lia).
      destruct dir; cbn; repeat split; try lia; try contradiction; try discriminate;
        intros []; cbn; lia.
    + injection H as <- <-; cbn -[zsum]; repeat split; try lia; try discriminate.
  - obind_inv.
    apply chk_i32_inv in E as [-> _]; apply chk_i32_inv in E0 as [-> _].
    destruct ((fd <? as_i32 (food c)) && (- rt * fd <=? as_i32 (money c)))%bool eqn:T.
    + injection H as <- <-; cbn -[zsum]; repeat split; try lia; try contradiction.
      match goal with E : Some _ = Some _ |- _ => injection E as <- end.
      apply andb_true_iff in T as [_ T]; apply Z.leb_le in T; cbn; lia.
    + injection H as <- <-; cbn -[zsum]; repeat split; try lia; discriminate.
  - injection H as <- <-; cbn -[zsum]; repeat split; try lia; discriminate.
Qed.

Lemma update_spec : forall c dif mv u c', update c dif mv u = Ok c' ->
  money c' = (if CellType_eqb (ty c) Wall then money c + outflow mv
              else saturating_sub (money c + outflow mv) (spend dif)) /\
  (ty c <> Wall -> trade c' = d_trade dif).
Proof.
  intros c dif mv u c' H; unfold update, outflow in *; obind_inv.
  apply sum_u32_ok in E as ->; apply chk_u32_inv in E0 as [-> _].
  destruct (CellType_eqb (ty c) Wall) eqn:W.
  - injection H as <-; cbn; split; [reflexivity|].
    intro HW; apply CellType_eqb_spec in W; contradiction.
  - obind_inv; cbn; split; reflexivity.
Qed.

(** ** [cycle] conserves money on a grid whose neighbour map is an involution *)

Section Torus.
Variable nb : nat -> MooreDirection -> nat.
Variable N : nat.
Hypothesis nb_lt : forall i d, (i < N)%nat -> (nb i d < N)%nat.
Hypothesis nb_flip : forall i d, (i < N)%nat -> nb (nb i d) (flip d) = i.

Lemma nb_perm : forall x, Permutation (map (fun i => nb i x) (seq 0 N)) (seq 0 N).
Proof.
  intro x; apply reindex_perm; [intros; apply nb_lt; auto|].
  intros i j Hi Hj E; rewrite <- (nb_flip i x Hi), <- (nb_flip j x Hj), E; reflexivity.
Qed.

Lemma inflow_total : forall (out : nat -> MooreDirection -> Z),
  zsum (map (fun k => zsum (map (fun x => out (nb k x) (flip x)) all_dirs)) (seq 0 N)) =
  zsum (map (fun j => zsum (map (fun x => out j x) all_dirs)) (seq 0 N)).
Proof.
  intro out.
  rewrite (zsum_swap (fun k x => out (nb k x) (flip x))).
  transitivity (zsum (map (fun x => zsum (map (fun j => out j (flip x)) (seq 0 N))) all_dirs)).
  { apply zsum_map_ext; intros x _.
    rewrite <- (map_map (fun k => nb k x) (fun j => out j (flip x))).
    apply zsum_perm, Permutation_map, nb_perm. }
  rewrite <- (zsum_swap (fun j x => out j (flip x))).
  apply zsum_map_ext; intros j _.
  rewrite <- (map_map flip (out j)); apply zsum_perm, Permutation_map, flip_perm.
Qed.

Lemma cycle_money : forall cells dec ud cells', length cells = N ->
  (forall k, 0 <= money (nth k cells default_cell)) ->
  (forall k, ty (nth k cells default_cell) = Wall -> brain (nth k cells default_cell) = None) ->
  (forall k, trade (nth k cells default_cell) = None) ->
  cycle nb cells dec ud = Ok cells' ->
  sum_money cells' = sum_money cells /\
  (forall k, 0 <= money (nth k cells' default_cell)) /\
  (forall k t, trade (nth k cells' default_cell) = Some t ->
     - t_rate t * t_food t <= as_i32 (money (nth k cells default_cell)) /\
     money (nth k cells default_cell) <= money (nth k cells' default_cell)).
Proof.
  intros cells dec ud cells' L Hm Hw Ht H; unfold cycle in H; obind_inv.
  rewrite L in E, H.
  destruct (Forall2_seq _ _ _ default_step (mapM_inv _ _ _ E)) as [Ls Fs].
  destruct (Forall2_seq _ _ _ default_cell (mapM_inv _ _ _ H)) as [Lc Fc].
  set (sp j := spend (fst (nth j a default_step))).
  set (out j x := m_money (snd (nth j a default_step) x)).
  assert (S : forall j, (j < N)%nat ->
    0 <= sp j <= money (nth j cells default_cell) /\ zsum (map (out j) all_dirs) = sp j /\
    (forall x, 0 <= out j x) /\
    (brain (nth j cells default_cell) = None -> sp j = 0) /\
    (forall t, d_trade (fst (nth j a default_step)) = Some t -> sp j = 0 /\
       - t_rate t * t_food t <= as_i32 (money (nth j cells default_cell)))).
  { intros j Hj; pose proof (Fs j Hj) as Ej.
    rewrite (surjective_pairing (nth j a default_step)) in Ej.
    exact (step_spec _ _ _ _ Ej (Hm j)). }
  set (inc k := zsum (map (fun x => out (nb k x) (flip x)) all_dirs)).
  assert (Inc : forall k, (k < N)%nat -> 0 <= inc k).
  { intros k Hk; apply zsum_nonneg; intros x _.
    destruct (S (nb k x) (nb_lt k x Hk)) as (_ & _ & Ho & _); apply Ho. }
  assert (M : forall k, (k < N)%nat ->
    money (nth k cells' default_cell) = money (nth k cells default_cell) + inc k - sp k /\
    (ty (nth k cells default_cell) <> Wall -> trade (nth k cells' default_cell) = d_trade (fst (nth k a default_step)))).
  { intros k Hk; destruct (update_spec _ _ _ _ _ (Fc k Hk)) as [Mk Tk].
    split; [|exact Tk].
    replace (outflow _) with (inc k) in Mk by reflexivity.
    change (spend (fst (nth k a default_step))) with (sp k) in Mk; rewrite Mk.
    destruct (S k Hk) as (Hs & _ & _ & Hb & _).
    specialize (Inc k Hk).
    destruct (CellType_eqb (ty (nth k cells default_cell)) Wall) eqn:W.
    - apply CellType_eqb_spec in W; rewrite (Hb (Hw k W)); lia.
    - unfold saturating_sub; lia. }
  split; [|split].
  - rewrite (sum_money_seq cells'), (sum_money_seq cells), Lc, L.
    rewrite (zsum_map_ext _ (fun k => (money (nth k cells default_cell) + inc k) - sp k))
      by (intros k Hk; apply in_seq in Hk; apply M; lia).
    rewrite zsum_map_sub, zsum_map_add.
    unfold inc; rewrite inflow_total.
    rewrite (zsum_map_ext (fun j => zsum (map (fun x => out j x) all_dirs)) sp)
      by (intros j Hj; apply in_seq in Hj; exact (proj1 (proj2 (S j ltac:(lia))))).
    lia.
  - intro k; destruct (Nat.lt_ge_cases k N) as [Hk|Hk].
    + rewrite (proj1 (M k Hk)); destruct (S k Hk) as (Hs & _); specialize (Inc k Hk); lia.
    + rewrite nth_overflow by lia; cbn; lia.
  - intros k t Tk; destruct (Nat.lt_ge_cases k N) as [Hk|Hk].
    2: { rewrite nth_overflow in Tk by lia; discriminate Tk. }
    destruct (CellType_eqb (ty (nth k cells default_cell)) Wall) eqn:W.
    + apply CellType_eqb_spec in W.
      destruct (update_frame _ _ _ _ _ (Fc k Hk)) as [_ Fr].
      destruct (Fr W) as [_ Tr]; rewrite Tr, Ht in Tk; discriminate Tk.
    + assert (W' : ty (nth k cells default_cell) <> Wall)
        by (intro HW; rewrite HW in W; discriminate W).
      rewrite (proj2 (M k Hk) W') in Tk.
      destruct (S k Hk) as (_ & _ & _ & _ & Tt); destruct (Tt t Tk) as [Z0 B].
      split; [exact B|]; rewrite (proj1 (M k Hk)); specialize (Inc k Hk); lia.
Qed.

End Torus.

(** ** The market pass conserves money *)

Lemma liab_step : forall r R f num m, 0 <= num <= Z.abs f -> Z.max 0 (- r * f) <= m ->
  (f < 0 -> R <= r) -> (0 < f -> r <= R) ->
  Z.max 0 (- r * (f - Z.sgn f * num)) <= m + R * num * Z.sgn f.
Proof.
  intros r R f num m Hn Hl H1 H2.
  assert (Hm : 0 <= m /\ - r * f <= m) by lia.
  destruct (Z.lt_trichotomy f 0) as [Hf|[Hf|Hf]].
  - rewrite Z.sgn_neg by exact Hf; rewrite Z.abs_neq in Hn by lia.
    specialize (H1 Hf).
    assert (R * num <= r * num) by nia.
    assert (r * num <= r * (- f) \/ R < 0) by (destruct (Z.le_gt_cases 0 R); [left; nia|right; lia]).
    apply Z.max_lub; nia.
  - subst f; cbn in *; lia.
  - rewrite Z.sgn_pos by exact Hf; rewrite Z.abs_eq in Hn by lia.
    specialize (H2 Hf).
    assert (r * num <= R * num) by nia.
    apply Z.max_lub; nia.
Qed.

Lemma money_le_sum : forall l k, (forall j, 0 <= money (nth j l default_cell)) ->
  money (nth k l default_cell) <= sum_money l.
Proof.
  unfold sum_money; induction l as [|c l IH]; intros k H; cbn.
  - destruct k; cbn; lia.
  - assert (0 <= fold_right Z.add 0 (map money l)).
    { fold zsum; apply zsum_nonneg; intros x Hx.
      apply In_nth with (d := default_cell) in Hx as (j & Hj & <-); exact (H (S j)). }
    pose proof (H 0%nat) as Hz; cbn in Hz.
    destruct k; [lia|]; specialize (IH k (fun j => H (S j))); lia.
Qed.

Lemma minv_money_lt : forall N T st live k, minv N T st live ->
  0 <= money (nth k (m_cells st) default_cell) < 2 ^ 31.
Proof.
  intros N T st live k (L & S & HT & R & M & _).
  pose proof (money_le_sum _ k M); specialize (M k); lia.
Qed.

Lemma sum_money_list_set : forall l i v, (i < length l)%nat ->
  sum_money (list_set l i v) = sum_money l - money (nth i l default_cell) + money v.
Proof.
  unfold sum_money; induction l as [|c l IH]; intros [|i] v H; cbn in *; try lia.
  rewrite IH by lia; lia.
Qed.

Lemma minv_shrink : forall N T st live st' live' extra,
  m_cells st' = m_cells st -> m_reserve st' = m_reserve st ->
  Forall (fun o => o_food o < 0) (bids st') -> Forall (fun o => 0 < o_food o) (asks st') ->
  Permutation (book st live) (extra ++ book st' live') ->
  minv N T st live -> minv N T st' live'.
Proof.
  intros N T st live st' live' extra C R Fb Fa P (L & S & HT & HR & M & _ & _ & ND & F).
  rewrite <- C, <- R in *.
  repeat split; auto.
  - apply (Permutation_map o_index) in P; apply (Permutation_NoDup P) in ND.
    rewrite map_app in ND; apply NoDup_app_remove_l in ND; exact ND.
  - apply (Permutation_Forall P) in F; apply Forall_app in F as [_ F]; exact F.
Qed.

Ltac chk_subst :=
  repeat match goal with
  | E : chk_i32 _ = Ok _ |- _ => apply chk_i32_inv in E as [? ?]; subst
  | E : chk_u32 _ = Ok _ |- _ => apply chk_u32_inv in E as [? ?]; subst
  end.

Lemma settle_ok : forall cells o R num cells' o',
  settle cells o R num = Ok (cells', o') ->
  0 <= money (nth (o_index o) cells default_cell) < 2 ^ 31 ->
  (o_index o < length cells)%nat /\
  money (nth (o_index o) cells default_cell) + R * num * Z.sgn (o_food o) < 2 ^ 31 /\
  (exists f, cells' = list_set cells (o_index o)
     (with_food_money (nth (o_index o) cells default_cell) f
        (as_u32 (money (nth (o_index o) cells default_cell) + R * num * Z.sgn (o_food o))))) /\
  o' = with_food o (o_food o - Z.sgn (o_food o) * num).
Proof.
  intros cells o R num cells' o' H Hm; unfold settle in H; obind_inv.
  destruct (index_inv _ _ _ default_cell E) as [Hi ->].
  chk_subst.
  assert (Ea : as_i32 (money (nth (o_index o) cells default_cell)) = money (nth (o_index o) cells default_cell)) by (apply as_i32_small; exact Hm).
  rewrite Ea in *.
  split; [exact Hi|]; split; [lia|]; split; [eexists; reflexivity|reflexivity].
Qed.

Lemma i32_abs_inv : forall z a, i32_abs z = Ok a -> a = Z.abs z.
Proof. intros z a; unfold i32_abs; destruct (z =? _); intro H; inversion H; reflexivity. Qed.

Lemma shrink_arith : forall f num, 0 <= num <= Z.abs f ->
  (f <= 0 -> f <= f - Z.sgn f * num <= 0) /\ (0 <= f -> 0 <= f - Z.sgn f * num <= f).
Proof.
  intros f num H; destruct (Z.lt_trichotomy f 0) as [Hf|[Hf|Hf]].
  - rewrite Z.sgn_neg, Z.abs_neq in * by lia; lia.
  - subst f; cbn in *; lia.
  - rewrite Z.sgn_pos, Z.abs_eq in * by lia; lia.
Qed.

Lemma opp_sgn_arith : forall R f1 f2,
  (f1 <= 0 /\ 0 < f2) \/ (0 <= f1 /\ f2 < 0) ->
  R * Z.min (Z.abs f1) (Z.abs f2) * Z.sgn f1 + R * Z.min (Z.abs f1) (Z.abs f2) * Z.sgn f2 = 0.
Proof.
  intros R f1 f2 [[H1 H2]|[H1 H2]].
  - destruct (Z.eq_dec f1 0) as [->|Hn]; [cbn; lia|].
    rewrite (Z.sgn_neg f1), (Z.sgn_pos f2) by lia; lia.
  - destruct (Z.eq_dec f1 0) as [->|Hn]; [cbn; lia|].
    rewrite (Z.sgn_pos f1), (Z.sgn_neg f2) by lia; lia.
Qed.

Lemma liab_with_food : forall o f, liab (with_food o f) = Z.max 0 (- rate o * f).
Proof. reflexivity. Qed.

Lemma fulfill_inv : forall N T st nw ex pending st' nw' ex',
  minv N T st (nw :: ex :: pending) ->
  (o_food nw <= 0 /\ 0 < o_food ex /\ rate ex <= rate nw) \/
  (0 <= o_food nw /\ o_food ex < 0 /\ rate nw <= rate ex) ->
  fulfill st nw ex = Ok (st', nw', ex') ->
  minv N T st' (nw' :: ex' :: pending) /\ bids st' = bids st /\ asks st' = asks st /\
  m_reserve st' = m_reserve st /\ shrinks nw nw' /\ shrinks ex ex'.
Proof.
  intros N T st nw ex pending st' nw' ex' Hinv Hside H.
  pose proof (minv_money_lt _ _ _ _ (o_index nw) Hinv) as Hm1.
  pose proof (minv_money_lt _ _ _ _ (o_index ex) Hinv) as Hm2.
  destruct Hinv as (L & S & HT & HR & M & Fb & Fa & ND & F).
  unfold book in ND, F; cbn [map app] in ND.
  inversion ND as [|? ? Nnw ND1]; subst; inversion ND1 as [|? ? Nex ND2]; subst.
  inversion F as [|? ? [Inw Lnw] F1]; subst; inversion F1 as [|? ? [Iex Lex] F2]; subst.
  assert (Hne : o_index nw <> o_index ex) by (intro E; apply Nnw; left; symmetry; exact E).
  unfold fulfill in H; obind_inv.
  repeat match goal with E : i32_abs _ = Ok _ |- _ => apply i32_abs_inv in E; subst end.
  chk_subst.
  set (num := Z.min (Z.abs (o_food nw)) (Z.abs (o_food ex))) in *.
  assert (Hnum : 0 <= num <= Z.abs (o_food nw) /\ num <= Z.abs (o_food ex)) by lia.
  match goal with E1 : settle (m_cells st) nw _ _ = Ok _ |- _ =>
    destruct (settle_ok _ _ _ _ _ _ E1 Hm1) as (Hi1 & Hlt1 & [f1 ->] & ->) end.
  match goal with E2 : settle _ ex _ _ = Ok _ |- _ =>
    destruct (settle_ok _ _ _ _ _ _ E2
      ltac:(rewrite nth_list_set_neq by (intro; apply Hne; auto); exact Hm2))
      as (Hi2 & Hlt2 & [f2 ->] & ->) end.
  rewrite nth_list_set_neq in Hlt2 by (intro; apply Hne; auto).
  rewrite length_list_set in Hi2.
  rewrite nth_list_set_neq by (intro; apply Hne; auto).
  set (m1 := money (nth (o_index nw) (m_cells st) default_cell)) in *.
  set (m2 := money (nth (o_index ex) (m_cells st) default_cell)) in *.
  assert (L1 : liab (with_food nw (o_food nw - Z.sgn (o_food nw) * num)) <=
               m1 + rate ex * num * Z.sgn (o_food nw)).
  { rewrite liab_with_food; unfold liab in Lnw; apply liab_step; lia. }
  assert (L2 : liab (with_food ex (o_food ex - Z.sgn (o_food ex) * num)) <=
               m2 + rate ex * num * Z.sgn (o_food ex)).
  { rewrite liab_with_food; unfold liab in Lex; apply liab_step; lia. }
  assert (Z1 := opp_sgn_arith (rate ex) (o_food nw) (o_food ex) ltac:(lia)).
  fold num in Z1.
  assert (0 <= liab (with_food nw (o_food nw - Z.sgn (o_food nw) * num))) by apply Z.le_max_l.
  assert (0 <= liab (with_food ex (o_food ex - Z.sgn (o_food ex) * num))) by apply Z.le_max_l.
  rewrite (as_u32_small (m1 + _)) by lia.
  rewrite (as_u32_small (m2 + _)) by lia.
  set (c1 := with_food_money (nth (o_index nw) (m_cells st) default_cell) f1
                             (m1 + rate ex * num * Z.sgn (o_food nw))).
  set (c2 := with_food_money (nth (o_index ex) (m_cells st) default_cell) f2
                             (m2 + rate ex * num * Z.sgn (o_food ex))).
  set (cells1 := list_set (m_cells st) (o_index nw) c1).
  assert (N1 : forall k, k <> o_index nw -> k <> o_index ex ->
          nth k (list_set cells1 (o_index ex) c2) default_cell = nth k (m_cells st) default_cell).
  { intros k K1 K2; unfold cells1; rewrite !nth_list_set_neq by auto; reflexivity. }
  assert (Q1 : nth (o_index nw) (list_set cells1 (o_index ex) c2) default_cell = c1).
  { unfold cells1; rewrite nth_list_set_neq by auto; apply nth_list_set_eq; lia. }
  assert (Q2 : nth (o_index ex) (list_set cells1 (o_index ex) c2) default_cell = c2).
  { apply nth_list_set_eq; unfold cells1; rewrite length_list_set; lia. }
  destruct (shrink_arith (o_food nw) num ltac:(lia)) as [Sn1 Sn2].
  destruct (shrink_arith (o_food ex) num ltac:(lia)) as [Se1 Se2].
  cbn [m_cells m_reserve bids asks]; split; [|split; [reflexivity|split; [reflexivity|split; [reflexivity|]]]].
  2: { unfold shrinks; cbn; repeat split; lia. }
  unfold minv, book; cbn [m_cells m_reserve bids asks]; repeat split.
  - unfold cells1; rewrite !length_list_set; reflexivity.
  - rewrite sum_money_list_set by (unfold cells1; rewrite length_list_set; lia).
    unfold cells1; rewrite nth_list_set_neq by auto.
    rewrite sum_money_list_set by lia.
    fold m2 m1; cbn; lia.
  - exact HT.
  - exact HR.
  - intro k.
    destruct (Nat.eq_dec k (o_index nw)) as [->|K1]; [rewrite Q1; cbn; lia|].
    destruct (Nat.eq_dec k (o_index ex)) as [->|K2]; [rewrite Q2; cbn; lia|].
    rewrite N1 by auto; apply M.
  - exact Fb.
  - exact Fa.
  - unfold book; cbn [map app]; constructor; [exact Nnw|constructor; [exact Nex|exact ND2]].
  - unfold book; cbn [app]; constructor; [|constructor].
    + cbn [o_index with_food]; split; [exact Inw|]; rewrite Q1; cbn; exact L1.
    + cbn [o_index with_food]; split; [exact Iex|]; rewrite Q2; cbn; exact L2.
    + apply Forall_forall; intros o Ho.
      rewrite Forall_forall in F2; destruct (F2 o Ho) as [Io Lo].
      split; [exact Io|].
      rewrite N1; [exact Lo| |].
      * intro E; apply Nnw; right; rewrite <- E; apply in_map; exact Ho.
      * intro E; apply Nex; rewrite <- E; apply in_map; exact Ho.
Qed.

Lemma fulfill_reserve_inv : forall N T st o pending st' o',
  minv N T st (o :: pending) -> 0 < o_food o -> rate o <= 1 ->
  fulfill_reserve st o = Ok (st', o') ->
  minv N T st' (o' :: pending) /\ bids st' = bids st /\ asks st' = asks st /\ shrinks o o'.
Proof.
  intros N T st o pending st' o' Hinv Hf Hr H.
  pose proof (minv_money_lt _ _ _ _ (o_index o) Hinv) as Hm.
  destruct Hinv as (L & S & HT & HR & M & Fb & Fa & ND & F).
  unfold book in ND, F; cbn [map app] in ND.
  inversion ND as [|? ? No ND1]; subst.
  inversion F as [|? ? [Io Lo] F1]; subst.
  assert (Hres : as_i32 (m_reserve st) = m_reserve st).
  { apply as_i32_small; pose proof (zsum_nonneg money (m_cells st)).
    assert (0 <= sum_money (m_cells st)).
    { apply zsum_nonneg; intros c Hc; apply In_nth with (d := default_cell) in Hc as (j & _ & <-); apply M. }
    lia. }
  unfold fulfill_reserve in H; rewrite Hres in H; obind_inv.
  destruct (index_inv _ _ _ default_cell E) as [_ ->].
  chk_subst.
  rewrite Z.sgn_pos in * by exact Hf.
  set (num := Z.min (o_food o) (m_reserve st)) in *.
  assert (Hn : 0 <= num <= o_food o) by lia.
  rewrite (as_i32_small (money _)) in * by exact Hm.
  rewrite (as_u32_small num) in * by lia.
  set (m := money (nth (o_index o) (m_cells st) default_cell)) in *.
  assert (L1 : liab (with_food o (o_food o - 1 * num)) <= m + 1 * num * 1).
  { rewrite liab_with_food; unfold liab in Lo.
    pose proof (liab_step (rate o) 1 (o_food o) num m) as LS.
    rewrite Z.sgn_pos, Z.abs_eq in LS by lia; apply LS; lia. }
  assert (0 <= liab (with_food o (o_food o - 1 * num))) by apply Z.le_max_l.
  rewrite (as_u32_small (m + _)) by lia.
  destruct (shrink_arith (o_food o) num ltac:(rewrite Z.abs_eq; lia)) as [_ Sn2].
  rewrite Z.sgn_pos in Sn2 by exact Hf.
  split; [|split; [reflexivity|split; [reflexivity|]]].
  2: { unfold shrinks; cbn [o_index rate o_food with_food]; repeat split; lia. }
  unfold minv, book; cbn [m_cells m_reserve bids asks]; repeat split.
  - apply length_list_set.
  - rewrite sum_money_list_set by assumption; cbn; fold m; lia.
  - exact HT.
  - lia.
  - intro k; destruct (Nat.eq_dec k (o_index o)) as [->|K].
    + rewrite nth_list_set_eq by assumption; cbn; lia.
    + rewrite nth_list_set_neq by exact K; apply M.
  - exact Fb.
  - exact Fa.
  - cbn [map app]; constructor; [exact No|exact ND1].
  - cbn [app]; constructor.
    + cbn [o_index with_food]; split; [exact Io|].
      rewrite nth_list_set_eq by assumption; cbn [money with_food_money]; lia.
    + apply Forall_forall; intros o2 Ho2.
      rewrite Forall_forall in F1; destruct (F1 o2 Ho2) as [Io2 Lo2].
      split; [exact Io2|].
      rewrite nth_list_set_neq; [exact Lo2|].
      intro Ei; apply No; rewrite <- Ei; apply in_map; exact Ho2.
Qed.

Lemma pop_best_perm : forall better h x rest, pop_best better h = Some (x, rest) ->
  Permutation h (x :: rest).
Proof.
  intros better h; induction h as [|o t IH]; intros x rest H; cbn in H; [discriminate|].
  destruct (pop_best better t) as [[b r]|] eqn:E.
  - specialize (IH _ _ eq_refl).
    destruct (better b o); injection H as <- <-.
    + rewrite IH; apply perm_swap.
    + reflexivity.
  - injection H as <- <-; destruct t as [|y t]; [reflexivity|].
    cbn in E; destruct (pop_best better t) as [[? ?]|]; [destruct (better _ _)|]; discriminate E.
Qed.

Lemma minv_bids : forall N T st L, minv N T st L -> Forall (fun o => o_food o < 0) (bids st).
Proof. intros N T st L H; apply H. Qed.

Lemma minv_asks : forall N T st L, minv N T st L -> Forall (fun o => 0 < o_food o) (asks st).
Proof. intros N T st L H; apply H. Qed.

Lemma minv_drop : forall N T st o L, minv N T st (o :: L) -> minv N T st L.
Proof.
  intros N T st o L H.
  apply (minv_shrink N T st (o :: L) st L [o]);
    [reflexivity|reflexivity|exact (minv_bids _ _ _ _ H)|exact (minv_asks _ _ _ _ H)|reflexivity|exact H].
Qed.

Lemma minv_drop2 : forall N T st a b L, minv N T st (a :: b :: L) -> minv N T st (a :: L).
Proof.
  intros N T st a b L H.
  apply (minv_shrink N T st (a :: b :: L) st (a :: L) [b]);
    [reflexivity|reflexivity|exact (minv_bids _ _ _ _ H)|exact (minv_asks _ _ _ _ H)| |exact H].
  unfold book; cbn; apply perm_swap.
Qed.

Lemma minv_pop_ask : forall N T st o L a rest, pop_min (asks st) = Some (a, rest) ->
  minv N T st (o :: L) -> minv N T (set_asks st rest) (o :: a :: L) /\ 0 < o_food a.
Proof.
  intros N T st o L a rest P H; apply pop_best_perm in P.
  pose proof (minv_asks _ _ _ _ H) as Fa.
  apply (Permutation_Forall P) in Fa; inversion Fa as [|? ? Ha Fr]; subst.
  split; [|exact Ha].
  apply (minv_shrink N T st (o :: L) _ _ []);
    [reflexivity|reflexivity|exact (minv_bids _ _ _ _ H)|exact Fr| |exact H].
  unfold book; cbn [app set_asks bids asks]; apply perm_skip.
  rewrite P, !app_assoc; apply Permutation_sym, Permutation_middle.
Qed.

Lemma minv_pop_bid : forall N T st o L b rest, pop_max (bids st) = Some (b, rest) ->
  minv N T st (o :: L) -> minv N T (set_bids st rest) (o :: b :: L) /\ o_food b < 0.
Proof.
  intros N T st o L b rest P H; apply pop_best_perm in P.
  pose proof (minv_bids _ _ _ _ H) as Fb.
  apply (Permutation_Forall P) in Fb; inversion Fb as [|? ? Hb Fr]; subst.
  split; [|exact Hb].
  apply (minv_shrink N T st (o :: L) _ _ []);
    [reflexivity|reflexivity|exact Fr|exact (minv_asks _ _ _ _ H)| |exact H].
  unfold book; cbn [app set_bids bids asks]; apply perm_skip.
  rewrite P; cbn [app]; apply Permutation_sym, Permutation_middle.
Qed.

Lemma minv_push_bid : forall N T st o L, minv N T st (o :: L) -> o_food o <= 0 ->
  minv N T (set_bids st (push_if_open (bids st) o)) L.
Proof.
  intros N T st o L H Ho; unfold push_if_open.
  destruct (o_food o =? 0) eqn:E.
  - apply (minv_shrink N T st (o :: L) _ L [o]);
      [reflexivity|reflexivity|exact (minv_bids _ _ _ _ H)|exact (minv_asks _ _ _ _ H)|reflexivity|exact H].
  - apply Z.eqb_neq in E.
    apply (minv_shrink N T st (o :: L) _ L []);
      [reflexivity|reflexivity| |exact (minv_asks _ _ _ _ H)| |exact H].
    + constructor; [cbn; lia|exact (minv_bids _ _ _ _ H)].
    + unfold book; cbn [app set_bids bids asks]; apply Permutation_middle.
Qed.

Lemma minv_push_ask : forall N T st o L, minv N T st (o :: L) -> 0 <= o_food o ->
  minv N T (set_asks st (push_if_open (asks st) o)) L.
Proof.
  intros N T st o L H Ho; unfold push_if_open.
  destruct (o_food o =? 0) eqn:E.
  - apply (minv_shrink N T st (o :: L) _ L [o]);
      [reflexivity|reflexivity|exact (minv_bids _ _ _ _ H)|exact (minv_asks _ _ _ _ H)|reflexivity|exact H].
  - apply Z.eqb_neq in E.
    apply (minv_shrink N T st (o :: L) _ L []);
      [reflexivity|reflexivity|exact (minv_bids _ _ _ _ H)| | |exact H].
    + constructor; [cbn; lia|exact (minv_asks _ _ _ _ H)].
    + unfold book; cbn [app set_asks bids asks]; rewrite app_assoc.
      rewrite (app_assoc L (bids st)); apply Permutation_middle.
Qed.

Lemma minv_swap : forall N T st a b L, minv N T st (a :: b :: L) -> minv N T st (b :: a :: L).
Proof.
  intros N T st a b L H.
  apply (minv_shrink N T st (a :: b :: L) st (b :: a :: L) []);
    [reflexivity|reflexivity|exact (minv_bids _ _ _ _ H)|exact (minv_asks _ _ _ _ H)| |exact H].
  unfold book; cbn; apply perm_swap.
Qed.

Lemma bid_loop_inv : forall N T fuel st o pending st',
  minv N T st (o :: pending) -> o_food o < 0 -> bid_loop fuel st o = Ok st' ->
  minv N T st' pending.
Proof.
  intros N T fuel; induction fuel as [|fuel IH]; intros st o pending st' Hinv Ho H;
    cbn [bid_loop] in H.
  - injection H as <-; exact (minv_drop _ _ _ _ _ Hinv).
  - destruct (pop_min (asks st)) as [[ask rest]|] eqn:P.
    + destruct (minv_pop_ask _ _ _ _ _ _ _ P Hinv) as [H1 Ha].
      destruct (rate o <? rate ask) eqn:R.
      * injection H as <-.
        exact (minv_push_bid _ _ (set_asks st rest) _ _ (minv_drop2 _ _ _ _ _ _ H1) ltac:(lia)).
      * apply Z.ltb_ge in R; obind_inv.
        match goal with E : fulfill _ _ _ = Ok _ |- _ =>
          destruct (fulfill_inv _ _ _ _ _ _ _ _ _ H1 ltac:(left; lia) E)
            as (H2 & Hb & Has & _ & (_ & _ & So1 & _) & (_ & _ & _ & Sa2)) end.
        apply minv_swap, minv_push_ask in H2; [|lia].
        destruct (Z.eqb _ 0) eqn:Z0 in H.
        -- injection H as <-; exact (minv_drop _ _ _ _ _ H2).
        -- apply Z.eqb_neq in Z0; exact (IH _ _ _ _ H2 ltac:(lia) H).
    + unfold REPO in H; cbn [andb] in H; obind_inv.
      exact (minv_push_bid _ _ _ _ _ Hinv ltac:(lia)).
Qed.

Lemma reserve_branch_inv : forall N T (b : bool) st o L st2 o2,
  minv N T st (o :: L) -> 0 < o_food o -> (b = true -> rate o <= 1) ->
  (if b then fulfill_reserve st o else Ok (st, o)) = Ok (st2, o2) ->
  minv N T st2 (o2 :: L) /\ bids st2 = bids st /\ asks st2 = asks st /\ shrinks o o2.
Proof.
  intros N T [|] st o L st2 o2 H Ho Hr E.
  - exact (fulfill_reserve_inv _ _ _ _ _ _ _ H Ho (Hr eq_refl) E).
  - injection E as <- <-; split; [exact H|]; unfold shrinks; repeat split; auto; intros; lia.
Qed.

Lemma ask_loop_inv : forall N T fuel st o pending st',
  minv N T st (o :: pending) -> 0 < o_food o -> ask_loop fuel st o = Ok st' ->
  minv N T st' pending.
Proof.
  intros N T fuel; induction fuel as [|fuel IH]; intros st o pending st' Hinv Ho H;
    cbn [ask_loop] in H.
  - injection H as <-; exact (minv_drop _ _ _ _ _ Hinv).
  - destruct (pop_max (bids st)) as [[bid rest]|] eqn:P.
    + destruct (minv_pop_bid _ _ _ _ _ _ _ P Hinv) as [H1 Hb].
      destruct (rate bid <? rate o) eqn:R.
      * obind_inv.
        destruct (reserve_branch_inv _ _ _ _ _ _ _ _ H1 Ho
                    ltac:(intro X; apply Z.leb_le in X; exact X) E)
          as (H2 & _ & _ & (_ & _ & _ & S2)).
        exact (minv_push_ask _ _ _ _ _ (minv_drop2 _ _ _ _ _ _ H2) ltac:(lia)).
      * apply Z.ltb_ge in R; obind_inv.
        destruct (reserve_branch_inv _ _ (rate bid <? 1) _ _ _ _ _ H1 Ho
                    ltac:(intro X; apply Z.ltb_lt in X; lia) E)
          as (H2 & _ & _ & (_ & Rr & _ & S2)).
        match goal with E' : fulfill _ _ _ = Ok _ |- _ =>
          destruct (fulfill_inv _ _ _ _ _ _ _ _ _ H2 ltac:(right; lia) E')
            as (H3 & _ & _ & _ & (_ & _ & _ & So1) & (_ & _ & Sb1 & _)) end.
        apply minv_swap, minv_push_bid in H3; [|lia].
        destruct (Z.eqb _ 0) eqn:Z0 in H.
        -- injection H as <-; exact (minv_drop _ _ _ _ _ H3).
        -- apply Z.eqb_neq in Z0; exact (IH _ _ _ _ H3 ltac:(lia) H).
    + obind_inv.
      destruct (reserve_branch_inv _ _ _ _ _ _ _ _ Hinv Ho
                  ltac:(intro X; apply Z.leb_le in X; exact X) E)
        as (H2 & _ & _ & (_ & _ & _ & S2)).
      exact (minv_push_ask _ _ _ _ _ H2 ltac:(lia)).
Qed.

Lemma market_inv : forall N T orders st st', minv N T st orders ->
  market st orders = Ok st' -> minv N T st' [].
Proof.
  intros N T orders; induction orders as [|o os IH]; intros st st' Hinv H; cbn [market] in H.
  - injection H as <-; exact Hinv.
  - unfold intent in H.
    destruct (o_food o <? 0) eqn:B; [|destruct (0 <? o_food o) eqn:A]; obind_inv.
    + apply Z.ltb_lt in B; exact (IH _ _ (bid_loop_inv _ _ _ _ _ _ _ Hinv B E) H).
    + apply Z.ltb_lt in A; exact (IH _ _ (ask_loop_inv _ _ _ _ _ _ _ Hinv A E) H).
    + exact (IH _ _ (minv_drop _ _ _ _ _ Hinv) H).
Qed.

(** ** A tick *)

Lemma extract_orders_spec : forall cells i,
  Forall (fun o => (i <= o_index o < i + length cells)%nat /\
    trade (nth (o_index o - i) cells default_cell) = Some (mkTrade (rate o) (o_food o)))
    (extract_orders i cells) /\
  NoDup (map o_index (extract_orders i cells)).
Proof.
  induction cells as [|c cs IH]; intro i; cbn [extract_orders].
  - split; constructor.
  - destruct (IH (S i)) as [F ND].
    assert (F' : Forall (fun o => (i <= o_index o < i + length (c :: cs))%nat /\
       trade (nth (o_index o - i) (c :: cs) default_cell) = Some (mkTrade (rate o) (o_food o)))
       (extract_orders (S i) cs)).
    { apply (Forall_impl _ (P := fun o => (S i <= o_index o < S i + length cs)%nat /\
         trade (nth (o_index o - S i) cs default_cell) = Some (mkTrade (rate o) (o_food o))));
        [|exact F].
      intros o [Hr Ht]; cbn [length]; split; [lia|].
      replace (o_index o - i)%nat with (S (o_index o - S i)) by lia; exact Ht. }
    destruct (trade c) as [t|] eqn:Tc.
    + split.
      * constructor; [|exact F']; cbn; split; [lia|].
        rewrite Nat.sub_diag; cbn; rewrite Tc; destruct t; reflexivity.
      * cbn [map]; constructor; [|exact ND].
        intro Hin; apply in_map_iff in Hin as (o & Eo & Ho).
        rewrite Forall_forall in F; specialize (F o Ho); cbn in Eo; lia.
    + split; [exact F'|exact ND].
Qed.

Lemma sweep_money : forall cells r cells' r', sweep cells r = Ok (cells', r') ->
  Forall (fun c => 0 <= money c) cells ->
  sum_money cells' + r' = sum_money cells + r /\ r <= r' /\
  Forall (fun c => 0 <= money c) cells'.
Proof.
  unfold sum_money; induction cells as [|c cs IH]; intros r cells' r' H F; cbn [sweep] in H.
  - injection H as <- <-; cbn; split; [|split]; [lia|lia|constructor].
  - inversion F as [|? ? Fc Fcs]; subst.
    obind_inv.
    destruct (CellType_eqb (ty c) Wall); obind_inv; chk_subst.
    + destruct (IH _ _ _ E0 Fcs) as (S & R & F'); cbn in *; split; [|split]; [lia|lia|].
      constructor; [cbn; lia|exact F'].
    + destruct (IH _ _ _ E0 Fcs) as (S & R & F'); cbn in *; split; [|split]; [lia|lia|].
      constructor; assumption.
Qed.

Lemma nth_nonneg_Forall : forall l, (forall k, 0 <= money (nth k l default_cell)) ->
  Forall (fun c => 0 <= money c) l.
Proof.
  intros l H; apply Forall_forall; intros c Hc.
  apply In_nth with (d := default_cell) in Hc as (k & _ & <-); apply H.
Qed.

Lemma Forall_nth_nonneg : forall l, Forall (fun c => 0 <= money c) l ->
  forall k, 0 <= money (nth k l default_cell).
Proof.
  intros l H k; destruct (Nat.lt_ge_cases k (length l)) as [Hk|Hk].
  - rewrite Forall_forall in H; apply H, nth_In, Hk.
  - rewrite nth_overflow by lia; cbn; lia.
Qed.

Lemma reserve_total_ok : forall w h, Z.of_nat (w * h) * RESERVE_MULTIPLIER < 2 ^ 31 ->
  reserve_total w h = Ok (Z.of_nat (w * h) * RESERVE_MULTIPLIER).
Proof.
  intros w h H; unfold reserve_total, RESERVE_MULTIPLIER in *.
  assert (E : as_u32 (Z.of_nat w) * as_u32 (Z.of_nat h) = Z.of_nat (w * h)).
  { destruct w as [|w]; [reflexivity|]; destruct h as [|h]; [rewrite Nat.mul_0_r; cbn; lia|].
    rewrite Nat2Z.inj_mul in *.
    rewrite !as_u32_small; [reflexivity| |]; nia. }
  rewrite E, chk_u32_ok by lia; cbn [obind]; rewrite chk_u32_ok by lia; reflexivity.
Qed.

Lemma sum_money_take_trades : forall l, sum_money (take_trades l) = sum_money l.
Proof.
  intro l; unfold sum_money, take_trades; rewrite map_map; reflexivity.
Qed.

Lemma market_start_inv : forall N T cells0 cells1 R orders,
  length cells1 = N -> sum_money cells1 + R = T -> T < 2 ^ 31 -> 0 <= R ->
  (forall k, 0 <= money (nth k cells0 default_cell) < 2 ^ 31) ->
  (forall k, 0 <= money (nth k cells1 default_cell)) ->
  (forall k t, trade (nth k cells1 default_cell) = Some t ->
     - t_rate t * t_food t <= as_i32 (money (nth k cells0 default_cell)) /\
     money (nth k cells0 default_cell) <= money (nth k cells1 default_cell)) ->
  Permutation orders (extract_orders 0 cells1) ->
  minv N T (market_start (take_trades cells1) R) orders.
Proof.
  intros N T cells0 cells1 R orders L S HT HR H0 H1 Htr P.
  destruct (extract_orders_spec cells1 0) as [F ND].
  unfold minv, market_start, book; cbn [m_cells m_reserve bids asks app].
  rewrite app_nil_r, length_take_trades, sum_money_take_trades.
  split; [exact L|]. split; [exact S|]. split; [exact HT|]. split; [exact HR|].
  split; [intro k; rewrite nth_take_trades; apply H1|].
  split; [constructor|]. split; [constructor|].
  split.
  - apply (Permutation_NoDup (Permutation_sym (Permutation_map o_index P))), ND.
  - apply (Permutation_Forall (Permutation_sym P)).
    apply (Forall_impl _ (P := fun o => (0 <= o_index o < 0 + length cells1)%nat /\
       trade (nth (o_index o - 0) cells1 default_cell) = Some (mkTrade (rate o) (o_food o))));
      [|exact F].
    intros o [Hr Ht]; rewrite Nat.sub_0_r in Ht; split; [lia|].
    rewrite nth_take_trades; cbn [money with_trade].
    destruct (Htr _ _ Ht) as [Hl Hle]; cbn [t_rate t_food] in Hl.
    rewrite as_i32_small in Hl by apply H0.
    specialize (H1 (o_index o)); unfold liab; lia.
Qed.

Lemma tick_core : forall nb w h s dec ud r cells1 st cells2 reserve2,
  (forall i d, (i < w * h)%nat -> (nb i d < w * h)%nat) ->
  (forall i d, (i < w * h)%nat -> nb (nb i d) (flip d) = i) ->
  Z.of_nat (w * h) * RESERVE_MULTIPLIER < 2 ^ 31 ->
  sinv w h (Z.of_nat (w * h) * RESERVE_MULTIPLIER) s ->
  cycle nb (grid s) dec ud = Ok cells1 ->
  market (market_start (take_trades cells1) (reserve s))
    (fst (shuffle (extract_orders 0 cells1) r)) = Ok st ->
  sweep (m_cells st) (m_reserve st) = Ok (cells2, reserve2) ->
  sum_money cells2 + reserve2 = Z.of_nat (w * h) * RESERVE_MULTIPLIER /\
  0 <= reserve2 /\ length cells2 = (w * h)%nat /\
  (forall k, 0 <= money (nth k cells2 default_cell)) /\
  (forall k, trade (nth k cells2 default_cell) = None).
Proof.
  intros nb w h s dec ud r cells1 st cells2 reserve2 Hlt Hfl HT
    (Ew & Eh & L & S & HR & Hm & Ht & W) C M Sw.
  set (T := Z.of_nat (w * h) * RESERVE_MULTIPLIER) in *.
  destruct (cycle_money nb (w * h) Hlt Hfl (grid s) dec ud cells1 L Hm
              (fun k Hk => proj2 (W k Hk)) Ht C) as (S1 & Hm1 & Htr).
  assert (Lc : length cells1 = (w * h)%nat).
  { destruct (cycle_frame _ _ _ _ _ C) as [Lw _]; congruence. }
  assert (I0 : minv (w * h) T (market_start (take_trades cells1) (reserve s))
                 (fst (shuffle (extract_orders 0 cells1) r))).
  { apply (market_start_inv _ _ (grid s)); try assumption.
    - lia.
    - intro k; split; [apply Hm|].
      pose proof (money_le_sum (grid s) k Hm); lia.
    - apply shuffle_perm. }
  destruct (market_inv _ _ _ _ _ I0 M) as (Lm & Sm & _ & Rm & Hmm & _).
  destruct (sweep_money _ _ _ _ Sw (nth_nonneg_Forall _ Hmm)) as (S2 & R2 & F2).
  destruct (sweep_frame _ _ _ _ Sw) as [[L2 Fr2] _].
  destruct (market_frame _ _ _ M) as [_ Frm].
  split; [lia|]. split; [lia|]. split; [congruence|].
  split; [apply Forall_nth_nonneg, F2|].
  intro k; destruct (Fr2 k) as (_ & _ & ->); destruct (Frm k) as (_ & _ & ->).
  cbn [market_start m_cells]; rewrite nth_take_trades; reflexivity.
Qed.

Lemma tick_sinv : forall nb w h dec ud r s,
  (forall i d, (i < w * h)%nat -> (nb i d < w * h)%nat) ->
  (forall i d, (i < w * h)%nat -> nb (nb i d) (flip d) = i) ->
  Z.of_nat (w * h) * RESERVE_MULTIPLIER < 2 ^ 31 ->
  sinv w h (Z.of_nat (w * h) * RESERVE_MULTIPLIER) s ->
  (forall s', tick nb dec ud r s = Ok s' ->
     sinv w h (Z.of_nat (w * h) * RESERVE_MULTIPLIER) s') /\
  tick nb dec ud r s <> Panic AssertionFailed.
Proof.
  intros nb w h dec ud r s Hlt Hfl HT I.
  split.
  - intros s' H.
    pose proof (tick_winv _ _ _ _ _ _ H (proj2 (proj2 (proj2 (proj2 (proj2 (proj2 (proj2 I)))))))) as W'.
    pose proof I as (Ew & Eh & _).
    unfold tick in H; obind_inv.
    destruct (tick_core _ _ _ _ _ _ _ _ _ _ _ Hlt Hfl HT I E E0 E1) as (S & R & L & Hm & Ht).
    match type of H with context [if ?b then _ else _] => destruct b end; [|discriminate H].
    injection H as <-; unfold sinv; cbn [grid width height reserve] in *.
    refine (conj _ (conj _ (conj _ (conj _ (conj _ (conj _ (conj _ _))))))); assumption.
  - intro H; unfold tick in H.
    apply obind_assert in H as (cells1 & C & H); [|apply cycle_na].
    cbv beta zeta in H.
    apply obind_assert in H as (st & M & H); [|apply market_na].
    apply obind_assert in H as ([cells2 reserve2] & Sw & H); [|apply sweep_na].
    cbv beta iota in H.
    apply obind_assert in H as (total & Su & H); [|apply sum_u32_from_na].
    apply obind_assert in H as (lhs & Cl & H); [|apply chk_u32_na].
    apply obind_assert in H as (rhs & Rt & H); [|apply reserve_total_na].
    destruct (tick_core _ _ _ _ _ _ _ _ _ _ _ Hlt Hfl HT I C M Sw) as (S & _).
    destruct I as (Ew & Eh & _).
    apply sum_u32_ok in Su; apply chk_u32_inv in Cl as [Cl _].
    rewrite Ew, Eh, reserve_total_ok in Rt by exact HT; injection Rt as <-.
    replace (lhs =? Z.of_nat (w * h) * RESERVE_MULTIPLIER) with true in H; [discriminate H|].
    symmetry; apply Z.eqb_eq; rewrite Cl, Su, <- S; reflexivity.
Qed.

Lemma new_sim_sinv : forall w h tys s, length tys = (w * h)%nat ->
  Z.of_nat (w * h) * RESERVE_MULTIPLIER < 2 ^ 31 ->
  new_sim w h tys = Ok s -> sinv w h (Z.of_nat (w * h) * RESERVE_MULTIPLIER) s.
Proof.
  intros w h tys s L HT H; unfold new_sim in H.
  rewrite reserve_total_ok in H by exact HT; cbn [obind] in H; injection H as <-.
  assert (Nth : forall k, nth k (map (fun t => mkCell 0 0 t 0%float None None) tys) default_cell =
            mkCell 0 0 (nth k tys Empty) 0%float None None).
  { intro k; destruct (Nat.lt_ge_cases k (length tys)) as [Hk|Hk].
    - apply (map_nth (fun t => mkCell 0 0 t 0%float None None)).
    - rewrite !nth_overflow by (rewrite ?length_map; lia); reflexivity. }
  unfold sinv; cbn [grid width height reserve].
  split; [reflexivity|]. split; [reflexivity|]. split; [rewrite length_map; exact L|].
  split.
  - unfold sum_money; rewrite map_map; cbn [money].
    assert (Z0 : forall l : list CellType, fold_right Z.add 0 (map (fun _ => 0) l) = 0)
      by (induction l; cbn; lia).
    rewrite Z0; lia.
  - split; [unfold RESERVE_MULTIPLIER; lia|].
    split; [intro k; rewrite Nth; cbn; lia|].
    split; [intro k; rewrite Nth; reflexivity|].
    intros k _; rewrite Nth; split; reflexivity.
Qed.

Lemma reachable_sinv : forall nb w h s,
  (forall i d, (i < w * h)%nat -> (nb i d < w * h)%nat) ->
  (forall i d, (i < w * h)%nat -> nb (nb i d) (flip d) = i) ->
  Z.of_nat (w * h) * RESERVE_MULTIPLIER < 2 ^ 31 ->
  reachable nb w h s -> sinv w h (Z.of_nat (w * h) * RESERVE_MULTIPLIER) s.
Proof.
  intros nb w h s Hlt Hfl HT H; induction H as [tys s L E|s dec ud r s' Hr IH E].
  - exact (new_sim_sinv _ _ _ _ L HT E).
  - exact (proj1 (tick_sinv nb w h dec ud r s Hlt Hfl HT IH) s' E).
Qed.

(** ** Runs on a 2x2 torus

    [torus w h] is the neighbour map of a wrapping [w * h] grid. The runs
    below start from [Sim::new] with a wall at cell 2: a brain spawns in
    cell 0, sells five food to the reserve, then moves into the wall. *)

Definition torus (w h : nat) (i : nat) (d : MooreDirection) : nat :=
  let x := Nat.modulo i w in let y := Nat.div i w in
  match d with
  | Right => (y * w + Nat.modulo (x + 1) w)%nat
  | Up => (Nat.modulo (y + h - 1) h * w + x)%nat
  | Left => (y * w + Nat.modulo (x + w - 1) w)%nat
  | Down => (Nat.modulo (y + 1) h * w + x)%nat
  end.

Definition settler : Brain := mkBrain 0%float 0 0 [0%float] (mkDna [] []).
Definition spawn_first (i : nat) : UpdateDraws :=
  mkUpdateDraws (fun _ => settler) false (fun b => b) (Nat.eqb i 0) settler false 0.
Definition sell_first (i : nat) : Decision :=
  match i with 0%nat => DTrade 1 5 | _ => DNothing end.
Definition move_first (i : nat) : Decision :=
  match i with 0%nat => DMove Down | _ => DNothing end.
Definition rng0 : Rng := mkRng (fun _ => 0) 0.
Definition torus_types : list CellType := [Empty; Empty; Wall; Empty].

Lemma torus_lt : forall i d, (i < 2 * 2)%nat -> (torus 2 2 i d < 2 * 2)%nat.
Proof.
  intros i d Hi; destruct d; do 4 (destruct i as [|i]; [apply Nat.ltb_lt; reflexivity|]); lia.
Qed.

Lemma torus_flip : forall i d, (i < 2 * 2)%nat -> torus 2 2 (torus 2 2 i d) (flip d) = i.
Proof.
  intros i d Hi; destruct d; do 4 (destruct i as [|i]; [reflexivity|]); lia.
Qed.

Ltac run_tick Hs0 s0 nb dec ud r s1 E1 Hs1 :=
  destruct (tick nb dec ud r s0) as [s1|?] eqn:E1;
  [|rewrite <- Hs0 in E1; vm_compute in E1; discriminate E1];
  let E' := fresh in pose proof E1 as E'; rewrite <- Hs0 in E'; vm_compute in E';
  injection E' as Hs1.

(** C9: in every state reachable from [Sim::new] by ticks, every wall cell
    holds no money and no brain; and updating a wall cell never changes its
    type or its brain, so no update installs a brain into a wall. *)
Theorem wall_immunity : forall nb w h s, reachable nb w h s ->
  (forall c, In c (grid s) -> ty c = Wall -> money c = 0 /\ brain c = None) /\
  (forall c dif mv u c', ty c = Wall -> update c dif mv u = Ok c' ->
     ty c' = Wall /\ brain c' = brain c).
Proof.
  intros nb w h s H; split.
  - intros c Hin Hw.
    apply In_nth with (d := default_cell) in Hin as (k & _ & <-).
    exact (reachable_winv _ _ _ _ H k Hw).
  - intros c dif mv u c' Hw U.
    destruct (update_frame _ _ _ _ _ U) as [Ht Hb].
    split; [congruence|exact (proj1 (Hb Hw))].
Qed.

Lemma wall_immunity_witness :
  exists s, reachable (torus 2 2) 2 2 s /\ reserve s = 256 /\
    ty (nth 2 (grid s) default_cell) = Wall /\
    money (nth 2 (grid s) default_cell) = 0 /\ brain (nth 2 (grid s) default_cell) = None.
Proof.
  destruct (new_sim 2 2 torus_types) as [s0|p] eqn:E0; [|vm_compute in E0; discriminate E0].
  pose proof E0 as E'; vm_compute in E'; injection E' as Hs0.
  run_tick Hs0 s0 (torus 2 2) (fun _ : nat => DNothing) spawn_first rng0 s1 E1 Hs1.
  run_tick Hs1 s1 (torus 2 2) sell_first (fun _ : nat => idle_draws) rng0 s2 E2 Hs2.
  run_tick Hs2 s2 (torus 2 2) move_first (fun _ : nat => idle_draws) rng0 s3 E3 Hs3.
  assert (R : reachable (torus 2 2) 2 2 s3).
  { eapply reach_tick; [eapply reach_tick; [eapply reach_tick; [eapply reach_new|]|]|];
      [|exact E0|exact E1|exact E2|exact E3].
    reflexivity. }
  assert (W : ty (nth 2 (grid s3) default_cell) = Wall) by (rewrite <- Hs3; reflexivity).
  exists s3; split; [exact R|split; [rewrite <- Hs3; reflexivity|split; [exact W|]]].
  apply (proj1 (wall_immunity (torus 2 2) 2 2 s3 R)); [|exact W].
  apply nth_In; rewrite <- Hs3; apply Nat.ltb_lt; reflexivity.
Defined.

(** C1: on a torus of [w * h] cells small enough for the reserve to fit an
    [i32] ([w * h * RESERVE_MULTIPLIER < 2^31]), [Sim::new] sets every cell's
    money to 0 and the reserve to [w * h * RESERVE_MULTIPLIER], and in every
    state reachable by ticks the money of the cells plus the reserve equals
    [w * h * RESERVE_MULTIPLIER]; the conservation check at the end of a
    tick never fails. *)
Theorem money_conservation : forall nb w h,
  (forall i d, (i < w * h)%nat -> (nb i d < w * h)%nat) ->
  (forall i d, (i < w * h)%nat -> nb (nb i d) (flip d) = i) ->
  Z.of_nat (w * h) * RESERVE_MULTIPLIER < 2 ^ 31 ->
  (forall tys s, new_sim w h tys = Ok s ->
     Forall (fun c => money c = 0) (grid s) /\
     reserve s = Z.of_nat (w * h) * RESERVE_MULTIPLIER) /\
  (forall s, reachable nb w h s ->
     sum_money (grid s) + reserve s = Z.of_nat (w * h) * RESERVE_MULTIPLIER /\
     forall dec ud r, tick nb dec ud r s <> Panic AssertionFailed).
Proof.
  intros nb w h Hlt Hfl HT; split.
  - intros tys s H; unfold new_sim in H.
    rewrite reserve_total_ok in H by exact HT; cbn [obind] in H; injection H as <-.
    cbn [grid reserve]; split; [|reflexivity].
    apply Forall_forall; intros c Hc; apply in_map_iff in Hc as (t & <- & _); reflexivity.
  - intros s H; pose proof (reachable_sinv nb w h s Hlt Hfl HT H) as I.
    split; [exact (proj1 (proj2 (proj2 (proj2 I))))|].
    intros dec ud r; exact (proj2 (tick_sinv nb w h dec ud r s Hlt Hfl HT I)).
Qed.

Lemma money_conservation_witness :
  exists s, reachable (torus 2 2) 2 2 s /\
    money (nth 0 (grid s) default_cell) = 5 /\ reserve s = 251 /\
    sum_money (grid s) + reserve s = Z.of_nat (2 * 2) * RESERVE_MULTIPLIER.
Proof.
  destruct (new_sim 2 2 torus_types) as [s0|p] eqn:E0; [|vm_compute in E0; discriminate E0].
  pose proof E0 as E'; vm_compute in E'; injection E' as Hs0.
  run_tick Hs0 s0 (torus 2 2) (fun _ : nat => DNothing) spawn_first rng0 s1 E1 Hs1.
  run_tick Hs1 s1 (torus 2 2) sell_first (fun _ : nat => idle_draws) rng0 s2 E2 Hs2.
  assert (R : reachable (torus 2 2) 2 2 s2).
  { eapply reach_tick; [eapply reach_tick; [eapply reach_new|]|]; [|exact E0|exact E1|exact E2].
    reflexivity. }
  exists s2; split; [exact R|split; [rewrite <- Hs2; reflexivity|split; [rewrite <- Hs2; reflexivity|]]].
  apply (proj1 (proj2 (money_conservation (torus 2 2) 2 2 torus_lt torus_flip
                          ltac:(unfold RESERVE_MULTIPLIER; cbn; lia)) s2 R)).
Defined.

End SimFacts.

Module GenomeFacts.
Import Brain BrainFacts.

(** ** [Brain::decide] *)

Lemma decide_gene_eq : forall inputs b d e, decide_gene inputs (b, d) e =
  (a <- execute (code b) inputs (memory b) e ;;
  match a with
  | AWrite pos v =>
      if Nat.eqb (length (memory b)) 0 then Panic RemainderByZero
      else Ok (with_memory b (list_set (memory b)
                 (Nat.modulo (Z.to_nat pos) (length (memory b))) v), d)
  | ARotateLeft => Ok (with_rotation b (Nat.modulo (rotation b + 1) 4), d)
  | ARotateRight => Ok (with_rotation b (Nat.modulo (rotation b + 3) 4), d)
  | action => d <- decision_of_action action ;; Ok (b, d)
  end).
Proof. reflexivity. Qed.

Lemma decide_gene_shape : forall inputs b d e b' d',
  decide_gene inputs (b, d) e = Ok (b', d') ->
  color b' = color b /\ generation b' = generation b /\ code b' = code b /\
  length (memory b') = length (memory b) /\ ((rotation b < 4)%nat -> (rotation b' < 4)%nat).
Proof.
  intros inputs b d e b' d' H; rewrite decide_gene_eq in H.
  destruct (execute (code b) inputs (memory b) e) as [a|p]; cbn [obind] in H; [|discriminate].
  assert (Hr : forall m, (m < 4)%nat -> b' = with_rotation b m ->
    color b' = color b /\ generation b' = generation b /\ code b' = code b /\
    length (memory b') = length (memory b) /\ ((rotation b < 4)%nat -> (rotation b' < 4)%nat)).
  { intros m Hm ->; repeat split; auto. }
  destruct a; cbn [decision_of_action obind] in H.
  - destruct (Nat.eqb (length (memory b)) 0); [discriminate|].
    injection H as <- <-; unfold with_memory; cbn [color generation code memory rotation].
    rewrite SimFacts.length_list_set; repeat split; auto.
  - injection H as <- <-; repeat split; auto.
  - injection H as <- <-; repeat split; auto.
  - injection H as <- <-; repeat split; auto.
  - apply (Hr (Nat.modulo (rotation b + 1) 4)); [apply Nat.mod_upper_bound; lia|congruence].
  - apply (Hr (Nat.modulo (rotation b + 3) 4)); [apply Nat.mod_upper_bound; lia|congruence].
  - injection H as <- <-; repeat split; auto.
Qed.

Lemma obind_Ok_inv : forall {A B} (m : Outcome A) (f : A -> Outcome B) y,
  obind m f = Ok y -> exists x, m = Ok x /\ f x = Ok y.
Proof. intros A B [x|p] f y H; [exists x; split; [reflexivity|exact H]|discriminate]. Qed.

Lemma decide_loop_cons : forall inputs st e es,
  decide_loop inputs st (e :: es) = obind (decide_gene inputs st e) (fun st' => decide_loop inputs st' es).
Proof. reflexivity. Qed.

Lemma decide_loop_shape : forall inputs es b d b' d',
  decide_loop inputs (b, d) es = Ok (b', d') ->
  color b' = color b /\ generation b' = generation b /\ code b' = code b /\
  length (memory b') = length (memory b) /\ ((rotation b < 4)%nat -> (rotation b' < 4)%nat).
Proof.
  intros inputs es; induction es as [|e es IH]; intros b d b' d' H.
  - injection H as <- <-; repeat split; auto.
  - rewrite decide_loop_cons in H.
    apply obind_Ok_inv in H; destruct H as [[b1 d1] [E H]].
    destruct (decide_gene_shape _ _ _ _ _ _ E) as (C1 & G1 & K1 & M1 & R1).
    destruct (IH _ _ _ _ H) as (C2 & G2 & K2 & M2 & R2).
    repeat split; try congruence; auto.
Qed.

Lemma decide_fst : forall b r inputs, fst (decide b r inputs) =
  (st <- decide_loop inputs (b, DNothing) (fst (shuffle (entries (code b)) r)) ;;
   let (b', d) := st in Ok (b', rotate b' d)).
Proof. intros b r inputs; unfold decide; destruct (shuffle (entries (code b)) r); reflexivity. Qed.

(** [Brain::decide] changes only the registers and the rotation of a brain:
    its hue, generation and genome are kept, it keeps [NUM_STATE]
    registers, and a rotation below 4 stays below 4. *)
Theorem decide_keeps_brain_shape : forall b r inputs b' d,
  fst (decide b r inputs) = Ok (b', d) ->
  color b' = color b /\ generation b' = generation b /\ code b' = code b /\
  length (memory b') = length (memory b) /\ ((rotation b < 4)%nat -> (rotation b' < 4)%nat).
Proof.
  intros b r inputs b' d H; rewrite decide_fst in H.
  apply obind_Ok_inv in H; destruct H as [[b1 d1] [E H]].
  injection H as <- _.
  exact (decide_loop_shape _ _ _ _ _ _ E).
Qed.

(** ** [Dna::execute] *)

Lemma index_some : forall {A} (l : list A) i, (i < length l)%nat -> exists a, index l i = Ok a.
Proof.
  intros A l i H; unfold index; destruct (nth_error l i) as [a|] eqn:E;
    [exists a; reflexivity|apply nth_error_None in E; lia].
Qed.

Lemma exec_loop_panics_only_on_copy : forall sq inputs mem fuel stack at_ p,
  Forall codon_ok sq -> length mem = NUM_STATE -> inputs <> [] ->
  (at_ < length sq)%nat -> p <> SubtractOverflow ->
  exec_loop sq inputs mem fuel stack at_ <> Panic p.
Proof.
  intros sq inputs mem fuel; induction fuel as [|fuel IH];
    intros stack at_ p Hok Hm Hin Hat Hp; simpl.
  - discriminate.
  - assert (Hnext : (Nat.modulo (S at_) (length sq) < length sq)%nat)
      by (apply Nat.mod_upper_bound; lia).
    unfold index at 1; destruct (nth_error sq at_) as [c|] eqn:Ec;
      [|apply nth_error_None in Ec; lia].
    cbn [obind].
    assert (Hc : codon_ok c) by (rewrite Forall_forall in Hok; apply Hok; eapply nth_error_In; exact Ec).
    destruct c; cbn [codon_ok] in Hc;
      repeat match goal with
      | |- context [if ?x then _ else _] => destruct x eqn:?
      | |- context [match ?x with _ => _ end] =>
          lazymatch x with
          | exec_loop _ _ _ _ _ _ => fail
          | _ => destruct x
          end
      end; cbn [obind]; try discriminate; try (apply IH; assumption).
    all: try congruence.
    all: try (apply Nat.eqb_eq in Heqb; destruct inputs; [congruence|discriminate]).
    all: match goal with |- obind (index ?l ?i) _ <> _ =>
           assert (Hi : (i < length l)%nat); [|destruct (index_some l i Hi) as [x Ex];
                                              rewrite Ex; cbn [obind]; apply IH; assumption]
         end.
    + apply orb_false_iff in Heqb; destruct Heqb as [_ Hlt].
      apply Z.ltb_ge in Hlt; apply Z.ltb_ge in Heqb0; lia.
    + rewrite Hm; unfold NUM_STATE in *; lia.
    + apply Nat.mod_upper_bound; destruct inputs; [congruence|discriminate].
Qed.

Lemma execute_exec_loop : forall dna inputs mem at_,
  execute dna inputs mem at_ = exec_loop (sequence dna) inputs mem MAX_EXECUTE [] at_.
Proof. intros; unfold execute; reflexivity. Qed.

Lemma execute_panic : forall dna inputs mem at_ p,
  Forall codon_ok (sequence dna) -> length mem = NUM_STATE -> inputs <> [] ->
  (at_ < length (sequence dna))%nat ->
  execute dna inputs mem at_ = Panic p -> p = SubtractOverflow.
Proof.
  intros dna inputs mem at_ p Hok Hm Hin Hat E; rewrite execute_exec_loop in E.
  destruct p; try reflexivity; exfalso;
    refine (exec_loop_panics_only_on_copy (sequence dna) inputs mem MAX_EXECUTE [] at_ _
              Hok Hm Hin Hat _ E); discriminate.
Qed.

Lemma decide_gene_panic : forall inputs b d e p,
  Forall codon_ok (sequence (code b)) -> length (memory b) = NUM_STATE -> inputs <> [] ->
  (e < length (sequence (code b)))%nat ->
  decide_gene inputs (b, d) e = Panic p -> p = SubtractOverflow.
Proof.
  intros inputs b d e p Hok Hm Hin He H; rewrite decide_gene_eq in H.
  destruct (execute (code b) inputs (memory b) e) as [a|q] eqn:Ex; cbn [obind] in H.
  - destruct a; cbn [decision_of_action obind] in H; try discriminate.
    rewrite Hm in H; discriminate.
  - injection H as <-; exact (execute_panic _ _ _ _ _ Hok Hm Hin He Ex).
Qed.

Lemma decide_loop_panic : forall inputs es b d p,
  Forall codon_ok (sequence (code b)) -> length (memory b) = NUM_STATE -> inputs <> [] ->
  Forall (fun e => e < length (sequence (code b)))%nat es ->
  decide_loop inputs (b, d) es = Panic p -> p = SubtractOverflow.
Proof.
  intros inputs es; induction es as [|e es IH]; intros b d p Hok Hm Hin Hes H.
  - discriminate.
  - rewrite decide_loop_cons in H; inversion Hes as [|e' es' He Hes']; subst.
    destruct (decide_gene inputs (b, d) e) as [[b1 d1]|q] eqn:E; cbn [obind] in H.
    + destruct (decide_gene_shape _ _ _ _ _ _ E) as (_ & _ & K & M & _).
      apply (IH b1 d1 p); try rewrite K; try rewrite M; assumption.
    + injection H as <-; exact (decide_gene_panic _ _ _ _ _ Hok Hm Hin He E).
Qed.

(** [Brain::decide] on a brain with [NUM_STATE] registers, whose genome has
    valid entries and only codons [Distribution<Codon>] can draw, given at
    least one input, panics only with the [usize] underflow of [Copy]: it
    never indexes out of bounds, divides by zero or converts a [Write] or
    rotation into a decision. *)
Theorem decide_panics_only_on_copy : forall b r inputs p,
  Forall codon_ok (sequence (code b)) -> entries_valid (code b) ->
  length (memory b) = NUM_STATE -> inputs <> [] ->
  fst (decide b r inputs) = Panic p -> p = SubtractOverflow.
Proof.
  intros b r inputs p Hok Hv Hm Hin H; rewrite decide_fst in H.
  destruct (decide_loop inputs (b, DNothing) (fst (shuffle (entries (code b)) r)))
    as [[b1 d1]|q] eqn:E; cbn [obind] in H; [discriminate|].
  injection H as <-; refine (decide_loop_panic _ _ _ _ _ Hok Hm Hin _ E).
  eapply Permutation_Forall; [symmetry; apply shuffle_perm|exact Hv].
Qed.

(** ** Sampling *)

Lemma gen_range_bounds : forall lo hi r, lo < hi ->
  lo <= fst (gen_range lo hi r) < hi.
Proof.
  intros lo hi r H; unfold gen_range, next_u64; cbn [fst].
  pose proof (Z.mod_pos_bound (draws r (cursor r) mod 2 ^ 64) (hi - lo)) as B; lia.
Qed.

Lemma gen_u32_bounds : forall r, 0 <= fst (gen_u32 r) < 2 ^ 32.
Proof.
  intros r; unfold gen_u32, next_u64; cbn [fst].
  apply Z.mod_pos_bound; lia.
Qed.

Lemma codon_draw_ok : forall r, codon_ok (fst (gen_codon r)).
Proof.
  intros r; unfold gen_codon.
  destruct (gen_range 0 18 r) as [k r1].
  destruct (Z.to_nat k) as [|[|[|[|[|[|[|[|[|[|[|[|[|[|[|n]]]]]]]]]]]]]]];
    cbn [fst codon_ok]; auto.
  - destruct (gen_f64 r1); exact I.
  - pose proof (gen_u32_bounds r1) as B; destruct (gen_u32 r1) as [x r2]; cbn in B |- *; exact B.
  - destruct (gen_u32 r1) as [x r2]; cbn [fst codon_ok].
    unfold NUM_STATE; pose proof (Z.mod_pos_bound x 4) as B; cbn in B |- *; lia.
  - pose proof (gen_u32_bounds r1) as B; destruct (gen_u32 r1) as [x r2]; cbn in B |- *; exact B.
  - destruct (gen_u32 r1) as [x r2]; cbn [fst codon_ok].
    unfold NUM_STATE; pose proof (Z.mod_pos_bound x 4) as B; cbn in B |- *; lia.
  - destruct (gen_dir r1); exact I.
  - destruct (gen_dir r1); exact I.
  - pose proof (gen_range_bounds 1 50 r1 ltac:(lia)) as B1.
    destruct (gen_range 1 50 r1) as [a r2]; cbn [fst] in B1.
    pose proof (gen_range_bounds (-10) 10 r2 ltac:(lia)) as B2.
    destruct (gen_range (-10) 10 r2) as [b r3]; cbn [fst codon_ok] in B2 |- *; lia.
Qed.

(** [Distribution<Codon>] draws register operands below [NUM_STATE],
    [u32] operands for [Copy] and [Input], a [SimpleTrade] in
    [1..50) x [-10..10). *)
Theorem gen_codon_ok : forall r, codon_ok (fst (gen_codon r)).
Proof. exact codon_draw_ok. Qed.

(** ** [Dna::mutate] keeps a genome well-formed *)

Lemma SS_map_mono : forall (f : nat -> nat) l,
  (forall x y, (x <= y)%nat -> (f x <= f y)%nat) ->
  StronglySorted le l -> StronglySorted le (map f l).
Proof.
  intros f l Hf; induction l as [|x l IH]; intros Hs; cbn; [constructor|].
  apply StronglySorted_inv in Hs; destruct Hs as [Hs Hx].
  constructor; [apply IH, Hs|].
  rewrite Forall_map; eapply Forall_impl; [|exact Hx]; intros y Hy; apply Hf, Hy.
Qed.

Lemma SS_filter : forall {A} (R : A -> A -> Prop) p l,
  StronglySorted R l -> StronglySorted R (filter p l).
Proof.
  intros A R p l; induction l as [|x l IH]; intros Hs; cbn; [constructor|].
  apply StronglySorted_inv in Hs; destruct Hs as [Hs Hx].
  destruct (p x); [constructor; [apply IH, Hs|]|apply IH, Hs].
  rewrite Forall_forall in *; intros y Hy; apply Hx; apply filter_In in Hy; apply Hy.
Qed.

Lemma insert_sorted_sorted : forall x l,
  StronglySorted le l -> StronglySorted le (insert_sorted x l).
Proof.
  intros x l; induction l as [|y l IH]; intros Hs; cbn.
  - repeat constructor.
  - apply StronglySorted_inv in Hs as Hs'; destruct Hs' as [Hl Hy].
    destruct (Nat.leb x y) eqn:E.
    + apply Nat.leb_le in E; constructor; [exact Hs|].
      constructor; [exact E|]; eapply Forall_impl; [|exact Hy]; cbv beta; intros; lia.
    + apply Nat.leb_gt in E; constructor; [apply IH, Hl|].
      eapply Permutation_Forall; [symmetry; apply insert_sorted_perm|].
      constructor; [lia|exact Hy].
Qed.

Lemma sort_sorted : forall l, StronglySorted le (sort l).
Proof. induction l as [|x l IH]; cbn; [constructor|apply insert_sorted_sorted, IH]. Qed.

Lemma remove_at_cons : forall {A} (x : A) l i,
  remove_at (x :: l) i = match i with O => l | S i' => x :: remove_at l i' end.
Proof. intros A x l [|i]; reflexivity. Qed.

Lemma SS_remove_at : forall {A} (R : A -> A -> Prop) l i,
  StronglySorted R l -> StronglySorted R (remove_at l i).
Proof.
  intros A R l; induction l as [|x l IH]; intros i Hs.
  - destruct i; constructor.
  - rewrite remove_at_cons; apply StronglySorted_inv in Hs; destruct Hs as [Hs Hx].
    destruct i as [|i]; [exact Hs|constructor; [apply IH, Hs|]].
    rewrite Forall_forall in *; intros y Hy; apply Hx; eapply remove_at_incl; exact Hy.
Qed.

Lemma insert_at_incl : forall {A} (l : list A) i x y, In y (insert_at l i x) -> y = x \/ In y l.
Proof.
  intros A l i x y H; apply (Permutation_in _ (insert_at_perm l i x)) in H.
  destruct H as [H|H]; [left; symmetry; exact H|right; exact H].
Qed.

Lemma mutate_codons_ok : forall dna r, dna_ok dna -> dna_ok (fst (mutate_codons dna r)).
Proof.
  intros dna r Hd.
  pose proof (mutate_codons_spec dna r (proj1 (proj2 Hd))) as (_ & _ & _ & _ & Hv).
  revert Hv; destruct Hd as (Hs & _ & Hc); destruct dna as [sq es].
  unfold dna_ok, entries_sorted, mutate_codons in *; cbn [sequence entries] in *.
  destruct (half_chance r) as [add r0]; destruct add.
  - destruct (gen_range_nat 0 (length sq + 1) r0) as [position r1].
    pose proof (codon_draw_ok r1) as Hg; destruct (gen_codon r1) as [c r2]; cbn [fst sequence entries] in *.
    intros Hv; split; [|split; [exact Hv|]].
    + apply SS_map_mono; [|exact Hs]; intros x y Hxy.
      destruct (Nat.leb position x) eqn:E1, (Nat.leb position y) eqn:E2;
        rewrite ?Nat.leb_le, ?Nat.leb_gt in *; lia.
    + rewrite Forall_forall in *; intros y Hy; apply insert_at_incl in Hy.
      destruct Hy as [->|Hy]; [exact Hg|apply Hc, Hy].
  - destruct (negb (Nat.eqb (length sq) 0)).
    + destruct (gen_range_nat 0 (length sq) r0) as [position r1]; cbn [fst sequence entries] in *.
      intros Hv; split; [|split; [exact Hv|]].
      * apply SS_map_mono; [|apply SS_filter, Hs]; intros x y Hxy.
        destruct (Nat.ltb position x) eqn:E1, (Nat.ltb position y) eqn:E2;
          rewrite ?Nat.ltb_lt, ?Nat.ltb_ge in *; lia.
      * rewrite Forall_forall in *; intros y Hy; apply Hc; eapply remove_at_incl; exact Hy.
    + cbn [fst sequence entries]; intros Hv; split; [exact Hs|split; [exact Hv|exact Hc]].
Qed.

Lemma mutate_entries_ok : forall dna r, dna_ok dna -> dna_ok (fst (mutate_entries dna r)).
Proof.
  intros dna r Hd.
  pose proof (mutate_entries_spec dna r (proj1 (proj2 Hd))) as (Hsq & _ & _ & Hv).
  destruct Hd as (Hs & _ & Hc).
  split; [|split; [exact Hv|rewrite Hsq; exact Hc]].
  clear Hv Hsq; destruct dna as [sq es].
  unfold entries_sorted, mutate_entries in *; cbn [sequence entries] in *.
  destruct (negb (Nat.eqb (length sq) 0)); [destruct (half_chance r) as [add r0]|];
    [destruct add|].
  - destruct (gen_range_nat 0 (length es + 1) r0) as [position r1].
    destruct (existsb (Nat.eqb position) es); [exact Hs|].
    destruct (gen_range_nat 0 (length sq) r1) as [v r2]; apply sort_sorted.
  - destruct (negb (Nat.eqb (length es) 0)); [|exact Hs].
    destruct (gen_range_nat 0 (length es) r0) as [position r1]; apply SS_remove_at, Hs.
  - destruct (negb (Nat.eqb (length es) 0)); [|exact Hs].
    destruct (gen_range_nat 0 (length es) r) as [position r1]; apply SS_remove_at, Hs.
Qed.

(** [Dna::mutate] keeps a genome well-formed: entries sorted and within the
    sequence, every codon one [Distribution<Codon>] can draw. The sorted
    entries may repeat: the entry edit tests the drawn index, not the drawn
    offset, for membership. *)
Theorem mutate_keeps_dna_ok : forall dna r, dna_ok dna -> dna_ok (fst (mutate dna r)).
Proof.
  intros dna r Hd; unfold mutate.
  pose proof (mutate_codons_ok dna r Hd) as H1.
  destruct (mutate_codons dna r) as [dna1 r1]; cbn [fst] in H1.
  apply mutate_entries_ok, H1.
Qed.

(** ** [crossover] builds a well-formed genome *)

Lemma padding_in : forall gs ps p, padding_of gs ps -> In p ps -> p = [] \/ In p gs.
Proof.
  intros gs ps p H; induction H as [|g gs ps H IH|gs ps H IH]; intros Hp.
  - destruct Hp.
  - destruct Hp as [<-|Hp]; [right; left; reflexivity|].
    destruct (IH Hp) as [E|E]; [left; exact E|right; right; exact E].
  - destruct Hp as [<-|Hp]; [left; reflexivity|exact (IH Hp)].
Qed.

Lemma mapM_in : forall {A B} (f : A -> Outcome B) l ys y,
  mapM f l = Ok ys -> In y ys -> exists x, In x l /\ f x = Ok y.
Proof.
  intros A B f l; induction l as [|x l IH]; intros ys y H Hy; cbn [mapM] in H.
  - injection H as <-; destruct Hy.
  - destruct (f x) as [y0|p] eqn:E; cbn [obind] in H; [|discriminate].
    destruct (mapM f l) as [ys0|p] eqn:E'; cbn [obind] in H; [|discriminate].
    injection H as <-; destruct Hy as [<-|Hy].
    + exists x; split; [left; reflexivity|exact E].
    + destruct (IH ys0 y eq_refl Hy) as [x' [Hx' Ex']]; exists x'; split; [right; exact Hx'|exact Ex'].
Qed.

Lemma slice_incl : forall {A} (items : list A) ab g c, slice items ab = Ok g -> In c g -> In c items.
Proof.
  intros A items [a b] g c H Hc; unfold slice in H.
  destruct (Nat.leb a b && Nat.leb b (length items))%bool; [|discriminate].
  injection H as <-; eapply in_skipn, in_firstn; exact Hc.
Qed.

Lemma genes_of_incl : forall dna gs g c, genes_of dna = Ok gs -> In g gs -> In c g ->
  In c (sequence dna).
Proof.
  intros dna gs g c H Hg Hc; unfold genes_of, split_points in H.
  destruct (mapM_in _ _ _ _ H Hg) as [ab [_ E]]; eapply slice_incl; eauto.
Qed.

Lemma starts_from_sorted : forall gs o, Forall (fun g => g <> []) gs ->
  StronglySorted lt (starts_from o gs) /\
  Forall (fun e => o <= e < o + length (concat gs))%nat (starts_from o gs).
Proof.
  induction gs as [|g gs IH]; intros o Hne; cbn [starts_from concat]; [split; constructor|].
  inversion Hne as [|g' gs' Hg Hgs]; subst.
  assert (Lg : (0 < length g)%nat) by (destruct g; [congruence|cbn; lia]).
  destruct (IH (o + length g)%nat Hgs) as [S1 F1].
  rewrite length_app; split.
  - constructor; [exact S1|]; eapply Forall_impl; [|exact F1]; cbv beta; intros; lia.
  - constructor; [lia|]; eapply Forall_impl; [|exact F1]; cbv beta; intros; lia.
Qed.

Lemma filter_nonempty_ne : forall gs, Forall (fun g => g <> []) (filter nonempty_gene gs).
Proof.
  intros gs; apply Forall_forall; intros g Hg; apply filter_In in Hg; destruct Hg as [_ Hg].
  unfold nonempty_gene in Hg; destruct g; [discriminate|congruence].
Qed.

Lemma SS_impl : forall {A} (R R' : A -> A -> Prop) l,
  (forall x y, R x y -> R' x y) -> StronglySorted R l -> StronglySorted R' l.
Proof.
  intros A R R' l HR; induction l as [|x l IH]; intros Hs; [constructor|].
  apply StronglySorted_inv in Hs; destruct Hs as [Hs Hx].
  constructor; [apply IH, Hs|]; eapply Forall_impl; [|exact Hx]; intros y; apply HR.
Qed.

Lemma crossover_slots : forall r dnas, dnas <> [] ->
  Forall (fun d => entries_sorted d /\ entries_valid d) dnas ->
  exists slots, fst (crossover r dnas) =
      Ok (mkDna (concat (filter nonempty_gene slots)) (starts_from 0 (filter nonempty_gene slots))) /\
    forall s, In s slots -> s = [] \/ exists d genes, In d dnas /\ genes_of d = Ok genes /\ In s genes.
Proof.
  intros r dnas Hne Hf; unfold crossover.
  pose proof (shuffle_perm dnas r) as HP.
  destruct (shuffle dnas r) as [dnas1 r1]; cbn [fst] in HP.
  destruct (mapM_ok genes_of dnas1) as [genes [Hm Hg]].
  { intros d Hd; apply genes_of_ok;
      rewrite Forall_forall in Hf; apply Hf, (Permutation_in _ HP Hd). }
  rewrite Hm.
  assert (Hlen : length genes = length dnas1) by (symmetry; eapply Forall2_length; exact Hg).
  assert (Hpos : (0 < length genes)%nat).
  { rewrite Hlen, (Permutation_length HP); destruct dnas; [congruence|cbn; lia]. }
  destruct genes as [|g0 gs0] eqn:Eg; [cbn in Hpos; lia|].
  rewrite <- Eg in *.
  set (highest := list_max (map (@length _) genes)).
  assert (Hle : Forall (fun g => (length g <= highest)%nat) genes).
  { apply Forall_map with (f := @length _) (P := fun k => (k <= highest)%nat).
    apply list_max_le; reflexivity. }
  pose proof (pad_all_spec highest genes r1 Hle) as Hpad.
  destruct (pad_all highest genes r1) as [padded r2]; cbn [fst] in Hpad.
  assert (Hplen : length padded = length genes) by (symmetry; eapply Forall2_length; exact Hpad).
  destruct (assemble_spec padded highest 0 (mkDna [] []) r2) as [slots [Hsl [Hs Ha]]].
  { lia. }
  { apply Forall_forall; intros p Hp.
    apply In_nth with (d := []) in Hp; destruct Hp as [w [Hw <-]].
    destruct (Forall2_nth' _ _ _ w [] [] Hpad ltac:(lia)) as [_ L]; lia. }
  cbn [sequence entries app length] in Ha.
  exists slots; split; [exact Ha|].
  intros s Hin; apply In_nth with (d := []) in Hin; destruct Hin as [k [Hk <-]].
  rewrite Hsl in Hk; destruct (Hs k Hk) as [w [Hw E]]; rewrite E.
  destruct (Forall2_nth' _ _ _ w [] [] Hpad ltac:(lia)) as [P L].
  destruct (Nat.lt_ge_cases k (length (nth w padded []))) as [Lk|Lk];
    [|left; apply nth_overflow; lia].
  destruct (padding_in _ _ _ P (nth_In _ [] Lk)) as [Z|Z]; [left; exact Z|right].
  exists (nth w dnas1 (mkDna [] [])), (nth w genes []); split; [|split; [|exact Z]].
  - apply (Permutation_in _ HP), nth_In; lia.
  - apply (Forall2_nth' _ _ _ w (mkDna [] []) [] Hg); lia.
Qed.

Lemma crossover_ok : forall r dnas, dnas <> [] -> Forall dna_ok dnas ->
  exists child, fst (crossover r dnas) = Ok child /\ dna_ok child /\
    StronglySorted lt (entries child) /\
    forall c, In c (sequence child) -> exists d, In d dnas /\ In c (sequence d).
Proof.
  intros r dnas Hne Hok.
  destruct (crossover_slots r dnas Hne) as [slots [E Hs]].
  { eapply Forall_impl; [|exact Hok]; intros d (A & B & _); split; assumption. }
  set (gs := filter nonempty_gene slots) in E.
  destruct (starts_from_sorted gs 0 (filter_nonempty_ne slots)) as [S1 F1].
  assert (Hc : forall c, In c (concat gs) -> exists d, In d dnas /\ In c (sequence d)).
  { intros c Hc; apply in_concat in Hc; destruct Hc as [g [Hg Hc]].
    apply filter_In in Hg; destruct Hg as [Hg _].
    destruct (Hs g Hg) as [->|(d & genes & Hd & Eg & Hg')]; [destruct Hc|].
    exists d; split; [exact Hd|eapply genes_of_incl; eauto]. }
  exists (mkDna (concat gs) (starts_from 0 gs)); split; [exact E|].
  cbn [sequence entries]; split; [|split; [exact S1|exact Hc]].
  split; [|split].
  - unfold entries_sorted; cbn [entries].
    eapply SS_impl; [|exact S1]; cbv beta; intros; lia.
  - unfold entries_valid; cbn [entries sequence].
    eapply Forall_impl; [|exact F1]; cbv beta; intros; lia.
  - apply Forall_forall; intros c Hin; destruct (Hc c Hin) as [d [Hd Hcd]].
    rewrite Forall_forall in Hok; destruct (Hok d Hd) as (_ & _ & Hcs).
    rewrite Forall_forall in Hcs; apply Hcs, Hcd.
Qed.

(** [crossover] of well-formed parents succeeds, and its child is
    well-formed too: its entries are strictly increasing offsets into its
    sequence, and every codon of the child is a codon of one of the
    parents. *)
Theorem crossover_child_ok : forall r dnas, dnas <> [] -> Forall dna_ok dnas ->
  exists child, fst (crossover r dnas) = Ok child /\ dna_ok child /\
    StronglySorted lt (entries child) /\
    forall c, In c (sequence child) -> exists d, In d dnas /\ In c (sequence d).
Proof. exact crossover_ok. Qed.

(** ** [Distribution<Dna>] *)

Lemma gen_codons_spec : forall n r,
  length (fst (gen_codons n r)) = n /\ Forall codon_ok (fst (gen_codons n r)).
Proof.
  induction n as [|n IH]; intros r; cbn [gen_codons]; [split; [reflexivity|constructor]|].
  pose proof (codon_draw_ok r) as Hc; destruct (gen_codon r) as [c r1]; cbn [fst] in Hc.
  specialize (IH r1); destruct (gen_codons n r1) as [cs r2]; cbn [fst] in *.
  destruct IH as [L F]; split; [cbn; lia|constructor; assumption].
Qed.

Lemma gen_entries_lt : forall n len r, (0 < len)%nat ->
  Forall (fun e => e < len)%nat (fst (gen_entries n len r)).
Proof.
  induction n as [|n IH]; intros len r Hl; cbn [gen_entries]; [constructor|].
  pose proof (gen_range_nat_lt len r Hl) as He; destruct (gen_range_nat 0 len r) as [e r1].
  specialize (IH len r1 Hl); destruct (gen_entries n len r1) as [es r2]; cbn [fst] in *.
  constructor; assumption.
Qed.

Lemma unique_from_spec : forall l seen,
  NoDup (unique_from seen l) /\
  forall x, In x (unique_from seen l) -> In x l /\ ~ In x seen.
Proof.
  induction l as [|y l IH]; intros seen; cbn [unique_from]; [split; [constructor|intros x []]|].
  destruct (existsb (Nat.eqb y) seen) eqn:E.
  - destruct (IH seen) as [N H]; split; [exact N|].
    intros x Hx; destruct (H x Hx) as [A B]; split; [right; exact A|exact B].
  - destruct (IH (y :: seen)) as [N H]; split.
    + constructor; [|exact N]; intros Hy; destruct (H y Hy) as [_ B]; apply B; left; reflexivity.
    + intros x [->|Hx].
      * split; [left; reflexivity|]; intros Hin.
        assert (existsb (Nat.eqb x) seen = true) by (apply existsb_exists; exists x; split;
          [exact Hin|apply Nat.eqb_refl]); congruence.
      * destruct (H x Hx) as [A B]; split; [right; exact A|intros C; apply B; right; exact C].
Qed.

Lemma SS_le_nodup_lt : forall l, StronglySorted le l -> NoDup l -> StronglySorted lt l.
Proof.
  induction l as [|x l IH]; intros Hs Hn; [constructor|].
  apply StronglySorted_inv in Hs; destruct Hs as [Hs Hx]; inversion Hn as [|x' l' Hnin Hn']; subst.
  constructor; [apply IH; assumption|].
  rewrite Forall_forall in *; intros y Hy; specialize (Hx y Hy).
  destruct (Nat.eq_dec x y) as [->|]; [contradiction|lia].
Qed.

Lemma sample_dna_props : forall exp1 r,
  dna_ok (fst (sample_dna exp1 r)) /\ StronglySorted lt (entries (fst (sample_dna exp1 r))).
Proof.
  intros exp1 r; unfold sample_dna.
  destruct (exp1 r) as [x r1].
  set (n := f64_as_usize (x * INITIAL_GENOME_SCALE)%float).
  pose proof (gen_codons_spec n r1) as [L F].
  destruct (gen_codons n r1) as [sq r2]; cbn [fst] in L, F.
  destruct (Nat.eqb n 0) eqn:En.
  - cbn [fst entries]; split; [split; [constructor|split; [constructor|exact F]]|constructor].
  - apply Nat.eqb_neq in En.
    destruct (exp1 r2) as [y r3].
    set (m := f64_as_usize (y * INITIAL_ENTRIES_SCALE)%float).
    pose proof (gen_entries_lt m n r3 ltac:(lia)) as He.
    destruct (gen_entries m n r3) as [es r4]; cbn [fst] in He |- *.
    destruct (unique_from_spec es []) as [N U].
    assert (Hlt : StronglySorted lt (sort (unique es))).
    { apply SS_le_nodup_lt; [apply sort_sorted|].
      eapply Permutation_NoDup; [symmetry; apply sort_perm|exact N]. }
    split; [split; [|split]|exact Hlt].
    + apply sort_sorted.
    + unfold entries_valid; cbn [entries sequence]; rewrite L.
      eapply Permutation_Forall; [symmetry; apply sort_perm|].
      apply Forall_forall; intros e Hin; destruct (U e Hin) as [Hin' _].
      rewrite Forall_forall in He; apply He, Hin'.
    + exact F.
Qed.

(** The genome [Distribution<Dna>] draws is well-formed whatever the
    exponential draws: its entries are strictly increasing offsets into its
    sequence (none when the sequence is empty) and every codon is one
    [Distribution<Codon>] can draw. *)
Theorem sample_dna_ok : forall exp1 r,
  dna_ok (fst (sample_dna exp1 r)) /\ StronglySorted lt (entries (fst (sample_dna exp1 r))).
Proof. exact sample_dna_props. Qed.

(** ** [brain::combine] *)


(** ** [Distribution<Brain>] *)

(** A brain [Distribution<Brain>] draws (as [update] spawns them) has
    generation 0, a rotation below 4, [NUM_STATE] zeroed registers and a
    well-formed genome with strictly increasing entries. *)
Theorem sample_brain_ok : forall exp1 random_color r,
  let b := fst (sample_brain exp1 random_color r) in
  generation b = 0%nat /\ (rotation b < 4)%nat /\ memory b = repeat 0%float NUM_STATE /\
  dna_ok (code b) /\ StronglySorted lt (entries (code b)).
Proof.
  intros exp1 random_color r; unfold sample_brain.
  pose proof (gen_range_nat_lt 4 r ltac:(lia)) as Hr.
  destruct (gen_range_nat 0 4 r) as [rt r1]; cbn [fst] in Hr.
  pose proof (sample_dna_props exp1 r1) as [Hd Hs].
  destruct (sample_dna exp1 r1) as [dna r2]; cbn [fst] in Hd, Hs.
  destruct (random_color r2) as [col r3]; cbn.
  repeat split; try assumption; apply Hd.
Qed.

(** ** Witnesses *)

Definition zero_rng : Rng := mkRng (fun _ => 0) 0.

Definition turning_brain : Brain :=
  mkBrain 0%float 1 0 (repeat 0%float NUM_STATE) (mkDna [RotateLeft] [0%nat]).

Lemma decide_keeps_brain_shape_witness :
  exists b' d, fst (decide turning_brain zero_rng [1%float]) = Ok (b', d) /\ (rotation b' < 4)%nat.
Proof.
  destruct (fst (decide turning_brain zero_rng [1%float])) as [[b' d]|p] eqn:E;
    [|vm_compute in E; discriminate E].
  exists b', d; split; [reflexivity|].
  exact (proj2 (proj2 (proj2 (proj2 (decide_keeps_brain_shape _ _ _ _ _ E)))) ltac:(cbn; lia)).
Defined.

Lemma decide_panics_only_on_copy_witness :
  let b := mkBrain 0%float 0 0 (repeat 0%float NUM_STATE) copy_genome in
  fst (decide b zero_rng [1%float]) = Panic SubtractOverflow /\ SubtractOverflow = SubtractOverflow.
Proof.
  intro b.
  assert (E : fst (decide b zero_rng [1%float]) = Panic SubtractOverflow) by (vm_compute; reflexivity).
  split; [exact E|].
  refine (decide_panics_only_on_copy b zero_rng [1%float] SubtractOverflow _ _ _ _ E).
  - apply Forall_cons; [exact I|apply Forall_cons; [cbn; lia|apply Forall_nil]].
  - apply Forall_cons; [cbn; lia|apply Forall_nil].
  - reflexivity.
  - discriminate.
Defined.

Definition two_gene_dna : Dna := mkDna [Add; Sub; Mul] [0; 1]%nat.

Lemma two_gene_dna_ok : dna_ok two_gene_dna.
Proof.
  split; [|split].
  - repeat constructor.
  - repeat constructor.
  - repeat constructor.
Qed.

Lemma mutate_keeps_dna_ok_witness : dna_ok two_gene_dna /\ dna_ok (fst (mutate two_gene_dna zero_rng)).
Proof.
  split; [exact two_gene_dna_ok|exact (mutate_keeps_dna_ok _ _ two_gene_dna_ok)].
Defined.

Lemma crossover_child_ok_witness :
  exists child, fst (crossover zero_rng [two_gene_dna; mkDna [Div] [0%nat]]) = Ok child /\
    dna_ok child.
Proof.
  assert (F : Forall dna_ok [two_gene_dna; mkDna [Div] [0%nat]]).
  { apply Forall_cons; [exact two_gene_dna_ok|apply Forall_cons; [|apply Forall_nil]].
    split; [|split]; repeat constructor. }
  destruct (crossover_child_ok zero_rng [two_gene_dna; mkDna [Div] [0%nat]] ltac:(discriminate) F) as (child & E & D & _).
  exists child; split; [exact E|exact D].
Defined.


End GenomeFacts.

Module GridFacts.
Import GridGen.

Lemma as_isize_small : forall z, 0 <= z < 2 ^ 63 -> as_isize z = z.
Proof.
  intros z H; unfold as_isize; rewrite Z.mod_small by lia.
  replace (z <? 2 ^ 63) with true by (symmetry; apply Z.ltb_lt; lia); reflexivity.
Qed.

Lemma as_usize_small : forall z, 0 <= z < 2 ^ 64 -> as_usize z = z.
Proof. intros z H; unfold as_usize; apply Z.mod_small; lia. Qed.

Lemma chk_isize_ok : forall z, - 2 ^ 63 <= z < 2 ^ 63 -> chk_isize z = Ok z.
Proof.
  intros z H; unfold chk_isize.
  replace ((- 2 ^ 63 <=? z) && (z <? 2 ^ 63))%bool with true by
    (symmetry; apply andb_true_iff; split; [apply Z.leb_le|apply Z.ltb_lt]; lia).
  reflexivity.
Qed.

Lemma chk_usize_ok : forall z, 0 <= z < 2 ^ 64 -> chk_usize z = Ok z.
Proof.
  intros z H; unfold chk_usize.
  replace ((0 <=? z) && (z <? 2 ^ 64))%bool with true by
    (symmetry; apply andb_true_iff; split; [apply Z.leb_le|apply Z.ltb_lt]; lia).
  reflexivity.
Qed.

Lemma wrap_ok : forall pos shape delt,
  0 < shape -> 2 * shape < 2 ^ 63 -> 0 <= pos < shape -> - shape <= delt <= shape ->
  wrap pos shape delt = Ok ((pos + delt) mod shape).
Proof.
  intros pos shape delt Hs Hb Hp Hd; unfold wrap.
  rewrite as_isize_small by lia; rewrite chk_isize_ok by lia; cbn [obind].
  rewrite as_usize_small by lia; rewrite chk_usize_ok by lia; cbn [obind].
  replace (shape =? 0) with false by (symmetry; apply Z.eqb_neq; lia).
  f_equal; replace (pos + (shape + delt)) with (pos + delt + 1 * shape) by ring.
  apply Z.mod_add; lia.
Qed.

(** [gridgen::wrap] moves a position on a ring of [shape] cells by [delt]
    (up to a full turn either way) modulo [shape], and moving back by
    [-delt] returns to the start. *)
Theorem wrap_spec : forall pos shape delt,
  0 < shape -> 2 * shape < 2 ^ 63 -> 0 <= pos < shape -> - shape <= delt <= shape ->
  wrap pos shape delt = Ok ((pos + delt) mod shape) /\
  0 <= (pos + delt) mod shape < shape /\
  wrap ((pos + delt) mod shape) shape (- delt) = Ok pos.
Proof.
  intros pos shape delt Hs Hb Hp Hd.
  pose proof (Z.mod_pos_bound (pos + delt) shape Hs) as B.
  split; [apply wrap_ok; lia|split; [exact B|]].
  rewrite wrap_ok by lia; f_equal.
  rewrite Z.add_mod_idemp_l by lia.
  replace (pos + delt + - delt) with pos by ring; apply Z.mod_small; lia.
Qed.

Lemma wrap_spec_witness : wrap 0 3 (-1) = Ok 2 /\ wrap 2 3 1 = Ok 0.
Proof.
  destruct (wrap_spec 0 3 (-1) ltac:(lia) ltac:(lia) ltac:(lia) ltac:(lia)) as (A & _ & B).
  split; [exact A|exact B].
Defined.

End GridFacts.

Module SimNewFacts.
Import Brain GridGen Sim SimFacts GridFacts.

Lemma reserve_total_eq : forall w h, Z.of_nat w < 2 ^ 32 -> Z.of_nat h < 2 ^ 32 ->
  reserve_total w h =
    if Z.of_nat (w * h) * RESERVE_MULTIPLIER <? 2 ^ 32
    then Ok (Z.of_nat (w * h) * RESERVE_MULTIPLIER) else Panic ArithmeticOverflow.
Proof.
  intros w h Hw Hh; unfold reserve_total, RESERVE_MULTIPLIER.
  rewrite !as_u32_small by lia; rewrite <- Nat2Z.inj_mul.
  destruct (Z.of_nat (w * h) <? 2 ^ 32) eqn:E.
  - apply Z.ltb_lt in E; rewrite chk_u32_ok by lia; cbn [obind].
    destruct (Z.of_nat (w * h) * 64 <? 2 ^ 32) eqn:E2.
    + apply Z.ltb_lt in E2; apply chk_u32_ok; lia.
    + apply Z.ltb_ge in E2; unfold chk_u32, in_u32.
      replace ((0 <=? Z.of_nat (w * h) * 64) && (Z.of_nat (w * h) * 64 <? 2 ^ 32))%bool with false
        by (symmetry; apply andb_false_iff; right; apply Z.ltb_ge; lia); reflexivity.
  - apply Z.ltb_ge in E; unfold chk_u32 at 1, in_u32.
    replace ((0 <=? Z.of_nat (w * h)) && (Z.of_nat (w * h) <? 2 ^ 32))%bool with false
      by (symmetry; apply andb_false_iff; right; apply Z.ltb_ge; lia); cbn [obind].
    replace (Z.of_nat (w * h) * 64 <? 2 ^ 32) with false by (symmetry; apply Z.ltb_ge; lia).
    reflexivity.
Qed.

(** [width as u32 * height as u32 * RESERVE_MULTIPLIER], computed by
    [Sim::new] and by the assertion of [Sim::tick], is the exact product
    when it fits in a [u32] and panics with an overflow otherwise: for
    dimensions below [2 ^ 32], it panics exactly on grids of [2 ^ 26] cells
    or more. *)
Theorem reserve_total_spec : forall w h, Z.of_nat w < 2 ^ 32 -> Z.of_nat h < 2 ^ 32 ->
  reserve_total w h =
    if Z.of_nat (w * h) * RESERVE_MULTIPLIER <? 2 ^ 32
    then Ok (Z.of_nat (w * h) * RESERVE_MULTIPLIER) else Panic ArithmeticOverflow.
Proof. exact reserve_total_eq. Qed.

Lemma bernoulli_sample_zero : forall r, fst (bernoulli_sample 0 r) = false.
Proof.
  intros r; unfold bernoulli_sample, next_u64; cbn [fst].
  replace (0 =? ALWAYS_TRUE) with false by reflexivity; cbn [fst].
  apply Z.ltb_ge, Z.mod_pos_bound; lia.
Qed.

Lemma dir_origin : forall oy ox oh ow,
  (oy < oh)%nat -> (ox < ow)%nat -> Z.of_nat oh < 2 ^ 61 -> Z.of_nat ow < 2 ^ 61 ->
  dir (Z.of_nat oy, Z.of_nat ox) (Z.of_nat oh, Z.of_nat ow) (0, 0) = Ok (Z.of_nat oy, Z.of_nat ox).
Proof.
  intros oy ox oh ow Hy Hx Hh Hw; unfold dir; cbn [fst snd].
  rewrite !wrap_ok by lia; cbn [obind]; rewrite !Z.add_0_r, !Z.mod_small by lia; reflexivity.
Qed.

(** Whether the cell loop of [Sim::new] makes cell [ix] a wall. *)
Lemma cell_type_at_spec : forall w os ow oh walls p_int ix r,
  (0 < w)%nat -> Z.of_nat ow < 2 ^ 61 -> Z.of_nat oh < 2 ^ 61 ->
  exists t, fst (cell_type_at w os ow oh walls p_int ix r) = Ok t /\
    (t = Wall <-> ((ix mod w) / os < ow /\ (ix / w) / os < oh /\
                   walls ((ix / w) / os) ((ix mod w) / os) = true)%nat) /\
    (p_int = 0 -> t <> Source).
Proof.
  intros w os ow oh walls p_int ix r Hw How Hoh; unfold cell_type_at.
  pose proof (bernoulli_sample_zero r) as Hz.
  destruct (bernoulli_sample p_int r) as [src r1] eqn:Eb.
  replace (Nat.eqb w 0) with false by (symmetry; apply Nat.eqb_neq; lia); cbn [fst].
  assert (Ht0 : (if src then Source else Empty) <> Wall) by (destruct src; discriminate).
  assert (Hs0 : p_int = 0 -> (if src then Source else Empty) <> Source).
  { intros ->; rewrite Eb in Hz; cbn [fst] in Hz; rewrite Hz; discriminate. }
  destruct ((ow <=? (ix mod w) / os)%nat || (oh <=? (ix / w) / os)%nat) eqn:Eo.
  - eexists; split; [reflexivity|split; [|exact Hs0]].
    split; [intros E; contradiction|intros (A & B & _)].
    apply orb_true_iff in Eo; destruct Eo as [Eo|Eo]; apply Nat.leb_le in Eo; lia.
  - apply orb_false_iff in Eo; destruct Eo as [E1 E2]; apply Nat.leb_gt in E1, E2.
    rewrite dir_origin by lia; cbn [obind].
    replace ((Z.of_nat ((ix / w) / os) <? Z.of_nat oh) && (Z.of_nat ((ix mod w) / os) <? Z.of_nat ow))%bool
      with true by (symmetry; apply andb_true_iff; split; apply Z.ltb_lt; lia).
    rewrite !Nat2Z.id.
    eexists; split; [reflexivity|].
    destruct (walls ((ix / w) / os)%nat ((ix mod w) / os)%nat).
    + split; [split; [intros _; repeat split; auto|intros _; reflexivity]|intros _; discriminate].
    + split; [split; [intros E; contradiction|intros (_ & _ & F); discriminate]|exact Hs0].
Qed.

Lemma cell_types_spec : forall w os ow oh walls p_int n ix r,
  (0 < w)%nat -> Z.of_nat ow < 2 ^ 61 -> Z.of_nat oh < 2 ^ 61 ->
  exists tys, fst (cell_types w os ow oh walls p_int ix n r) = Ok tys /\ length tys = n /\
    forall k, (k < n)%nat ->
      (nth k tys Empty = Wall <->
         (((ix + k) mod w) / os < ow /\ ((ix + k) / w) / os < oh /\
          walls (((ix + k) / w) / os) (((ix + k) mod w) / os) = true)%nat) /\
      (p_int = 0 -> nth k tys Empty <> Source).
Proof.
  intros w os ow oh walls p_int n; induction n as [|n IH]; intros ix r Hw How Hoh.
  - exists []; split; [reflexivity|split; [reflexivity|intros; lia]].
  - cbn [cell_types].
    destruct (cell_type_at_spec w os ow oh walls p_int ix r Hw How Hoh) as (t & Et & Wt & St).
    destruct (cell_type_at w os ow oh walls p_int ix r) as [o r1]; cbn [fst] in Et; subst o.
    destruct (IH (S ix) r1 Hw How Hoh) as (tys & E & L & P).
    destruct (cell_types w os ow oh walls p_int (S ix) n r1) as [o r2]; cbn [fst] in E |- *; subst o.
    cbn [obind]; exists (t :: tys); split; [reflexivity|split; [cbn; lia|]].
    intros [|k] Hk; cbn [nth].
    + rewrite Nat.add_0_r; split; assumption.
    + replace (ix + S k)%nat with (S ix + k)%nat by lia; apply P; lia.
Qed.

(** [Sim::new] on a grid of fewer than [2^26] cells, with a probability
    [Bernoulli::new] accepts, succeeds whatever walls were generated: it
    gives [width * height] cells with no food, money, brain or trade and a
    reserve of [64] per cell; cell [ix] is a wall exactly when its block
    [(y / s, x / s)] ([s = openness + 1]) lies inside the [(h / s) x (w / s)]
    wall grid and that grid has a wall there (the margin beyond the last
    whole block is never walled); with probability [0] no cell is a
    source. The result is a start state of the simulation. *)
Theorem sim_new_spec : forall w h openness p p_int walls r,
  Z.of_nat w < 2 ^ 32 -> Z.of_nat h < 2 ^ 32 -> Z.of_nat (w * h) * RESERVE_MULTIPLIER < 2 ^ 32 ->
  Z.of_nat openness + 1 < 2 ^ 64 -> bernoulli_new p = Ok p_int ->
  exists s, sim_new w h openness p walls r = Ok s /\
    width s = w /\ height s = h /\ reserve s = Z.of_nat (w * h) * RESERVE_MULTIPLIER /\
    length (grid s) = (w * h)%nat /\
    (forall ix, (ix < w * h)%nat ->
       let c := nth ix (grid s) default_cell in
       let x := (ix mod w)%nat in let y := (ix / w)%nat in let sc := (openness + 1)%nat in
       food c = 0 /\ money c = 0 /\ brain c = None /\ trade c = None /\
       (ty c = Wall <-> (x / sc < w / sc /\ y / sc < h / sc /\ walls (y / sc) (x / sc) = true)%nat) /\
       (p_int = 0 -> ty c <> Source)) /\
    forall nb, reachable nb w h s.
Proof.
  intros w h openness p p_int walls r Hw Hh Hr Ho Hp.
  unfold sim_new, chk_usize_nat.
  replace (Z.of_nat (openness + 1) <? 2 ^ 64) with true
    by (symmetry; apply Z.ltb_lt; lia).
  cbn [obind]; rewrite Hp; cbn [obind].
  destruct (Nat.eq_dec w 0) as [->|Hw0].
  - cbn [Nat.mul cell_types fst obind].
    unfold new_sim; rewrite (reserve_total_eq 0 h) by lia.
    cbn [Nat.mul]; replace (Z.of_nat 0 * RESERVE_MULTIPLIER <? 2 ^ 32) with true by reflexivity.
    cbn [obind]; eexists; split; [reflexivity|]; cbn [width height reserve grid map length].
    split; [reflexivity|split; [reflexivity|split; [reflexivity|split; [reflexivity|split]]]].
    + intros ix Hix; lia.
    + intros nb; apply (reach_new nb 0 h []); [reflexivity|].
      unfold new_sim; rewrite (reserve_total_eq 0 h) by lia; reflexivity.
  - assert (Hsc : (0 < openness + 1)%nat) by lia.
    assert (Bw : (w / (openness + 1) <= w)%nat) by (apply Nat.Div0.div_le_upper_bound; nia).
    assert (Bh : (h / (openness + 1) <= h)%nat) by (apply Nat.Div0.div_le_upper_bound; nia).
    destruct (cell_types_spec w (openness + 1) (w / (openness + 1)) (h / (openness + 1)) walls p_int
                (w * h) 0 r ltac:(lia) ltac:(lia) ltac:(lia)) as (tys & Et & Lt & Pt).
    rewrite Et; cbn [obind].
    assert (Hnew : new_sim w h tys =
      Ok (mkSim (map (fun t => mkCell 0 0 t 0%float None None) tys) w h
                (Z.of_nat (w * h) * RESERVE_MULTIPLIER) None None 0 0)).
    { unfold new_sim; rewrite reserve_total_eq by lia.
      replace (Z.of_nat (w * h) * RESERVE_MULTIPLIER <? 2 ^ 32) with true
        by (symmetry; apply Z.ltb_lt; lia); reflexivity. }
    rewrite Hnew; eexists; split; [reflexivity|]; cbn [width height reserve grid].
    split; [reflexivity|split; [reflexivity|split; [reflexivity|split; [rewrite length_map; exact Lt|split]]]].
    + intros ix Hix.
      assert (Ec : nth ix (map (fun t => mkCell 0 0 t 0%float None None) tys) default_cell
                   = mkCell 0 0 (nth ix tys Empty) 0%float None None).
      { change default_cell with ((fun t => mkCell 0 0 t 0%float None None) Empty).
        apply map_nth. }
      rewrite Ec; cbn [food money brain trade ty].
      destruct (Pt ix Hix) as [Pw Ps].
      split; [reflexivity|split; [reflexivity|split; [reflexivity|split; [reflexivity|split; [exact Pw|exact Ps]]]]].
    + intros nb; exact (reach_new nb w h tys _ Lt Hnew).
Qed.

(** ** Witnesses *)

Lemma reserve_total_spec_witness : reserve_total 2 3 = Ok 384.
Proof. exact (reserve_total_spec 2 3 ltac:(lia) ltac:(lia)). Defined.

Lemma sim_new_spec_witness :
  exists s, sim_new 2 2 0 0%float (fun _ _ => false) (mkRng (fun _ => 0) 0) = Ok s /\
    length (grid s) = 4%nat.
Proof.
  assert (B : bernoulli_new 0%float = Ok 0) by (vm_compute; reflexivity).
  destruct (sim_new_spec 2 2 0 0%float 0 (fun _ _ => false) (mkRng (fun _ => 0) 0)
              ltac:(lia) ltac:(lia) ltac:(cbn; lia) ltac:(cbn; lia) B)
    as (s & E & _ & _ & _ & L & _).
  exists s; split; [exact E|exact L].
Defined.

End SimNewFacts.

Module TickFacts.
Import Brain Sim SimInv SimFacts TickInv.

Lemma pop_best_none : forall better h, pop_best better h = None -> h = [].
Proof.
  intros better [|o t] H; [reflexivity|]; cbn in H.
  destruct (pop_best better t) as [[? ?]|]; [destruct (better _ _)|]; discriminate H.
Qed.

Lemma pop_min_least : forall h x rest, pop_min h = Some (x, rest) ->
  forall y, In y h -> rate x <= rate y.
Proof.
  unfold pop_min; intros h; induction h as [|o t IH]; intros x rest H y Hy;
    cbn in H; [discriminate|].
  destruct (pop_best _ t) as [[b r]|] eqn:E.
  - specialize (IH _ _ eq_refl).
    destruct (rate b <? rate o) eqn:L; injection H as <- <-.
    + apply Z.ltb_lt in L; destruct Hy as [<-|Hy]; [lia|exact (IH _ Hy)].
    + apply Z.ltb_ge in L; destruct Hy as [<-|Hy]; [lia|].
      specialize (IH _ Hy); lia.
  - injection H as <- <-; apply pop_best_none in E; subst t.
    destruct Hy as [<-|[]]; lia.
Qed.

Lemma pop_max_greatest : forall h x rest, pop_max h = Some (x, rest) ->
  forall y, In y h -> rate y <= rate x.
Proof.
  unfold pop_max; intros h; induction h as [|o t IH]; intros x rest H y Hy;
    cbn in H; [discriminate|].
  destruct (pop_best _ t) as [[b r]|] eqn:E.
  - specialize (IH _ _ eq_refl).
    destruct (rate o <? rate b) eqn:L; injection H as <- <-.
    + apply Z.ltb_lt in L; destruct Hy as [<-|Hy]; [lia|exact (IH _ Hy)].
    + apply Z.ltb_ge in L; destruct Hy as [<-|Hy]; [lia|].
      specialize (IH _ Hy); lia.
  - injection H as <- <-; apply pop_best_none in E; subst t.
    destruct Hy as [<-|[]]; lia.
Qed.

Lemma pop_best_in : forall better h x rest, pop_best better h = Some (x, rest) ->
  In x h /\ forall y, In y rest -> In y h.
Proof.
  intros better h x rest H; apply pop_best_perm in H.
  split; [apply (Permutation_in _ (Permutation_sym H)); left; reflexivity|].
  intros y Hy; apply (Permutation_in _ (Permutation_sym H)); right; exact Hy.
Qed.

Lemma in_push_if_open : forall h o x, In x (push_if_open h o) -> x = o \/ In x h.
Proof.
  unfold push_if_open; intros h o x; destruct (o_food o =? 0); [auto|].
  intros [->|H]; auto.
Qed.

Lemma reserve_branch_frame : forall (c : bool) st o st2 o2,
  (if c then fulfill_reserve st o else Ok (st, o)) = Ok (st2, o2) ->
  bids st2 = bids st /\ asks st2 = asks st /\ rate o2 = rate o.
Proof.
  intros [|] st o st2 o2 H.
  - destruct (fulfill_reserve_frame _ _ _ _ H) as (_ & ? & ? & _ & ?); auto.
  - injection H as <- <-; auto.
Qed.

Lemma bid_loop_uncrossed : forall fuel st o st',
  uncrossed st -> bid_loop fuel st o = Ok st' -> uncrossed st'.
Proof.
  intro fuel; induction fuel as [|fuel IH]; intros st o st' U H; cbn [bid_loop] in H.
  - injection H as <-; exact U.
  - destruct (pop_min (asks st)) as [[ask rest]|] eqn:P.
    + pose proof (pop_min_least _ _ _ P) as Lst.
      destruct (pop_best_in _ _ _ _ P) as [Ia Ir].
      destruct (rate o <? rate ask) eqn:R.
      * apply Z.ltb_lt in R; injection H as <-.
        intros b a Hb Ha; cbn in Hb, Ha.
        destruct (in_push_if_open _ _ _ Hb) as [->|Hb'].
        -- specialize (Lst a (Ir _ Ha)); lia.
        -- exact (U _ _ Hb' (Ir _ Ha)).
      * obind_inv.
        destruct (fulfill_frame _ _ _ _ _ _ E) as (_ & Eb & Ea & _ & _ & _ & Er).
        cbn in Eb, Ea.
        assert (U3 : uncrossed (set_asks m (push_if_open (asks m) o0))).
        { intros b a Hb Ha; cbn in Hb, Ha; rewrite Eb in Hb.
          destruct (in_push_if_open _ _ _ Ha) as [->|Ha'].
          - rewrite Er; exact (U _ _ Hb Ia).
          - rewrite Ea in Ha'; exact (U _ _ Hb (Ir _ Ha')). }
        destruct (o_food o1 =? 0) in H.
        -- injection H as <-; exact U3.
        -- exact (IH _ _ _ U3 H).
    + apply pop_best_none in P.
      unfold REPO in H; cbn [andb] in H; obind_inv.
      intros b a _ Ha; cbn in Ha; rewrite P in Ha; destruct Ha.
Qed.

Lemma ask_loop_uncrossed : forall fuel st o st',
  uncrossed st -> ask_loop fuel st o = Ok st' -> uncrossed st'.
Proof.
  intro fuel; induction fuel as [|fuel IH]; intros st o st' U H; cbn [ask_loop] in H.
  - injection H as <-; exact U.
  - destruct (pop_max (bids st)) as [[bid rest]|] eqn:P.
    + pose proof (pop_max_greatest _ _ _ P) as Gst.
      destruct (pop_best_in _ _ _ _ P) as [Ib Ir].
      destruct (rate bid <? rate o) eqn:R.
      * apply Z.ltb_lt in R; obind_inv.
        destruct (reserve_branch_frame _ _ _ _ _ E) as (Eb & Ea & Er); cbn in Eb, Ea.
        intros b a Hb Ha; cbn in Hb, Ha; rewrite Eb in Hb.
        destruct (in_push_if_open _ _ _ Ha) as [->|Ha'].
        -- specialize (Gst b (Ir _ Hb)); lia.
        -- rewrite Ea in Ha'; exact (U _ _ (Ir _ Hb) Ha').
      * obind_inv.
        destruct (reserve_branch_frame _ _ _ _ _ E) as (Eb & Ea & _); cbn in Eb, Ea.
        destruct (fulfill_frame _ _ _ _ _ _ E0) as (_ & Eb2 & Ea2 & _ & _ & _ & Er).
        assert (U3 : uncrossed (set_bids m0 (push_if_open (bids m0) o1))).
        { intros b a Hb Ha; cbn in Hb, Ha; rewrite Ea2, Ea in Ha.
          destruct (in_push_if_open _ _ _ Hb) as [->|Hb'].
          - rewrite Er; exact (U _ _ Ib Ha).
          - rewrite Eb2, Eb in Hb'; exact (U _ _ (Ir _ Hb') Ha). }
        destruct (o_food o2 =? 0) in H.
        -- injection H as <-; exact U3.
        -- exact (IH _ _ _ U3 H).
    + apply pop_best_none in P; obind_inv.
      destruct (reserve_branch_frame _ _ _ _ _ E) as (Eb & _ & _).
      intros b a Hb _; cbn in Hb; rewrite Eb, P in Hb; destruct Hb.
Qed.

Lemma market_uncrossed : forall orders st st',
  uncrossed st -> market st orders = Ok st' -> uncrossed st'.
Proof.
  intro orders; induction orders as [|o os IH]; intros st st' U H; cbn [market] in H.
  - injection H as <-; exact U.
  - destruct (intent o); obind_inv.
    + exact (IH _ _ (bid_loop_uncrossed _ _ _ _ U E) H).
    + exact (IH _ _ (ask_loop_uncrossed _ _ _ _ U E) H).
    + exact (IH _ _ U H).
Qed.

(** The market pass of [Sim::tick] leaves no resting bid at or above a
    resting ask, so the quotes it records are never crossed: when a tick
    records both a last bid and a last ask, the bid is strictly below the
    ask. *)
Theorem tick_quotes_uncrossed : forall nb dec ud r s s' x y,
  tick nb dec ud r s = Ok s' -> last_bid s' = Some x -> last_ask s' = Some y -> x < y.
Proof.
  intros nb dec ud r s s' x y H Hx Hy; unfold tick in H; obind_inv.
  destruct (Z.eqb _ _) in H; [|discriminate H]; injection H as <-; cbn in Hx, Hy.
  match goal with E : market _ _ = Ok ?m |- _ =>
    assert (U : uncrossed m)
      by (refine (market_uncrossed _ _ _ _ E); intros ? ? Hb0; destruct Hb0);
    destruct (pop_max (bids m)) as [[b rb]|] eqn:Pb; [|discriminate Hx];
    destruct (pop_min (asks m)) as [[a' ra]|] eqn:Pa; [|discriminate Hy] end.
  cbn in Hx, Hy; injection Hx as <-; injection Hy as <-.
  exact (U _ _ (proj1 (pop_best_in _ _ _ _ Pb)) (proj1 (pop_best_in _ _ _ _ Pa))).
Qed.

Lemma fulfill_flow : forall st nw ex st' nw' ex',
  fulfill st nw ex = Ok (st', nw', ex') -> flow st' = flow st.
Proof.
  intros st nw ex st' nw' ex' H; unfold fulfill in H; obind_inv.
  match goal with
  | B : chk_u32 (m_buy _ + _) = Ok _, S : chk_u32 (m_sell _ + _) = Ok _ |- _ =>
      apply chk_u32_inv in B; apply chk_u32_inv in S
  end.
  unfold flow; cbn; lia.
Qed.

Lemma fulfill_reserve_flow : forall st o st' o',
  fulfill_reserve st o = Ok (st', o') -> flow st' = flow st.
Proof.
  intros st o st' o' H; unfold fulfill_reserve in H; obind_inv.
  match goal with
  | B : chk_u32 (m_reserve _ - _) = Ok _, S : chk_u32 (m_sell _ + _) = Ok _ |- _ =>
      apply chk_u32_inv in B; apply chk_u32_inv in S
  end.
  unfold flow; cbn; lia.
Qed.

Lemma reserve_branch_flow : forall (c : bool) st o st2 o2,
  (if c then fulfill_reserve st o else Ok (st, o)) = Ok (st2, o2) -> flow st2 = flow st.
Proof.
  intros [|] st o st2 o2 H; [exact (fulfill_reserve_flow _ _ _ _ H)|].
  injection H as <- <-; reflexivity.
Qed.

Lemma bid_loop_flow : forall fuel st o st', bid_loop fuel st o = Ok st' -> flow st' = flow st.
Proof.
  intro fuel; induction fuel as [|fuel IH]; intros st o st' H; cbn [bid_loop] in H.
  - injection H as <-; reflexivity.
  - destruct (pop_min (asks st)) as [[ask rest]|] eqn:P.
    + destruct (rate o <? rate ask).
      * injection H as <-; reflexivity.
      * obind_inv; pose proof (fulfill_flow _ _ _ _ _ _ E) as F.
        destruct (o_food _ =? 0) in H.
        -- injection H as <-; exact F.
        -- rewrite (IH _ _ _ H); exact F.
    + unfold REPO in H; cbn [andb] in H; obind_inv; reflexivity.
Qed.

Lemma ask_loop_flow : forall fuel st o st', ask_loop fuel st o = Ok st' -> flow st' = flow st.
Proof.
  intro fuel; induction fuel as [|fuel IH]; intros st o st' H; cbn [ask_loop] in H.
  - injection H as <-; reflexivity.
  - destruct (pop_max (bids st)) as [[bid rest]|] eqn:P.
    + destruct (rate bid <? rate o).
      * obind_inv; exact (reserve_branch_flow _ _ _ _ _ E).
      * obind_inv.
        pose proof (reserve_branch_flow _ _ _ _ _ E) as F1.
        pose proof (fulfill_flow _ _ _ _ _ _ E0) as F2.
        destruct (o_food _ =? 0) in H.
        -- injection H as <-; cbn in F1; unfold flow in *; cbn in *; lia.
        -- rewrite (IH _ _ _ H); unfold flow in *; cbn in *; lia.
    + obind_inv; exact (reserve_branch_flow _ _ _ _ _ E).
Qed.

Lemma market_flow : forall orders st st', market st orders = Ok st' -> flow st' = flow st.
Proof.
  intro orders; induction orders as [|o os IH]; intros st st' H; cbn [market] in H.
  - injection H as <-; reflexivity.
  - destruct (intent o); obind_inv; rewrite (IH _ _ H).
    + exact (bid_loop_flow _ _ _ _ E).
    + exact (ask_loop_flow _ _ _ _ E).
    + reflexivity.
Qed.

(** The reserve only changes in the market pass by trading food with the
    cells: after a pass that starts from a reserve [R], the reserve is [R]
    plus the buy volume less the sell volume. *)
Theorem market_reserve_flow : forall cells R orders st,
  market (market_start cells R) orders = Ok st -> m_reserve st = R + m_buy st - m_sell st.
Proof.
  intros cells R orders st H; apply market_flow in H; unfold flow in H; cbn in H; lia.
Qed.

Lemma wall_money_cons : forall c cs,
  wall_money (c :: cs) = (if CellType_eqb (ty c) Wall then money c else 0) + wall_money cs.
Proof. reflexivity. Qed.

Lemma wall_money_nonneg : forall cells, Forall (fun c => 0 <= money c) cells ->
  0 <= wall_money cells.
Proof.
  intros cells F; induction F as [|c cs Hc F IH]; [cbn; lia|].
  rewrite wall_money_cons; destruct (CellType_eqb (ty c) Wall); lia.
Qed.

(** The wall sweep of [Sim::tick] on cells holding [u32] amounts of money
    and a [u32] reserve: it empties every wall and adds the money it took to
    the reserve, leaves the other cells as they are, and panics exactly when
    the new reserve does not fit in a [u32]. *)
Theorem sweep_spec : forall cells r, 0 <= r < 2 ^ 32 ->
  Forall (fun c => 0 <= money c) cells ->
  sweep cells r =
    if r + wall_money cells <? 2 ^ 32
    then Ok (map (fun c => if CellType_eqb (ty c) Wall then with_money c 0 else c) cells,
             r + wall_money cells)
    else Panic ArithmeticOverflow.
Proof.
  intros cells; induction cells as [|c cs IH]; intros r Hr F.
  - cbn [sweep wall_money map fold_right]; rewrite Z.add_0_r.
    replace (r <? 2 ^ 32) with true by (symmetry; apply Z.ltb_lt; lia); reflexivity.
  - inversion F as [|? ? Hc Fs]; subst.
    pose proof (wall_money_nonneg _ Fs) as Wn.
    rewrite wall_money_cons; cbn [sweep map].
    destruct (CellType_eqb (ty c) Wall) eqn:W.
    + unfold chk_u32, in_u32.
      destruct (r + money c <? 2 ^ 32) eqn:L.
      * apply Z.ltb_lt in L.
        replace ((0 <=? r + money c) && true) with true by (symmetry; apply andb_true_iff; split; [apply Z.leb_le; lia|reflexivity]).
        cbn [obind]; rewrite (IH (r + money c) ltac:(lia) Fs).
        replace (r + money c + wall_money cs) with (r + (money c + wall_money cs)) by lia.
        destruct (_ <? 2 ^ 32); reflexivity.
      * apply Z.ltb_ge in L; rewrite andb_false_r; cbn [obind].
        destruct (r + (money c + wall_money cs) <? 2 ^ 32) eqn:L2;
          [apply Z.ltb_lt in L2; lia|reflexivity].
    + cbn [obind]; rewrite (IH _ Hr Fs); rewrite Z.add_0_l.
      destruct (_ <? 2 ^ 32); reflexivity.
Qed.

(** A bid below every resting ask does not trade, yet the [Intent::Bid]
    arm pops the lowest ask before the comparison and never pushes it back:
    the bid joins the bids and the best ask is lost from the book. *)
Theorem bid_below_asks_drops_best_ask : forall st o,
  o_food o < 0 -> asks st <> [] -> (forall a, In a (asks st) -> rate o < rate a) ->
  exists best rest, Permutation (asks st) (best :: rest) /\
    (forall a, In a (asks st) -> rate best <= rate a) /\
    market st [o] = Ok (set_bids (set_asks st rest) (o :: bids st)).
Proof.
  intros st o Ho Hne Hlt.
  destruct (pop_min (asks st)) as [[best rest]|] eqn:P;
    [|apply pop_best_none in P; contradiction].
  exists best, rest; split; [exact (pop_best_perm _ _ _ _ P)|].
  split; [exact (pop_min_least _ _ _ P)|].
  assert (I : intent o = IBid) by (unfold intent; apply Z.ltb_lt in Ho; rewrite Ho; reflexivity).
  assert (R : (rate o <? rate best) = true)
    by (apply Z.ltb_lt, Hlt, (proj1 (pop_best_in _ _ _ _ P))).
  assert (F : (o_food o =? 0) = false) by (apply Z.eqb_neq; lia).
  cbn [market]; rewrite I; cbn [bid_loop]; rewrite P, R; cbn [obind].
  unfold push_if_open; rewrite F; reflexivity.
Qed.

(** An ask above every resting bid and above the reserve's rate of 1 does
    not trade, yet the [Intent::Ask] arm pops the highest bid before the
    comparison and never pushes it back: the ask joins the asks and the best
    bid is lost from the book. *)
Theorem ask_above_bids_drops_best_bid : forall st o,
  0 < o_food o -> 1 < rate o -> bids st <> [] -> (forall b, In b (bids st) -> rate b < rate o) ->
  exists best rest, Permutation (bids st) (best :: rest) /\
    (forall b, In b (bids st) -> rate b <= rate best) /\
    market st [o] = Ok (set_asks (set_bids st rest) (o :: asks st)).
Proof.
  intros st o Ho Hr Hne Hlt.
  destruct (pop_max (bids st)) as [[best rest]|] eqn:P;
    [|apply pop_best_none in P; contradiction].
  exists best, rest; split; [exact (pop_best_perm _ _ _ _ P)|].
  split; [exact (pop_max_greatest _ _ _ P)|].
  assert (I : intent o = IAsk).
  { unfold intent; replace (o_food o <? 0) with false by (symmetry; apply Z.ltb_ge; lia).
    apply Z.ltb_lt in Ho; rewrite Ho; reflexivity. }
  assert (R : (rate best <? rate o) = true)
    by (apply Z.ltb_lt, Hlt, (proj1 (pop_best_in _ _ _ _ P))).
  assert (R1 : (rate o <=? 1) = false) by (apply Z.leb_gt; lia).
  assert (F : (o_food o =? 0) = false) by (apply Z.eqb_neq; lia).
  cbn [market]; rewrite I; cbn [ask_loop]; rewrite P, R, R1; cbn [obind].
  unfold push_if_open; rewrite F; reflexivity.
Qed.

Lemma brain_one_dir : forall dir (b : option Brain.Brain) (f m : Z) d d',
  m_brain (if MooreDirection_eqb d dir then mkMove f m b else no_move) <> None ->
  m_brain (if MooreDirection_eqb d' dir then mkMove f m b else no_move) <> None -> d = d'.
Proof.
  intros dir b f m d d' H1 H2.
  destruct (MooreDirection_eqb d dir) eqn:E1; [|contradiction H1; reflexivity].
  destruct (MooreDirection_eqb d' dir) eqn:E2; [|contradiction H2; reflexivity].
  destruct d, d', dir; cbn in E1, E2; congruence.
Qed.

(** One [step] of a cell with [u32] food: it consumes at most the cell's
    food and sends no negative food; either it sends no food and consumes
    at most one unit, or (a move or a division) it consumes exactly
    [MOVE_PENALTY + 1] more food than it sends to its neighbours; at most
    one neighbour receives a brain, and none does when the cell has no
    brain. *)
Theorem step_food_and_brains : forall c dec dif mv,
  step c dec = Ok (dif, mv) -> 0 <= food c ->
  0 <= consume dif <= food c /\ (forall d, 0 <= m_food (mv d)) /\
  ((food_outflow mv = 0 /\ consume dif <= 1) \/
   consume dif = food_outflow mv + 1 + MOVE_PENALTY) /\
  (forall d d', m_brain (mv d) <> None -> m_brain (mv d') <> None -> d = d') /\
  (brain c = None -> forall d, m_brain (mv d) = None).
Proof.
  intros c dec dif mv H Hf; unfold step, food_outflow in *.
  destruct (is_none (brain c) || (food c =? 0))%bool eqn:B.
  { injection H as <- <-; cbn -[zsum].
    split; [lia|]; split; [intros; lia|]; split; [left; cbn; lia|].
    split; [intros d d' X; contradiction X; reflexivity|reflexivity]. }
  apply orb_false_iff in B as [Bn Bf]; apply Z.eqb_neq in Bf.
  assert (Hb : brain c <> None) by (intro E; rewrite E in Bn; discriminate Bn).
  assert (JE : forall t, Ok (mkDiff 1 0 false t, fun _ : MooreDirection => no_move) = Ok (dif, mv) ->
    0 <= consume dif <= food c /\ (forall d, 0 <= m_food (mv d)) /\
    ((zsum (map (fun x => m_food (mv x)) all_dirs) = 0 /\ consume dif <= 1) \/
     consume dif = zsum (map (fun x => m_food (mv x)) all_dirs) + 1 + MOVE_PENALTY) /\
    (forall d d', m_brain (mv d) <> None -> m_brain (mv d') <> None -> d = d') /\
    (brain c = None -> forall d, m_brain (mv d) = None)).
  { intros t E; injection E as <- <-; cbn -[zsum].
    split; [lia|]; split; [intros; lia|]; split; [left; cbn; lia|].
    split; [intros d d' X; contradiction X; reflexivity|contradiction]. }
  destruct dec as [dir|dir|rt fd|].
  - destruct (MOVE_PENALTY <? food c) eqn:P; [|exact (JE _ H)].
    obind_inv; apply Z.ltb_lt in P.
    apply chk_u32_inv in E as [-> _]; apply chk_u32_inv in E0 as [-> ?].
    cbn [consume m_food m_brain].
    split; [lia|]; split; [intro d; destruct (MooreDirection_eqb d dir); cbn; lia|].
    split; [right; rewrite (map_ext _ (fun x => if MooreDirection_eqb x dir then food c - 1 - MOVE_PENALTY else 0))
              by (intro x; destruct (MooreDirection_eqb x dir); reflexivity);
            rewrite zsum_one_dir; lia|].
    split; [exact (brain_one_dir dir _ _ _)|contradiction].
  - destruct (2 + MOVE_PENALTY <=? food c) eqn:P; [|exact (JE _ H)].
    obind_inv; apply Z.leb_le in P.
    apply chk_u32_inv in E as [-> _]; apply chk_u32_inv in E0 as [-> _];
      apply chk_u32_inv in E1 as [-> ?].
    clear JE; unfold MOVE_PENALTY in *; change (8 / 2) with 4 in *; cbn [consume m_food m_brain].
    assert (food c / 2 + 1 + 4 <= food c) by (pose proof (Z.div_mod (food c) 2); pose proof (Z.mod_pos_bound (food c) 2); lia).
    split; [split; [pose proof (Z.div_pos (food c) 2); lia|lia]|].
    split; [intro d; destruct (MooreDirection_eqb d dir); cbn; lia|].
    split; [right; rewrite (map_ext _ (fun x => if MooreDirection_eqb x dir then food c / 2 - 4 else 0))
              by (intro x; destruct (MooreDirection_eqb x dir); reflexivity);
            rewrite zsum_one_dir; lia|].
    split; [exact (brain_one_dir dir _ _ _)|contradiction].
  - obind_inv.
    destruct ((fd <? as_i32 (food c)) && (_ <=? as_i32 (money c)))%bool; exact (JE _ H).
  - exact (JE _ H).
Qed.

Lemma flat_map_nil_iff : forall {A B} (g : A -> list B) l,
  flat_map g l = [] <-> forall x, In x l -> g x = [].
Proof.
  intros A B g l; induction l as [|a l IH]; cbn.
  - split; [intros _ x []|reflexivity].
  - split.
    + intro H; apply app_eq_nil in H as [H1 H2].
      intros x [<-|Hx]; [exact H1|exact (proj1 IH H2 x Hx)].
    + intro H; rewrite (H a (or_introl eq_refl)), (proj2 IH (fun x Hx => H x (or_intror Hx))).
      reflexivity.
Qed.

Lemma brain_moves_nil_iff : forall mv : MooreDirection -> Move,
  flat_map (fun d => option_list (m_brain (mv d))) all_dirs = [] <->
  forall d, m_brain (mv d) = None.
Proof.
  intro mv; rewrite flat_map_nil_iff; split.
  - intros H d; specialize (H d ltac:(destruct d; cbn; tauto)).
    destruct (m_brain (mv d)); [discriminate H|reflexivity].
  - intros H d _; rewrite H; reflexivity.
Qed.

Lemma combine_branch_some : forall (l : list Brain.Brain) b1 x,
  (if Nat.ltb 1 (length l + (if is_none b1 then 0 else 1)) then Some x
   else match l with [m] => Some m | _ => b1 end) <> None <-> l <> [] \/ b1 <> None.
Proof.
  intros [|m [|m2 l]] [b|] x; cbn; split; intro H;
    try (left; discriminate); try (right; discriminate); try discriminate;
    try (destruct H as [H|H]; contradiction H; reflexivity); contradiction H; reflexivity.
Qed.

Lemma spawn_branch_some : forall (b3 : option Brain.Brain) (sp : bool) y x s o z,
  (if is_none b3 && sp then (f <- chk_u32 x ;; Ok (Some s, f)) else Ok (b3, y)) = Ok (o, z) ->
  (o <> None <-> b3 <> None \/ sp = true).
Proof.
  intros b3 sp y x s o z H.
  destruct b3 as [b|]; [|destruct sp]; cbn [is_none andb] in H.
  - destruct sp; injection H as <- <-; split; [intros _; left; discriminate|discriminate|
      intros _; left; discriminate|discriminate].
  - destruct (chk_u32 x); cbn [obind] in H; [injection H as <- <-|discriminate H].
    split; [intros _; right; reflexivity|discriminate].
  - injection H as <- <-; split; [intro X; contradiction X; reflexivity|].
    intros [X|X]; [contradiction X; reflexivity|discriminate X].
Qed.

(** [update] of one cell: a wall only gains the money its neighbours sent
    it; any other cell ends with a brain exactly when a neighbour sent it
    one, or it did not move its own brain away and had one, or a brain
    spawned there. *)
Theorem update_brain_presence : forall c dif mv u c', update c dif mv u = Ok c' ->
  (ty c = Wall -> c' = with_money c (money c + outflow mv)) /\
  (ty c <> Wall ->
   (brain c' <> None <->
    (exists d, m_brain (mv d) <> None) \/ (moved dif = false /\ brain c <> None) \/
    u_spawn u = true)).
Proof.
  intros c dif mv u c' H; unfold update, outflow in *; obind_inv.
  apply sum_u32_ok in E as ->; apply chk_u32_inv in E0 as [-> _].
  destruct (CellType_eqb (ty c) Wall) eqn:W.
  - injection H as <-; split; [reflexivity|].
    intro HW; apply CellType_eqb_spec in W; contradiction.
  - split; [intro HW; rewrite HW in W; discriminate W|intros _].
    obind_inv; cbn [brain].
    match goal with B : (if is_none _ && _ then _ else _) = Ok (_, _) |- _ =>
      rewrite (spawn_branch_some _ _ _ _ _ _ _ B) end.
    assert (Hm : forall (b : option Brain.Brain) (f : Brain.Brain -> Brain.Brain),
              option_map f b <> None <-> b <> None)
      by (intros [] f; cbn; split; intros X Y; try discriminate; apply X; reflexivity).
    rewrite Hm, combine_branch_some.
    assert (Hx : flat_map (fun d => option_list (m_brain (mv d))) all_dirs <> [] <->
                 exists d, m_brain (mv d) <> None).
    { split.
      - intro X; destruct (flat_map (fun d => option_list (m_brain (mv d))) all_dirs)
          as [|b l] eqn:F; [contradiction X; reflexivity|].
        assert (Hb : In b (flat_map (fun d => option_list (m_brain (mv d))) all_dirs))
          by (rewrite F; left; reflexivity).
        apply in_flat_map in Hb as (d & _ & Hd); exists d.
        destruct (m_brain (mv d)); [discriminate|destruct Hd].
      - intros [d X] Y; apply X; exact (proj1 (brain_moves_nil_iff mv) Y d). }
    rewrite Hx.
    destruct (moved dif); cbn; [|tauto].
    split; [intros [[A|A]|A]; [left; exact A|contradiction A; reflexivity|right; right; exact A]|].
    intros [A|[[A _]|A]]; [left; left; exact A|discriminate A|right; exact A].
Qed.

(** One [step] of a cell with [u32] money: it spends at most the cell's
    money and sends its neighbours exactly what it spends; a cell without a
    brain spends nothing, and a trade spends nothing and is one the cell's
    money can pay for. *)
Theorem step_money_budget : forall c dec dif mv, step c dec = Ok (dif, mv) -> 0 <= money c ->
  0 <= spend dif <= money c /\ outflow mv = spend dif /\
  (forall x, 0 <= m_money (mv x)) /\
  (brain c = None -> spend dif = 0) /\
  (forall t, d_trade dif = Some t -> spend dif = 0 /\ - t_rate t * t_food t <= as_i32 (money c)).
Proof. exact step_spec. Qed.

(** ** Witnesses *)

Definition trader : Brain := mkBrain 0%float 0 0 [0%float] (mkDna [] []).
Definition trading_cell (m : Z) : Cell := mkCell 10 m Empty 0%float (Some trader) None.
Definition quotes_dec (i : nat) : Decision :=
  match i with 0%nat => DTrade 1 (-2) | 1%nat => DTrade 5 3 | _ => DTrade 6 3 end.
Definition quotes_sim : Sim :=
  mkSim [trading_cell 10; trading_cell 0; trading_cell 0] 3 1 182 None None 0 0.

Lemma tick_quotes_uncrossed_witness :
  exists s', tick (fun i _ => i) quotes_dec (fun _ => idle_draws) (mkRng (fun _ => 0) 0) quotes_sim
             = Ok s' /\ last_bid s' = Some 1 /\ last_ask s' = Some 6 /\ 1 < 6.
Proof.
  destruct (tick (fun i _ => i) quotes_dec (fun _ => idle_draws) (mkRng (fun _ => 0) 0) quotes_sim)
    as [s'|p] eqn:E; [|vm_compute in E; discriminate E].
  assert (Hb : last_bid s' = Some 1) by (vm_compute in E; injection E as <-; reflexivity).
  assert (Ha : last_ask s' = Some 6) by (vm_compute in E; injection E as <-; reflexivity).
  exists s'; split; [reflexivity|split; [exact Hb|split; [exact Ha|]]].
  exact (tick_quotes_uncrossed _ _ _ _ _ _ _ _ E Hb Ha).
Defined.

Lemma market_reserve_flow_witness :
  exists st, market (market_start two_cells 1000) [mkOrder 1 1 4] = Ok st /\
    m_reserve st = 1000 + m_buy st - m_sell st /\ m_sell st = 4.
Proof.
  destruct (market (market_start two_cells 1000) [mkOrder 1 1 4]) as [st|p] eqn:E;
    [|vm_compute in E; discriminate E].
  exists st; split; [reflexivity|split; [exact (market_reserve_flow _ _ _ _ E)|]].
  vm_compute in E; injection E as <-; reflexivity.
Defined.

Lemma sweep_spec_witness :
  sweep [mkCell 0 5 Wall 0%float None None; mkCell 0 7 Empty 0%float None None] 10 =
  Ok ([mkCell 0 0 Wall 0%float None None; mkCell 0 7 Empty 0%float None None], 15).
Proof.
  rewrite (sweep_spec [mkCell 0 5 Wall 0%float None None; mkCell 0 7 Empty 0%float None None] 10 ltac:(lia)
             ltac:(repeat constructor; cbn; lia)).
  reflexivity.
Defined.

Definition ask_book : Market :=
  mkMarket two_cells 1000 0 0 [] [mkOrder 1 7 2; mkOrder 1 5 3].

Lemma bid_below_asks_drops_best_ask_witness :
  exists best rest, Permutation (asks ask_book) (best :: rest) /\
    market ask_book [mkOrder 0 2 (-3)] =
    Ok (set_bids (set_asks ask_book rest) (mkOrder 0 2 (-3) :: bids ask_book)).
Proof.
  destruct (bid_below_asks_drops_best_ask ask_book (mkOrder 0 2 (-3)) ltac:(cbn; lia)
              ltac:(discriminate) ltac:(intros a [<-|[<-|[]]]; cbn; lia))
    as (best & rest & P & _ & E).
  exists best, rest; split; [exact P|exact E].
Defined.

Definition bid_book : Market :=
  mkMarket two_cells 1000 0 0 [mkOrder 0 2 (-2); mkOrder 0 3 (-1)] [].

Lemma ask_above_bids_drops_best_bid_witness :
  exists best rest, Permutation (bids bid_book) (best :: rest) /\
    market bid_book [mkOrder 1 4 3] =
    Ok (set_asks (set_bids bid_book rest) (mkOrder 1 4 3 :: asks bid_book)).
Proof.
  destruct (ask_above_bids_drops_best_bid bid_book (mkOrder 1 4 3) ltac:(cbn; lia)
              ltac:(cbn; lia) ltac:(discriminate) ltac:(intros b [<-|[<-|[]]]; cbn; lia))
    as (best & rest & P & _ & E).
  exists best, rest; split; [exact P|exact E].
Defined.

Lemma step_food_and_brains_witness :
  exists dif mv, step (trading_cell 0) (DMove Right) = Ok (dif, mv) /\
    consume dif = food_outflow mv + 1 + MOVE_PENALTY.
Proof.
  destruct (step (trading_cell 0) (DMove Right)) as [[dif mv]|p] eqn:E;
    [|vm_compute in E; discriminate E].
  exists dif, mv; split; [reflexivity|].
  destruct (step_food_and_brains _ _ _ _ E ltac:(cbn; lia)) as (_ & _ & [[F C]|C] & _); [|exact C].
  vm_compute in E; injection E as <- <-; vm_compute in F; discriminate F.
Defined.

Lemma step_money_budget_witness :
  exists dif mv, step (trading_cell 4) (DMove Right) = Ok (dif, mv) /\ outflow mv = spend dif.
Proof.
  destruct (step (trading_cell 4) (DMove Right)) as [[dif mv]|p] eqn:E;
    [|vm_compute in E; discriminate E].
  exists dif, mv; split; [reflexivity|].
  exact (proj1 (proj2 (step_money_budget _ _ _ _ E ltac:(cbn; lia)))).
Defined.

Lemma update_brain_presence_witness :
  exists c', update (trading_cell 0) (mkDiff 1 0 false None) (fun _ => no_move) idle_draws = Ok c' /\
    brain c' <> None.
Proof.
  destruct (update (trading_cell 0) (mkDiff 1 0 false None) (fun _ => no_move) idle_draws)
    as [c'|p] eqn:E; [|vm_compute in E; discriminate E].
  exists c'; split; [reflexivity|].
  apply (proj2 (update_brain_presence _ _ _ _ _ E) ltac:(discriminate)).
  right; left; split; [reflexivity|discriminate].
Defined.

End TickFacts.
